(** * R-tree bulk loading, range queries and k-nearest-neighbour search

    A shallow embedding of the spatial-data programs of the repository:
    - [Node.h]: [MBR], [Entry], [Node], [InternalNode],
      [update_parent_mbr], [recompute_node_mbr];
    - [r_tree_bulk_loading.cpp]: [readOffsets], [computeMBRs],
      [update_z_value_to_entries], [sortEntriesByZValue],
      [build_leaf_nodes], [create_upper_level], [build_tree];
    - [range_queries.cpp]: [extract_numbers], [build_tree_from_file],
      [mbr_intersects], [range_query];
    - [k_nearest_neighbors.cpp]: [min_dist], [PQEntry], the best-first loop
      of [run_kn_queries].

    Conventions of the embedding.
    - A C++ [double] is an exact rational ([Q]): the programs only compare,
      take minima and maxima, add, subtract and multiply coordinates; the one
      square root, in [min_dist], is kept symbolic (type [root]) and given its
      meaning in the reals by [root_R].
    - An [int] is a [Z]; [size_t] arithmetic is written out modulo [2^64].
    - A [std::shared_ptr<Node>] is the node it points to; a pointer that may
      be null is an [option]. Nodes are never mutated once they are reachable
      from two places, so sharing is not observable.
    - A computation that can leave the defined behaviour of C++ returns a
      [result]: [Undefined] for undefined behaviour, [Exit] for [exit(-1)],
      [Throw] for an uncaught exception. A loop whose number of iterations
      is not structural takes a [fuel]; [OutOfFuel] says that the fuel was
      too small, and the run theorems give a fuel that is enough.
    - The bulk loader includes [LeafNode.h], which declares the classes of
      [Node.h] with [LeafNode] for [Node]; the embedding has one type
      [Node] for both. The counter [node_id] of the loader is an [int]
      that only grows by one per node built; it is a [Z] here, and the
      theorems that depend on its range bound the number of entries. *)

From Stdlib Require Import ZArith QArith Qround Qabs Reals Qreals Lia Psatz Ascii.
From Stdlib Require Import OrderedTypeEx.
From stdpp Require Import base option list sorting gmap strings.

Set Warnings "-register-all".
Local Open Scope Z_scope.

(** ** Outcomes of a run *)

Inductive result (A : Type) : Type :=
| Ok (a : A)
| Undefined
| Exit (msg : string)
| Throw (exn : string)
| OutOfFuel.
Arguments Ok {A} a.
Arguments Undefined {A}.
Arguments Exit {A} msg.
Arguments Throw {A} exn.
Arguments OutOfFuel {A}.

#[global] Instance result_ret : MRet result := fun A a => Ok a.
#[global] Instance result_bind : MBind result := fun A B k m =>
  match m with
  | Ok a => k a
  | Undefined => Undefined
  | Exit msg => Exit msg
  | Throw e => Throw e
  | OutOfFuel => OutOfFuel
  end.

(** [v[i]] on a [std::vector]: out of range is undefined behaviour. *)
Definition vec_at {A} (v : list A) (i : nat) : result A :=
  match v !! i with
  | Some a => Ok a
  | None => Undefined
  end.

(** ** Geometry ([Node.h]) *)

Abbreviation double := Q (only parsing).

Definition dlt (a b : double) : bool :=
  match (a ?= b)%Q with Lt => true | _ => false end.

(** [std::min(a, b)] is [(b < a) ? b : a]; [std::max(a, b)] is
    [(a < b) ? b : a]. *)
Definition std_min (a b : double) : double := if dlt b a then b else a.
Definition std_max (a b : double) : double := if dlt a b then b else a.

Record MBR : Type := mkMBR {
  x_low : double;
  y_low : double;
  x_high : double;
  y_high : double
}.

Definition update_parent_mbr (parent_mbr child_mbr : MBR) : MBR :=
  {| x_low := std_min (x_low parent_mbr) (x_low child_mbr);
     y_low := std_min (y_low parent_mbr) (y_low child_mbr);
     x_high := std_max (x_high parent_mbr) (x_high child_mbr);
     y_high := std_max (y_high parent_mbr) (y_high child_mbr) |}.

(** A [Node] that is not an [InternalNode] is a leaf: it is what
    [std::dynamic_pointer_cast<InternalNode>] tells apart. *)
Local Unset Elimination Schemes.
Inductive Node : Type :=
| Leaf (node_id : Z) (mbr : MBR)
| InternalNode (node_id : Z) (mbr : MBR) (children_are_leafs : bool)
               (children : list Node).
Local Set Elimination Schemes.

Definition node_id (n : Node) : Z :=
  match n with Leaf i _ => i | InternalNode i _ _ _ => i end.

Definition mbr (n : Node) : MBR :=
  match n with Leaf _ m => m | InternalNode _ m _ _ => m end.

Definition children (n : Node) : list Node :=
  match n with Leaf _ _ => [] | InternalNode _ _ _ cs => cs end.

Definition is_internal (n : Node) : bool :=
  match n with Leaf _ _ => false | InternalNode _ _ _ _ => true end.

(** [recompute_node_mbr]: starts from [children[0]], which is undefined
    behaviour on a node without children. The result is the new [mbr]. *)
Definition recompute_node_mbr (cs : list Node) : result MBR :=
  first ← vec_at cs 0;
  Ok (foldl (fun m c => update_parent_mbr m (mbr c)) (mbr first) (drop 1 cs)).

(** ** Range queries ([range_queries.cpp]) *)

Definition mbr_intersects (a b : MBR) : bool :=
  if dlt (x_high a) (x_low b) || dlt (x_high b) (x_low a) then false
  else if dlt (y_high a) (y_low b) || dlt (y_high b) (y_low a) then false
  else true.

(** The body of [range_query] for a non-null [node]. The argument is an
    [InternalNode] in the source; on a leaf there are no children to visit. *)
Fixpoint range_query_node (node : Node) (query_mbr : MBR) (results : list Z)
  : list Z :=
  match node with
  | Leaf _ _ => results
  | InternalNode _ _ _ cs =>
      foldl (fun results child =>
               if negb (mbr_intersects (mbr child) query_mbr) then results
               else if is_internal child
                    then range_query_node child query_mbr results
                    else results ++ [node_id child])
            results cs
  end.

Definition range_query (node : option Node) (query_mbr : MBR)
    (results : list Z) : list Z :=
  match node with
  | None => results
  | Some n => range_query_node n query_mbr results
  end.


(** ** k-nearest neighbours ([k_nearest_neighbors.cpp]) *)

(** The value of [std::sqrt(r)]: the non-negative real whose square is the
    rational [r]. Two such values compare as their radicands do. *)
Record root : Type := Sqrt { radicand : Q }.

Definition root_gt (a b : root) : bool := dlt (radicand b) (radicand a).

Definition min_dist (m : MBR) (qx qy : double) : root :=
  let dx := if dlt qx (x_low m) then (x_low m - qx)%Q
            else if dlt (x_high m) qx then (qx - x_high m)%Q
            else 0%Q in
  let dy := if dlt qy (y_low m) then (y_low m - qy)%Q
            else if dlt (y_high m) qy then (qy - y_high m)%Q
            else 0%Q in
  Sqrt (dx * dx + dy * dy).

Record PQEntry : Type := mkPQEntry {
  node : Node;
  distance : root
}.

(** [PQEntry::operator>] *)
Definition PQEntry_gt (a b : PQEntry) : bool :=
  root_gt (distance a) (distance b).

(** [std::priority_queue<PQEntry, std::vector<PQEntry>, std::greater<>>]
    is a library container: the embedding takes it through its contract.
    [pq_pop] is [top()] followed by [pop()], [None] on an [empty()] queue;
    [pq_contents] lists what the queue holds. The element on top is one that
    is [operator>] no other element; which one, among entries at the same
    distance, is left to the implementation. *)
Class PriorityQueue : Type := {
  pq : Type;
  pq_new : pq;
  pq_push : PQEntry -> pq -> pq;
  pq_pop : pq -> option (PQEntry * pq);
  pq_contents : pq -> list PQEntry;
  pq_new_contents : pq_contents pq_new = [];
  pq_push_contents e q : pq_contents (pq_push e q) ≡ₚ e :: pq_contents q;
  pq_pop_empty q : pq_pop q = None <-> pq_contents q = [];
  pq_pop_top q e q' :
    pq_pop q = Some (e, q') ->
    pq_contents q ≡ₚ e :: pq_contents q' /\
    Forall (fun e' => PQEntry_gt e e' = false) (pq_contents q')
}.

(** [static_cast<size_t>(k)] for an [int k]. *)
Definition size_t_of_int (k : Z) : Z := k mod 2 ^ 64.

Fixpoint tree_size (n : Node) : nat :=
  match n with
  | Leaf _ _ => 1
  | InternalNode _ _ _ cs => S (sum_list_with tree_size cs)
  end.

Section KNearest.
Context {PQ : PriorityQueue}.

(** The [while] loop of one query: [q] is the queue, [kn_leaf_ids] the ids
    collected so far. Every iteration removes one node from the queue, so
    the loop ends; [fuel] bounds the number of iterations. *)
Fixpoint kn_loop (fuel : nat) (x y : double) (k : Z) (q : pq)
    (kn_leaf_ids : list Z) : result (list Z) :=
  match fuel with
  | O => OutOfFuel
  | S fuel =>
      match pq_pop q with
      | None => Ok kn_leaf_ids
      | Some (entry, q) =>
          if Z.of_nat (length kn_leaf_ids) <? size_t_of_int k then
            match node entry with
            | InternalNode _ _ _ cs =>
                let q := foldl (fun q child =>
                                  pq_push (mkPQEntry child (min_dist (mbr child) x y)) q)
                               q cs in
                kn_loop fuel x y k q kn_leaf_ids
            | Leaf i _ =>
                kn_loop fuel x y k q (kn_leaf_ids ++ [i])
            end
          else Ok kn_leaf_ids
      end
  end.

(** One query of [run_kn_queries]: the ids printed for the point [(x, y)].
    [root->mbr] on a null root is undefined behaviour. *)
Definition kn_query (root : option Node) (x y : double) (k : Z)
  : result (list Z) :=
  match root with
  | None => Undefined
  | Some r =>
      kn_loop (S (tree_size r)) x y k
              (pq_push (mkPQEntry r (min_dist (mbr r) x y)) pq_new) []
  end.

End KNearest.

(** A priority queue that satisfies the contract: an unordered list, the
    top being its leftmost entry of least distance. *)
Fixpoint list_pop (l : list PQEntry) : option (PQEntry * list PQEntry) :=
  match l with
  | [] => None
  | e :: l' =>
      match list_pop l' with
      | None => Some (e, [])
      | Some (m, rest) =>
          if PQEntry_gt e m then Some (m, e :: rest) else Some (e, l')
      end
  end.

(** ** Text ([operator<<], [std::stoi], [std::stod])

    The text written to and read from [Rtree.txt] is a list of characters.
    [operator<<] on an [int] writes its decimal digits, with a leading [-]
    for a negative number. On a [double], under [std::fixed] and
    [std::setprecision(6)], it writes the value rounded to six decimals
    (ties to even): an optional [-], the integral digits, a point and six
    digits. *)

Abbreviation text := (list ascii).

Definition chars (s : string) : text := String.list_ascii_of_string s.

Definition isdigit (c : ascii) : bool :=
  (48 <=? nat_of_ascii c)%nat && (nat_of_ascii c <=? 57)%nat.

Definition digit_char (d : Z) : ascii := ascii_of_nat (48 + Z.to_nat d).

Definition digit_val (c : ascii) : Z := Z.of_nat (nat_of_ascii c) - 48.

(** The decimal digits of [n >= 0], most significant first; [fuel] bounds
    their number. *)
Fixpoint dec_digits (fuel : nat) (n : Z) : text :=
  match fuel with
  | O => []
  | S fuel =>
      (if n <? 10 then [] else dec_digits fuel (n / 10)) ++ [digit_char (n mod 10)]
  end.

Definition show_nat (n : Z) : text :=
  dec_digits (S (Z.to_nat (Z.log2 n))) n.

Definition show_int (n : Z) : text :=
  if n <? 0 then "-"%char :: show_nat (- n) else show_nat n.

(** [x] in millionths, rounded to the nearest integer, ties to even. *)
Definition round_half_even (t : Q) : Z :=
  let f := Qfloor t in
  match (t - inject_Z f ?= 1 # 2)%Q with
  | Lt => f
  | Gt => f + 1
  | Eq => if Z.even f then f else f + 1
  end.

Definition millionths (x : double) : Z := round_half_even (x * 1000000).

(** The last [k] decimal digits of [n >= 0], with leading zeros. *)
Fixpoint pad_digits (k : nat) (n : Z) : text :=
  match k with
  | O => []
  | S k => pad_digits k (n / 10) ++ [digit_char (n mod 10)]
  end.

Definition show_fixed6 (x : double) : text :=
  let n := Z.abs (millionths x) in
  (if dlt x 0 then ["-"%char] else [])
  ++ show_nat (n / 1000000) ++ "."%char :: pad_digits 6 (n mod 1000000).

(** The digits at the head of a text, and what follows them. *)
Fixpoint span_digits (s : text) : text * text :=
  match s with
  | c :: s' =>
      if isdigit c then let '(ds, rest) := span_digits s' in (c :: ds, rest)
      else ([], s)
  | [] => ([], [])
  end.

Definition digits_val (ds : text) : Z :=
  foldl (fun acc c => 10 * acc + digit_val c) 0 ds.

(** [std::stoi] and [std::stod], on the texts [extract_numbers] produces
    (digits, [-] and [.] only): an optional sign, then the longest run of
    digits (and, for [stod], an optional point and further digits); what
    follows is ignored. Without a digit, [std::invalid_argument] is thrown;
    [stoi] throws [std::out_of_range] outside the range of [int]. *)
Definition strip_sign (s : text) : bool * text :=
  match s with
  | "-"%char :: s' => (true, s')
  | _ => (false, s)
  end.

Definition stoi (s : text) : result Z :=
  let '(neg, s) := strip_sign s in
  let '(ds, _) := span_digits s in
  match ds with
  | [] => Throw "std::invalid_argument"
  | _ =>
      let v := if neg then - digits_val ds else digits_val ds in
      if (- 2 ^ 31 <=? v) && (v <? 2 ^ 31) then Ok v
      else Throw "std::out_of_range"
  end.

Definition stod (s : text) : result double :=
  let '(neg, s) := strip_sign s in
  let '(ds, rest) := span_digits s in
  let fs := match rest with
            | "."%char :: rest' => fst (span_digits rest')
            | _ => []
            end in
  match ds, fs with
  | [], [] => Throw "std::invalid_argument"
  | _, _ =>
      let scale := Z.to_pos (10 ^ Z.of_nat (length fs)) in
      let v := digits_val ds * Zpos scale + digits_val fs in
      Ok ((if neg then - v else v) # scale)
  end.

(** [std::stoi] on any text, as [readOffsets] calls it: [strtol] in base 10
    skips leading white space ([isspace] of the C locale), takes an optional
    sign [+] or [-] and the longest run of digits, and ignores what
    follows. *)
Definition isspace (c : ascii) : bool :=
  let n := N_of_ascii c in ((n =? 32) || ((9 <=? n) && (n <=? 13)))%N.

Fixpoint skip_spaces (s : text) : text :=
  match s with
  | c :: s' => if isspace c then skip_spaces s' else s
  | [] => []
  end.

Definition strip_any_sign (s : text) : bool * text :=
  match s with
  | "-"%char :: s' => (true, s')
  | "+"%char :: s' => (false, s')
  | _ => (false, s)
  end.

Definition std_stoi (s : text) : result Z :=
  let '(neg, s) := strip_any_sign (skip_spaces s) in
  let '(ds, _) := span_digits s in
  match ds with
  | [] => Throw "std::invalid_argument"
  | _ =>
      let v := if neg then - digits_val ds else digits_val ds in
      if (- 2 ^ 31 <=? v) && (v <? 2 ^ 31) then Ok v
      else Throw "std::out_of_range"
  end.

(** ** Serialisation ([Node.h]) *)

(** [MBR::toString] *)
Definition MBR_toString (m : MBR) : text :=
  chars "[" ++ show_fixed6 (x_low m) ++ chars ", "
  ++ show_fixed6 (x_high m) ++ chars ", "
  ++ show_fixed6 (y_low m) ++ chars ", "
  ++ show_fixed6 (y_high m) ++ chars "]".

(** The loop of [InternalNode::toString] over the children, from index
    [i]: a separator follows every child but the last. *)
Fixpoint children_toString (cs : list Node) : text :=
  match cs with
  | [] => []
  | c :: cs' =>
      chars "[" ++ show_int (node_id c) ++ chars ", "
      ++ MBR_toString (mbr c) ++ chars "]"
      ++ (match cs' with [] => [] | _ => chars ", " end)
      ++ children_toString cs'
  end.

(** The virtual [toString]: [Node::toString] on a leaf,
    [InternalNode::toString] on an internal node. *)
Definition toString (n : Node) : text :=
  match n with
  | Leaf i m => chars "[" ++ show_int i ++ chars ", " ++ MBR_toString m ++ chars "]"
  | InternalNode i _ children_are_leafs cs =>
      chars "[" ++ (if children_are_leafs then chars "0" else chars "1")
      ++ chars ", " ++ show_int i ++ chars ", ["
      ++ children_toString cs ++ chars "]]"
  end.

(** ** Bulk loading ([r_tree_bulk_loading.cpp]) *)

Module Entry.
Record t : Type := mk {
  id : Z;
  mbr : MBR;
  z_value : string
}.
End Entry.

(** [struct Point], [struct OffsetRecord]: the polygon of the record [id]
    is [coords[startOffset .. endOffset]]. *)
Module Point.
Record t : Type := mk {
  x : double;
  y : double
}.
End Point.

Module OffsetRecord.
Record t : Type := mk {
  id : Z;
  startOffset : Z;
  endOffset : Z
}.
End OffsetRecord.

(** [std::getline(ss, token, delim)] on a [std::stringstream]. The stream
    is the text still to be read, [None] once the end of the text has been
    hit ([eofbit]). The characters up to the delimiter are extracted and the
    delimiter is dropped; the call fails ([failbit], result [None]) when the
    stream is at its end or nothing at all is left to extract. *)
Fixpoint split_at (delim : ascii) (s : text) : text * option text :=
  match s with
  | [] => ([], None)
  | c :: s' =>
      if bool_decide (c = delim) then ([], Some s')
      else let '(token, rest) := split_at delim s' in (c :: token, rest)
  end.

Definition getline (ss : option text) (delim : ascii)
  : option (text * option text) :=
  match ss with
  | None | Some [] => None
  | Some s => Some (split_at delim s)
  end.

Definition newline : ascii := ascii_of_nat 10.

(** The body of the loop of [readOffsets] on one line: the three fields are
    extracted first, then tested, then converted from left to right. *)
Definition readOffsets_line (line : text) : result OffsetRecord.t :=
  let ss := Some line in
  let id := getline ss ","%char in
  let ss := match id with Some (_, ss) => ss | None => None end in
  let startOffset := getline ss ","%char in
  let ss := match startOffset with Some (_, ss) => ss | None => None end in
  let endOffset := getline ss newline in
  match id, startOffset, endOffset with
  | Some (id, _), Some (startOffset, _), Some (endOffset, _) =>
      id ← std_stoi id;
      startOffset ← std_stoi startOffset;
      endOffset ← std_stoi endOffset;
      Ok (OffsetRecord.mk id startOffset endOffset)
  | _, _, _ => Exit "Error reading offsets file"
  end.

Fixpoint readOffsets_lines (lines : list text) : result (list OffsetRecord.t) :=
  match lines with
  | [] => Ok []
  | line :: lines =>
      record ← readOffsets_line line;
      offsets ← readOffsets_lines lines;
      Ok (record :: offsets)
  end.

(** [readOffsets]: [file] is the lines of the file, [None] when it cannot
    be opened. *)
Definition readOffsets (file : option (list text))
  : result (list OffsetRecord.t) :=
  match file with
  | None => Exit "Error opening offsets file"
  | Some lines => readOffsets_lines lines
  end.

(** [v[i]] with an [int] index: the index is converted to [size_t], so a
    negative one is out of range. *)
Definition vec_at_int {A} (v : list A) (i : Z) : result A :=
  if i <? 0 then Undefined else vec_at v (Z.to_nat i).

Definition INT_MAX : Z := 2 ^ 31 - 1.

(** The inner loop of [computeMBRs],
    [for (int i = startOffset + 1; i <= endOffset; i++)]: the rectangle is
    widened by the point [coords[i]]. Incrementing [i] at [INT_MAX] is a
    signed overflow. *)
Fixpoint computeMBR_loop (fuel : nat) (coords : list Point.t)
    (i endOffset : Z) (m : MBR) : result MBR :=
  if i <=? endOffset then
    match fuel with
    | O => OutOfFuel
    | S fuel =>
        p ← vec_at_int coords i;
        let m := mkMBR (std_min (x_low m) (Point.x p))
                       (std_min (y_low m) (Point.y p))
                       (std_max (x_high m) (Point.x p))
                       (std_max (y_high m) (Point.y p)) in
        if i =? INT_MAX then Undefined
        else computeMBR_loop fuel coords (i + 1) endOffset m
    end
  else Ok m.

(** The body of the outer loop: the entry of one record, with the default
    (empty) [z_value]. The loop runs [endOffset - startOffset] times. *)
Definition computeMBR (coords : list Point.t) (r : OffsetRecord.t)
  : result Entry.t :=
  let startOffset := OffsetRecord.startOffset r in
  let endOffset := OffsetRecord.endOffset r in
  first ← vec_at_int coords startOffset;
  if startOffset =? INT_MAX then Undefined
  else
    m ← computeMBR_loop (Z.to_nat (endOffset - startOffset)) coords
          (startOffset + 1) endOffset
          (mkMBR (Point.x first) (Point.y first) (Point.x first) (Point.y first));
    Ok (Entry.mk (OffsetRecord.id r) m "").

Fixpoint computeMBRs (coords : list Point.t) (offsets : list OffsetRecord.t)
  : result (list Entry.t) :=
  match offsets with
  | [] => Ok []
  | r :: offsets =>
      entry ← computeMBR coords r;
      entries ← computeMBRs coords offsets;
      Ok (entry :: entries)
  end.

(** [update_z_value_to_entries], [lines] being the lines of the file of
    z-values the external script has written (the file is taken to open):
    line [index] becomes the [z_value] of entry [index], as long as there
    are lines and entries. *)
Fixpoint update_z_value_to_entries (entries : list Entry.t)
    (lines : list string) : list Entry.t :=
  match entries, lines with
  | entry :: entries, line :: lines =>
      Entry.mk (Entry.id entry) (Entry.mbr entry) line
      :: update_z_value_to_entries entries lines
  | _, _ => entries
  end.

(** [std::sort] is a library function: the embedding takes it through its
    contract. For a comparison that is a strict weak ordering, the result
    is a permutation of the input in which no element is followed by one
    that compares less than it. Nothing is promised about the relative
    order of equivalent elements. *)
Record StrictWeakOrder {A} (comp : A -> A -> bool) : Prop := {
  swo_irrefl a : comp a a = false;
  swo_trans a b c : comp a b = true -> comp b c = true -> comp a c = true;
  swo_incomparable a b c :
    comp a b = false -> comp b c = false -> comp a c = false
}.

Class StdSort : Type := {
  std_sort : forall {A}, (A -> A -> bool) -> list A -> list A;
  std_sort_perm A (comp : A -> A -> bool) l : std_sort comp l ≡ₚ l;
  std_sort_sorted A (comp : A -> A -> bool) l :
    StrictWeakOrder comp ->
    StronglySorted (fun a b => comp b a = false) (std_sort comp l)
}.

(** The comparison of [sortEntriesByZValue]: [a.z_value < b.z_value] on
    [std::string], the lexicographic order of the characters. *)
Definition z_less (a b : Entry.t) : bool :=
  String.ltb (Entry.z_value a) (Entry.z_value b).

Definition sortEntriesByZValue `{StdSort} (entries : list Entry.t)
  : list Entry.t :=
  std_sort z_less entries.

Definition build_leaf_nodes (entries : list Entry.t) : list Node :=
  (fun entry => Leaf (Entry.id entry) (Entry.mbr entry)) <$> entries.

Definition MAX_CHILDREN_PER_NODE : nat := 20.
Definition MIN_CHILDREN_PER_NODE : Z := 8.

(** A parent over a group of nodes: its MBR starts as the first child's and
    is widened by every further child. The first child is [nodes[...]],
    undefined behaviour if there is none. *)
Definition group_node (node_id : Z) (children_are_leafs : bool)
    (group : list Node) : result Node :=
  first ← vec_at group 0;
  Ok (InternalNode node_id
        (foldl (fun m c => update_parent_mbr m (mbr c)) (mbr first) (drop 1 group))
        children_are_leafs group).

(** The first loop of [create_upper_level]: [count] full groups. *)
Fixpoint full_groups (count : nat) (nodes : list Node) (node_id : Z)
    (children_are_leafs : bool) : result (list Node * Z) :=
  match count with
  | O => Ok ([], node_id)
  | S count =>
      internal_node ← group_node node_id children_are_leafs
                        (take MAX_CHILDREN_PER_NODE nodes);
      '(upper, node_id) ← full_groups count (drop MAX_CHILDREN_PER_NODE nodes)
                            (node_id + 1) children_are_leafs;
      Ok (internal_node :: upper, node_id)
  end.

(** The borrowing loop [for (int i = 0; i < needed_children; i++)]. The
    children of the last full node are held back to front in [donor_rev],
    so that [children.back()] is the head and [pop_back()] leaves the tail.
    [back()] on an empty vector and [recompute_node_mbr] on a node left
    without children are undefined behaviour. *)
Fixpoint borrow_loop (needed_children i : Z) (donor_rev : list Node)
    (donor_mbr remainder_mbr : MBR) (remainder_children : list Node)
  : result (list Node * MBR * MBR * list Node) :=
  if i <? needed_children then
    match donor_rev with
    | [] => Undefined
    | child :: donor_rev =>
        let remainder_mbr := update_parent_mbr remainder_mbr (mbr child) in
        let remainder_children := child :: remainder_children in
        donor_mbr ← recompute_node_mbr (reverse donor_rev);
        borrow_loop needed_children (i + 1) donor_rev donor_mbr
                    remainder_mbr remainder_children
    end
  else Ok (donor_rev, donor_mbr, remainder_mbr, remainder_children).

(** [create_upper_level(nodes, node_id)]: the nodes of the upper level and
    the new value of the counter [node_id]. [needed_children] is a
    [size_t]: the difference is taken modulo [2^64]. *)
Definition create_upper_level (nodes : list Node) (node_id : Z)
  : result (list Node * Z) :=
  let number_of_full_nodes := (length nodes / MAX_CHILDREN_PER_NODE)%nat in
  let children_are_leafs := node_id =? 0 in
  '(upper_level_nodes, node_id) ←
     full_groups number_of_full_nodes nodes node_id children_are_leafs;
  let remaining_nodes := (length nodes mod MAX_CHILDREN_PER_NODE)%nat in
  if (remaining_nodes =? 0)%nat then Ok (upper_level_nodes, node_id)
  else
    remainder ← group_node node_id children_are_leafs
                  (drop (number_of_full_nodes * MAX_CHILDREN_PER_NODE) nodes);
    let remainder_id := node_id in
    let node_id := node_id + 1 in
    let needed_children :=
      (MIN_CHILDREN_PER_NODE - Z.of_nat remaining_nodes) mod 2 ^ 64 in
    if (0 <? needed_children) && negb (bool_decide (upper_level_nodes = [])) then
      match last upper_level_nodes with
      | Some (InternalNode donor_id donor_mbr donor_flag donor_children) =>
          '(donor_rev, donor_mbr, remainder_mbr, remainder_children) ←
             borrow_loop needed_children 0 (reverse donor_children) donor_mbr
                         (mbr remainder) (children remainder);
          Ok (removelast upper_level_nodes
              ++ [InternalNode donor_id donor_mbr donor_flag (reverse donor_rev);
                  InternalNode remainder_id remainder_mbr
                               children_are_leafs remainder_children],
              node_id)
      | _ => Undefined
      end
    else Ok (upper_level_nodes ++ [remainder], node_id).

(** The loop of [build_tree]: one level per iteration, each written to
    [Rtree.txt] line by line. Every level is shorter than the one below, so
    [fuel], the number of nodes at the start, is never used up. *)
Fixpoint build_levels (fuel : nat) (nodes : list Node) (node_id : Z)
    (outfile : list text) : result (list Node * list text) :=
  if (1 <? length nodes)%nat then
    match fuel with
    | O => OutOfFuel
    | S fuel =>
        '(nodes, node_id) ← create_upper_level nodes node_id;
        build_levels fuel nodes node_id (outfile ++ (toString <$> nodes))
    end
  else Ok (nodes, outfile).

(** [std::dynamic_pointer_cast<InternalNode>]: null on a leaf. *)
Definition as_internal (n : Node) : option Node :=
  if is_internal n then Some n else None.

(** [build_tree(nodes)]: the root (null when the only node is a leaf) and
    the lines of [Rtree.txt]; [nodes.front()] on no node at all is undefined
    behaviour. The output file is taken to open. *)
Definition build_tree (nodes : list Node) : result (option Node * list text) :=
  '(nodes, outfile) ← build_levels (length nodes) nodes 0 [];
  front ← vec_at nodes 0;
  Ok (as_internal front, outfile).

(** ** Reading the tree back ([range_queries.cpp],
       [k_nearest_neighbors.cpp]) *)

(** The loop of [extract_numbers]: [prev] is [line[i-1]] (none at
    [i = 0]), [curr] the number being read, [numbers] those read so far. *)
Fixpoint extract_loop (prev : option ascii) (line : text) (curr : text)
    (numbers : list text) : list text :=
  match line with
  | [] => if bool_decide (curr = []) then numbers else numbers ++ [curr]
  | c :: line =>
      if isdigit c
         || (bool_decide (c = "-"%char)
             && match prev with None => true | Some p => negb (isdigit p) end)
         || (bool_decide (c = "."%char)
             && match last curr with Some b => isdigit b | None => false end)
      then extract_loop (Some c) line (curr ++ [c]) numbers
      else extract_loop (Some c) line []
             (if bool_decide (curr = []) then numbers else numbers ++ [curr])
  end.

Definition extract_numbers (line : text) : list text :=
  extract_loop None line [] [].

(** The two query programs carry their own copy of [build_tree_from_file];
    the copies differ only in the order in which the four coordinates of a
    child are converted. *)
Inductive program : Type := RangeQueries | KNearestNeighbors.

(** The coordinates [numbers[i+1] .. numbers[i+4]] of one child; [coords]
    is [numbers] from index [i+1] on. *)
Definition read_mbr (prog : program) (coords : list text) : result MBR :=
  let number k := (s ← vec_at coords k; stod s) in
  match prog with
  | RangeQueries =>
      x_low ← number 0%nat; x_high ← number 1%nat;
      y_low ← number 2%nat; y_high ← number 3%nat;
      Ok (mkMBR x_low y_low x_high y_high)
  | KNearestNeighbors =>
      x_low ← number 0%nat; y_low ← number 2%nat;
      x_high ← number 1%nat; y_high ← number 3%nat;
      Ok (mkMBR x_low y_low x_high y_high)
  end.

(** A child of a node whose children are leaves is a fresh leaf; otherwise
    it is [id_to_node.find(child_id)] dereferenced: undefined behaviour
    when the id is not in the map, for the iterator is not compared with
    [end()]. *)
Definition resolve_child (is_leaf : bool) (id_to_node : gmap Z Node)
    (child_id : Z) (mbr : MBR) : result Node :=
  if is_leaf then Ok (Leaf child_id mbr)
  else match id_to_node !! child_id with
       | Some n => Ok n
       | None => Undefined
       end.

(** The loop [for (int i = 2; i < numbers.size(); i += 5)]: [numbers] is
    what remains from index [i] on. *)
Fixpoint read_children (prog : program) (is_leaf : bool)
    (id_to_node : gmap Z Node) (numbers : list text) : result (list Node) :=
  match numbers with
  | [] => Ok []
  | s :: coords =>
      child_id ← stoi s;
      mbr ← read_mbr prog coords;
      child ← resolve_child is_leaf id_to_node child_id mbr;
      match coords with
      | _ :: _ :: _ :: _ :: numbers =>
          children ← read_children prog is_leaf id_to_node numbers;
          Ok (child :: children)
      | _ => Undefined
      end
  end.

(** One line of the file: the node it describes. *)
Definition read_node (prog : program) (id_to_node : gmap Z Node)
    (line : text) : result Node :=
  let numbers := extract_numbers line in
  flag ← vec_at numbers 0;
  let is_leaf := bool_decide (flag = chars "0") in
  s ← vec_at numbers 1;
  node_id ← stoi s;
  children ← read_children prog is_leaf id_to_node (drop 2 numbers);
  mbr ← recompute_node_mbr children;
  Ok (InternalNode node_id mbr is_leaf children).

(** The [while (std::getline(infile, line))] loop. *)
Fixpoint read_lines (prog : program) (lines : list text)
    (id_to_node : gmap Z Node) (root : option Node) : result (option Node) :=
  match lines with
  | [] => Ok root
  | line :: lines =>
      internal_node ← read_node prog id_to_node line;
      read_lines prog lines
                 (<[node_id internal_node := internal_node]> id_to_node)
                 (Some internal_node)
  end.

(** [build_tree_from_file]: [file] is the lines of the file, [None] when it
    cannot be opened. An empty file gives a null root. *)
Definition build_tree_from_file (prog : program) (file : option (list text))
  : result (option Node) :=
  match file with
  | None => Exit "Failed to open file"
  | Some lines => read_lines prog lines ∅ None
  end.
(** * Specification vocabulary *)

(** ** Induction on nodes *)

Section NodeInd.
Variable P : Node -> Prop.
Hypothesis Hleaf : forall i m, P (Leaf i m).
Hypothesis Hinternal : forall i m b cs,
  Forall P cs -> P (InternalNode i m b cs).

Fixpoint Node_forall_ind (n : Node) : P n :=
  match n with
  | Leaf i m => Hleaf i m
  | InternalNode i m b cs =>
      Hinternal i m b cs
        ((fix go (l : list Node) : Forall P l :=
            match l with
            | [] => Forall_nil_2 P
            | c :: l' => Forall_cons_2 P c l' (Node_forall_ind c) (go l')
            end) cs)
  end.
End NodeInd.

(** The leaves below a node, left to right. *)
Fixpoint leaves (n : Node) : list Node :=
  match n with
  | Leaf _ _ => [n]
  | InternalNode _ _ _ cs => cs ≫= leaves
  end.

Definition leaves_below (n : Node) : list Node := children n ≫= leaves.

(** [mbr_contains p c]: the rectangle [p] covers the rectangle [c]. *)
Definition mbr_contains (p c : MBR) : Prop :=
  (x_low p <= x_low c)%Q /\ (x_high c <= x_high p)%Q /\
  (y_low p <= y_low c)%Q /\ (y_high c <= y_high p)%Q.

(** The closed-interval rule of the specification: the rectangles overlap
    on both axes, touching edges included. *)
Definition intersects_closed (a b : MBR) : Prop :=
  (x_low b <= x_high a)%Q /\ (x_low a <= x_high b)%Q /\
  (y_low b <= y_high a)%Q /\ (y_low a <= y_high b)%Q.

#[global] Instance Qle_dec : RelDecision Qle := fun x y =>
  match Qlt_le_dec y x with
  | left H => right (Qlt_not_le _ _ H)
  | right H => left H
  end.

#[global] Instance intersects_closed_dec a b : Decision (intersects_closed a b).
Proof. unfold intersects_closed. apply _. Defined.

(** Every internal node covers its children. *)
Inductive covered : Node -> Prop :=
| covered_leaf i m : covered (Leaf i m)
| covered_internal i m b cs :
    Forall (fun c => mbr_contains m (mbr c)) cs ->
    Forall covered cs ->
    covered (InternalNode i m b cs).

(** A leaf is hit by the query when its rectangle intersects it. *)
Definition hits (q : MBR) (l : Node) : Prop := mbr_intersects (mbr l) q = true.

#[global] Instance hits_dec q l : Decision (hits q l).
Proof. unfold hits. apply _. Defined.


(** ** Distances *)

(** A rectangle is well formed when its low corner is below its high
    corner (the invariant of the data model). *)
Definition mbr_valid (m : MBR) : Prop :=
  (x_low m <= x_high m)%Q /\ (y_low m <= y_high m)%Q.

(** The distance from [q] to the interval [[lo, hi]] along one axis, as
    [min_dist] computes it. *)
Definition axis_gap (lo hi q : double) : double :=
  if dlt q lo then (lo - q)%Q else if dlt hi q then (q - hi)%Q else 0%Q.

(** The order of the reals on square roots. *)
Definition root_le (a b : root) : Prop := (radicand a <= radicand b)%Q.

(** The real number a [root] stands for. *)
Definition root_R (a : root) : R := sqrt (Q2R (radicand a)).




(** ** Best-first search *)

(** The leaves still to be reported: those below the queued nodes. *)
Definition pending (es : list PQEntry) : list Node :=
  es ≫= (fun e => leaves (node e)).

(** The number of nodes still to be dequeued. *)
Definition weight (es : list PQEntry) : nat :=
  sum_list_with (fun e => tree_size (node e)) es.

(** [closer x y a b]: the rectangle of [a] is at most as far from the
    query point [(x, y)] as that of [b]. *)
Definition closer (x y : Q) (a b : Node) : Prop :=
  root_le (min_dist (mbr a) x y) (min_dist (mbr b) x y).

(** [out] is in order of distance and nothing in [rest] is closer than
    anything in [out]. *)
Definition nearest_first (x y : Q) (out rest : list Node) : Prop :=
  StronglySorted (closer x y) out /\
  forall l r, l ∈ out -> r ∈ rest -> closer x y l r.

(** ** Invariants of the tree *)

(** [m] covers the rectangle of every node of [cs]. *)
Definition covers_all (m : MBR) (cs : list Node) : Prop :=
  forall c, c ∈ cs -> mbr_contains m (mbr c).

(** [m] is the union of the rectangles of [cs]: it covers them all, and
    every rectangle that covers them all covers [m] (it is the tightest). *)
Definition is_union (m : MBR) (cs : list Node) : Prop :=
  covers_all m cs /\ forall m', covers_all m' cs -> mbr_contains m' m.

(** Every internal node's MBR is the union of its children's MBRs. *)
Inductive tight : Node -> Prop :=
| tight_leaf i m : tight (Leaf i m)
| tight_internal i m b cs :
    is_union m cs -> Forall tight cs -> tight (InternalNode i m b cs).

(** Every internal node has between [MIN_CHILDREN_PER_NODE] and
    [MAX_CHILDREN_PER_NODE] children. *)
Inductive fanout_ok : Node -> Prop :=
| fanout_leaf i m : fanout_ok (Leaf i m)
| fanout_internal i m b cs :
    (8 <= length cs <= 20)%nat ->
    Forall fanout_ok cs -> fanout_ok (InternalNode i m b cs).

(** The fanout invariant of a tree: the root is an internal node with at
    least one child, and every internal node below it has between 8 and 20
    children. *)
Definition fanout_invariant (root : Node) : Prop :=
  is_internal root = true /\
  (1 <= length (children root))%nat /\
  Forall fanout_ok (children root).

(** [u] is an internal node with the flag [flag] whose MBR is the union of
    its children's MBRs. *)
Definition built (flag : bool) (u : Node) : Prop :=
  exists i m cs, u = InternalNode i m flag cs /\ is_union m cs.

(** The trees the programs produce: the root returned by the bulk loader
    for a list of entries, and the root returned by either reader for a
    file. *)
Inductive produced : Node -> Prop :=
| produced_by_loader entries root lines :
    build_tree (build_leaf_nodes entries) = Ok (Some root, lines) ->
    produced root
| produced_by_reader prog file root :
    build_tree_from_file prog file = Ok (Some root) ->
    produced root.

(** The numbers of a line after the flag and the node id, read as the
    records of its children: an id and four coordinates each. *)
Inductive child_records (prog : program)
  : list text -> list (Z * MBR) -> Prop :=
| child_records_nil : child_records prog [] []
| child_records_cons s a b c d numbers child_id m records :
    stoi s = Ok child_id ->
    read_mbr prog (a :: b :: c :: d :: numbers) = Ok m ->
    child_records prog numbers records ->
    child_records prog (s :: a :: b :: c :: d :: numbers)
                  ((child_id, m) :: records).

(** A fatal error: the program prints a message and exits. *)
Definition fatal {A} (r : result A) : Prop := exists msg, r = Exit msg.

(** ** Sample data *)

(** The three entries of the specification's scenarios, under one root. *)
Definition three_leaves : Node :=
  InternalNode 0 (mkMBR 0 0 6 6) true
    [Leaf 1 (mkMBR 0 0 1 1); Leaf 2 (mkMBR 5 5 6 6); Leaf 3 (mkMBR 2 2 3 3)].

(** Two leaves that carry the same id. *)
Definition twin_leaves : Node :=
  InternalNode 0 (mkMBR 0 0 3 3) true
    [Leaf 7 (mkMBR 0 0 1 1); Leaf 7 (mkMBR 2 2 3 3)].

(** [n] entries along the diagonal, with ids and keys in input order. *)
Definition diagonal_entry (i : nat) : Entry.t :=
  let c := inject_Z (Z.of_nat i) in
  Entry.mk (Z.of_nat i) (mkMBR c c (c + 1) (c + 1))
           (String (ascii_of_nat (65 + i)) EmptyString).

Definition diagonal_entries (n : nat) : list Entry.t :=
  diagonal_entry <$> seq 0 n.

(** What the loader builds over 25 entries: a root over a node of 17
    leaves and a node of 8. *)
Definition loaded_25 : option Node * list text :=
  match build_tree (build_leaf_nodes (diagonal_entries 25)) with
  | Ok r => r
  | _ => (None, [])
  end.

Definition root_25 : Node :=
  match loaded_25.1 with Some r => r | None => Leaf 0 (mkMBR 0 0 0 0) end.

(** A line whose flag marks non-leaf children and that refers to node 7,
    in a file that describes no node 7. *)
Definition dangling_file : option (list text) :=
  Some [chars "[1, 0, [[7, [0.000000, 1.000000, 0.000000, 1.000000]]]]"].

(** ** Round trip through the text *)







(** The numbers [extract_numbers] finds in the line of a node. *)
Definition child_numbers (c : Node) : list text :=
  [show_int (node_id c); show_fixed6 (x_low (mbr c)); show_fixed6 (x_high (mbr c));
   show_fixed6 (y_low (mbr c)); show_fixed6 (y_high (mbr c))].

Definition is_sep (c : ascii) : bool :=
  negb (isdigit c) && negb (bool_decide (c = "-"%char))
  && negb (bool_decide (c = "."%char)).

(** A number as [operator<<] writes it: an optional sign, digits, and
    possibly a point followed by digits. *)
Definition number_text (t : text) : Prop :=
  exists (neg : bool) (ds fs : text),
    t = (if neg then ["-"%char] else []) ++ ds ++ fs
    /\ ds <> [] /\ Forall (fun c => isdigit c = true) ds
    /\ (fs = [] \/ exists fs', fs = "."%char :: fs'
                              /\ Forall (fun c => isdigit c = true) fs').

(** The flag of a line. *)
Definition flag_text (children_are_leafs : bool) : text :=
  if children_are_leafs then chars "0" else chars "1".

(** An id that fits an [int]. *)
Definition in_int (z : Z) : Prop := - 2 ^ 31 <= z < 2 ^ 31.






#[global] Instance in_int_dec z : Decision (in_int z).
Proof. unfold in_int. apply _. Defined.

(** ** Levels of the loader *)

(** Every level but a last, single node respects the fanout. *)
Definition level_ok (nodes : list Node) : Prop :=
  Forall fanout_ok nodes \/ exists root, nodes = [root] /\ fanout_invariant root.

(** ** Order of the sorted entries *)



(** [b] does not come before [a] in the order of [comp]. *)
Definition not_after {A} (comp : A -> A -> bool) : relation A :=
  fun a b => comp b a = false.

#[global] Instance not_after_dec {A} (comp : A -> A -> bool) :
  RelDecision (not_after comp).
Proof. intros a b. unfold not_after. apply _. Defined.


(** ** The file the loader writes *)

(** The flag of an internal node. *)
Definition leaf_flag (n : Node) : bool :=
  match n with
  | Leaf _ _ => false
  | InternalNode _ _ children_are_leafs _ => children_are_leafs
  end.

(** The nodes [written], one per line, come in the order a reader needs:
    the node of line [i] is an internal node with the id [i]; under the
    flag for leaves its children are leaves, otherwise each of them is the
    node of an earlier line. *)
Definition bottom_up (written : list Node) : Prop :=
  forall (i : nat) (u : Node),
    written !! i = Some u ->
    is_internal u = true
    /\ node_id u = Z.of_nat i
    /\ Forall (fun c => if leaf_flag u then is_internal c = false
                        else exists j, (j < i)%nat /\ written !! j = Some c)
              (children u).

(** ** The polygons of the loader *)

(** The rectangle that is the point [p]. *)
Definition point_mbr (p : Point.t) : MBR :=
  mkMBR (Point.x p) (Point.y p) (Point.x p) (Point.y p).

(** [j] is the index of a point [computeMBRs] reads for the record [r]:
    the first one, and those after it up to [endOffset]. *)
Definition in_polygon (r : OffsetRecord.t) (j : Z) : Prop :=
  j = OffsetRecord.startOffset r
  \/ OffsetRecord.startOffset r < j <= OffsetRecord.endOffset r.

(** [m] is the bounding box of the polygon of [r]: it covers the points of
    the polygon, and every rectangle that covers them covers [m]. *)
Definition bounding_box (coords : list Point.t) (r : OffsetRecord.t)
    (m : MBR) : Prop :=
  (forall j p, in_polygon r j -> coords !! Z.to_nat j = Some p ->
               mbr_contains m (point_mbr p))
  /\ (forall b,
        (forall j p, in_polygon r j -> coords !! Z.to_nat j = Some p ->
                     mbr_contains b (point_mbr p)) ->
        mbr_contains b m).

(** The offsets of [r] lie within [len] coordinates. *)
Definition offsets_in_range (len : Z) (r : OffsetRecord.t) : Prop :=
  0 <= OffsetRecord.startOffset r < len /\ OffsetRecord.endOffset r < len.

(** The number of nodes [create_upper_level] builds over [n] nodes. *)
Definition upper_size (n : nat) : nat :=
  (n / 20 + (if n mod 20 =? 0 then 0 else 1))%nat.

(** Every level over [n] nodes, up to the root, is one [create_upper_level]
    can build: it has fewer than 20 nodes below it, or a remainder of at
    most 8 modulo 20. [fuel] bounds the number of levels. *)
Fixpoint sizes_ok (fuel n : nat) : bool :=
  if (1 <? n)%nat then
    match fuel with
    | O => false
    | S fuel =>
        ((n <? 20)%nat || (n mod 20 <=? 8)%nat) && sizes_ok fuel (upper_size n)
    end
  else true.

(** ** The numbers of a line *)

(** The characters [extract_numbers] lets into a number: a digit, a [-]
    that does not follow a digit, a [.] that follows a digit. [prev] is the
    character before, [None] at the start. *)
Fixpoint token_from (prev : option ascii) (t : text) : bool :=
  match t with
  | [] => true
  | c :: t' =>
      (isdigit c
       || (bool_decide (c = "-"%char)
           && match prev with Some p => negb (isdigit p) | None => true end)
       || (bool_decide (c = "."%char)
           && match prev with Some p => isdigit p | None => false end))
      && token_from (Some c) t'
  end.

Definition token_shape (t : text) : Prop :=
  t <> [] /\ token_from None t = true.

(** ** The lines of the offsets file *)

(** The line has three fields: two commas, and something after the
    second. *)
Definition three_fields (line a b c : text) : Prop :=
  line = a ++ ","%char :: b ++ ","%char :: c
  /\ (","%char ∉ a) /\ (","%char ∉ b) /\ c <> [].

(** A line for the record [r]. *)
Definition offset_line (r : OffsetRecord.t) : text :=
  show_int (OffsetRecord.id r) ++ ","%char
  :: show_int (OffsetRecord.startOffset r) ++ ","%char
  :: show_int (OffsetRecord.endOffset r).

Definition offsets_in_int (r : OffsetRecord.t) : Prop :=
  in_int (OffsetRecord.id r) /\ in_int (OffsetRecord.startOffset r)
  /\ in_int (OffsetRecord.endOffset r).

(** ** The shape of a loaded tree *)

(** [level h n]: every leaf below [n] is [h] steps down, and the flag of
    every internal node tells whether its children are leaves. *)
Inductive level : nat -> Node -> Prop :=
| level_leaf i m : level 0 (Leaf i m)
| level_internal h i m cs :
    Forall (level h) cs ->
    level (S h) (InternalNode i m (h =? 0)%nat cs).

(** ** Further sample data *)

(** Two leaves at the same distance from the point [(3/2, 0)]. *)
Definition tied_leaves : Node :=
  InternalNode 0 (mkMBR 0 0 3 1) true
    [Leaf 1 (mkMBR 0 0 1 1); Leaf 2 (mkMBR 2 0 3 1)].

(** A triangle and a segment. *)
Definition two_polygons : list Point.t :=
  [Point.mk 0 0; Point.mk 2 1; Point.mk 1 3; Point.mk 5 5; Point.mk 4 6].

Definition two_offsets : list OffsetRecord.t :=
  [OffsetRecord.mk 7 0 2; OffsetRecord.mk 8 3 4].

Definition two_entries : list Entry.t :=
  [Entry.mk 7 (mkMBR 0 0 2 3) ""; Entry.mk 8 (mkMBR 4 5 5 6) ""].

(** * Properties *)

(** ** Runs *)

Lemma bind_Ok {A B} (a : A) (k : A -> result B) : (Ok a ≫= k) = k a.
Proof. reflexivity. Qed.

Lemma bind_Ok_inv {A B} (m : result A) (k : A -> result B) (b : B) :
  (m ≫= k) = Ok b -> exists a, m = Ok a /\ k a = Ok b.
Proof. destruct m; try discriminate. eauto. Qed.

(** ** The order on coordinates *)

Lemma dlt_true a b : dlt a b = true <-> (a < b)%Q.
Proof.
  unfold dlt. rewrite Qlt_alt. destruct (a ?= b)%Q; split; congruence.
Qed.

Lemma dlt_false a b : dlt a b = false <-> (b <= a)%Q.
Proof.
  rewrite <- not_true_iff_false, dlt_true. split.
  - apply Qnot_lt_le.
  - apply Qle_not_lt.
Qed.

Lemma std_min_l a b : (std_min a b <= a)%Q.
Proof.
  unfold std_min. destruct (dlt b a) eqn:E.
  - apply dlt_true in E. now apply Qlt_le_weak.
  - apply Qle_refl.
Qed.

Lemma std_min_r a b : (std_min a b <= b)%Q.
Proof.
  unfold std_min. destruct (dlt b a) eqn:E.
  - apply Qle_refl.
  - now apply dlt_false in E.
Qed.

Lemma std_max_l a b : (a <= std_max a b)%Q.
Proof.
  unfold std_max. destruct (dlt a b) eqn:E.
  - apply dlt_true in E. now apply Qlt_le_weak.
  - apply Qle_refl.
Qed.

Lemma std_max_r a b : (b <= std_max a b)%Q.
Proof.
  unfold std_max. destruct (dlt a b) eqn:E.
  - apply Qle_refl.
  - now apply dlt_false in E.
Qed.

Lemma std_min_glb a b c : (c <= a)%Q -> (c <= b)%Q -> (c <= std_min a b)%Q.
Proof. unfold std_min. now destruct (dlt b a). Qed.

Lemma std_max_lub a b c : (a <= c)%Q -> (b <= c)%Q -> (std_max a b <= c)%Q.
Proof. unfold std_max. now destruct (dlt a b). Qed.

(** ** Containment and intersection of rectangles *)

Lemma mbr_contains_refl m : mbr_contains m m.
Proof. repeat split; apply Qle_refl. Qed.

Lemma mbr_contains_trans a b c :
  mbr_contains a b -> mbr_contains b c -> mbr_contains a c.
Proof.
  intros (?&?&?&?) (?&?&?&?); repeat split; eapply Qle_trans; eauto.
Qed.

Lemma mbr_intersects_closed a b :
  mbr_intersects a b = true <-> intersects_closed a b.
Proof.
  unfold mbr_intersects, intersects_closed.
  destruct (dlt (x_high a) (x_low b)) eqn:E1;
  destruct (dlt (x_high b) (x_low a)) eqn:E2;
  destruct (dlt (y_high a) (y_low b)) eqn:E3;
  destruct (dlt (y_high b) (y_low a)) eqn:E4; simpl;
  rewrite ?dlt_true, ?dlt_false in *;
  (split;
   [ intros; try discriminate; repeat split; assumption
   | intros (?&?&?&?); try reflexivity; exfalso;
     eapply Qlt_not_le; eassumption ]).
Qed.

Lemma intersects_closed_mono p c q :
  mbr_contains p c -> intersects_closed c q -> intersects_closed p q.
Proof.
  intros (?&?&?&?) (?&?&?&?); repeat split; eapply Qle_trans; eauto.
Qed.

Lemma covered_leaves n l :
  covered n -> l ∈ leaves n -> mbr_contains (mbr n) (mbr l).
Proof.
  induction n as [i m | i m b cs IH] using Node_forall_ind;
    simpl; intros Hc Hl.
  - apply list_elem_of_singleton in Hl as ->. apply mbr_contains_refl.
  - inversion Hc as [| ? ? ? ? Hm Hcs]; subst.
    apply list_elem_of_bind in Hl as (c & Hl & Hc').
    rewrite Forall_forall in IH, Hm, Hcs.
    eapply mbr_contains_trans; [apply Hm | apply IH]; eauto.
Qed.

(** ** Range query (C2) *)

Lemma leaves_internal n : is_internal n = true -> leaves n = leaves_below n.
Proof. now destruct n. Qed.

Lemma leaves_leaf n : is_internal n = false -> leaves n = [n].
Proof. now destruct n. Qed.

Lemma filter_none {A} (P : A -> Prop) `{!forall x, Decision (P x)} (l : list A) :
  (forall x, x ∈ l -> ~ P x) -> filter P l = [].
Proof.
  induction l as [| x l IH]; intros Hl; [reflexivity |].
  rewrite filter_cons_False by (apply Hl; left).
  apply IH. intros y Hy. apply Hl. now right.
Qed.

Lemma pruned_subtree_has_no_hit q n :
  covered n -> mbr_intersects (mbr n) q = false -> filter (hits q) (leaves n) = [].
Proof.
  intros Hc Hn. apply filter_none. intros l Hl Hhit.
  apply mbr_intersects_closed in Hhit.
  apply (intersects_closed_mono (mbr n)) in Hhit;
    [| now apply covered_leaves].
  apply mbr_intersects_closed in Hhit. congruence.
Qed.

Lemma range_query_node_spec q n :
  covered n ->
  forall results,
    range_query_node n q results
    = results ++ (node_id <$> filter (hits q) (leaves_below n)).
Proof.
  induction n as [i m | i m b cs IH] using Node_forall_ind; intros Hc results.
  - simpl. now rewrite app_nil_r.
  - inversion Hc as [| ? ? ? ? _ Hcs]; subst. clear Hc.
    unfold leaves_below. simpl. revert results.
    induction cs as [| c cs IHcs]; intros results.
    + simpl. now rewrite app_nil_r.
    + apply Forall_cons in IH as [IHc IH]. apply Forall_cons in Hcs as [Hc Hcs].
      simpl. rewrite IHcs by assumption. rewrite filter_app, fmap_app.
      rewrite (assoc_L (++)). f_equal.
      destruct (mbr_intersects (mbr c) q) eqn:Hq; simpl.
      * destruct (is_internal c) eqn:Hi.
        -- rewrite IHc by assumption. now rewrite leaves_internal.
        -- rewrite leaves_leaf by assumption.
           rewrite filter_cons_True by exact Hq. reflexivity.
      * rewrite pruned_subtree_has_no_hit by assumption.
        simpl. now rewrite app_nil_r.
Qed.

(** C2. On a tree in which every internal node's MBR covers its children's
    MBRs, [range_query] started with no results returns the ids of the
    leaves whose MBR meets the query rectangle under the closed-interval
    rule, one id for each such leaf (in left-to-right order), so that
    pairwise distinct leaf ids are returned without repetition; a null root
    yields no result. *)
Theorem range_query_exact (root : Node) (q : MBR) :
  covered root ->
  range_query (Some root) q []
    = node_id <$> filter (fun l => intersects_closed (mbr l) q)
                         (leaves_below root)
  /\ (NoDup (node_id <$> leaves_below root) ->
      NoDup (range_query (Some root) q []))
  /\ range_query None q [] = [].
Proof.
  intros Hc. simpl. rewrite range_query_node_spec by assumption. simpl.
  assert (Heq : filter (hits q) (leaves_below root)
                = filter (fun l => intersects_closed (mbr l) q)
                         (leaves_below root)).
  { apply list_filter_iff. intros l. apply mbr_intersects_closed. }
  rewrite Heq. split; [reflexivity | split; [| reflexivity]].
  intros Hnd. eapply sublist_NoDup; [exact Hnd |].
  apply fmap_sublist, sublist_filter.
Qed.

(** ** Distance to a rectangle *)

Lemma min_dist_axis m x y :
  min_dist m x y
  = Sqrt (axis_gap (x_low m) (x_high m) x * axis_gap (x_low m) (x_high m) x
          + axis_gap (y_low m) (y_high m) y * axis_gap (y_low m) (y_high m) y).
Proof. reflexivity. Qed.

Lemma axis_gap_nonneg lo hi q : (0 <= axis_gap lo hi q)%Q.
Proof.
  unfold axis_gap.
  destruct (dlt q lo) eqn:E1; [apply dlt_true in E1; lra |].
  destruct (dlt hi q) eqn:E2; [apply dlt_true in E2; lra | lra].
Qed.

Lemma axis_gap_mono lo hi lo' hi' q :
  (lo <= lo')%Q -> (hi' <= hi)%Q -> (lo' <= hi')%Q ->
  (axis_gap lo hi q <= axis_gap lo' hi' q)%Q.
Proof.
  intros H1 H2 H3. unfold axis_gap.
  destruct (dlt q lo) eqn:E1; destruct (dlt q lo') eqn:E2;
  destruct (dlt hi q) eqn:E3; destruct (dlt hi' q) eqn:E4;
  rewrite ?dlt_true, ?dlt_false in *; lra.
Qed.

Lemma square_mono (a b : Q) : (0 <= a)%Q -> (a <= b)%Q -> (a * a <= b * b)%Q.
Proof. intros. nra. Qed.

Lemma min_dist_mono p c x y :
  mbr_contains p c -> mbr_valid c -> root_le (min_dist p x y) (min_dist c x y).
Proof.
  intros (?&?&?&?) [? ?]. unfold root_le. rewrite !min_dist_axis. simpl.
  apply Qplus_le_compat; apply square_mono;
    auto using axis_gap_nonneg, axis_gap_mono.
Qed.







Lemma root_gt_R a b :
  (0 <= radicand a)%Q -> (0 <= radicand b)%Q ->
  root_gt a b = true <-> (root_R a > root_R b)%R.
Proof.
  intros Ha Hb. unfold root_gt, root_R. rewrite dlt_true.
  apply Qle_Rle in Ha, Hb. rewrite RMicromega.Q2R_0 in Ha, Hb. split.
  - intros H. apply Qlt_Rlt in H. now apply sqrt_lt_1.
  - intros H. apply Rlt_Qlt. now apply sqrt_lt_0.
Qed.

Lemma min_dist_radicand_nonneg m x y : (0 <= radicand (min_dist m x y))%Q.
Proof.
  rewrite min_dist_axis. simpl.
  pose proof (axis_gap_nonneg (x_low m) (x_high m) x).
  pose proof (axis_gap_nonneg (y_low m) (y_high m) y). nra.
Qed.


(** ** The list priority queue meets the contract *)

Lemma PQEntry_gt_false a b :
  PQEntry_gt a b = false <-> root_le (distance a) (distance b).
Proof. unfold PQEntry_gt, root_gt, root_le. apply dlt_false. Qed.

Lemma PQEntry_gt_true a b :
  PQEntry_gt a b = true -> root_le (distance b) (distance a).
Proof.
  unfold PQEntry_gt, root_gt, root_le. rewrite dlt_true. apply Qlt_le_weak.
Qed.

Lemma root_le_trans a b c : root_le a b -> root_le b c -> root_le a c.
Proof. unfold root_le. apply Qle_trans. Qed.

Lemma list_pop_None l : list_pop l = None <-> l = [].
Proof.
  destruct l as [| e l]; simpl; [tauto |].
  destruct (list_pop l) as [[m rest] |]; [destruct (PQEntry_gt e m) |];
    split; discriminate.
Qed.

Lemma list_pop_Some l e rest :
  list_pop l = Some (e, rest) ->
  l ≡ₚ e :: rest /\ Forall (fun e' => PQEntry_gt e e' = false) rest.
Proof.
  revert e rest. induction l as [| e0 l IH]; intros e rest; simpl.
  - discriminate.
  - destruct (list_pop l) as [[m r] |] eqn:Hl.
    + destruct (IH m r eq_refl) as [Hperm Hmin].
      destruct (PQEntry_gt e0 m) eqn:Hgt; intros [= <- <-].
      * split; [rewrite Hperm; apply Permutation_swap |].
        constructor; [| assumption].
        apply PQEntry_gt_false. now apply PQEntry_gt_true.
      * split; [reflexivity |]. rewrite Hperm. constructor; [assumption |].
        apply PQEntry_gt_false in Hgt.
        eapply Forall_impl; [exact Hmin |]. intros e' He'. simpl in He'.
        apply PQEntry_gt_false. apply PQEntry_gt_false in He'.
        eapply root_le_trans; eassumption.
    + apply list_pop_None in Hl as ->. intros [= <- <-]. split; [reflexivity | constructor].
Qed.

#[global, refine] Instance list_pq : PriorityQueue := {|
  pq := list PQEntry;
  pq_new := [];
  pq_push e q := e :: q;
  pq_pop := list_pop;
  pq_contents q := q
|}.
Proof.
  - reflexivity.
  - reflexivity.
  - apply list_pop_None.
  - apply list_pop_Some.
Defined.

(** ** Best-first search (C1, C10) *)

Lemma covered_children i m b cs :
  covered (InternalNode i m b cs) -> Forall covered cs.
Proof. now inversion 1. Qed.

Lemma closer_below x y n l :
  covered n -> mbr_valid (mbr l) -> l ∈ leaves n -> closer x y n l.
Proof.
  intros Hc Hv Hl. apply min_dist_mono; [now apply covered_leaves | assumption].
Qed.

Section KNearestFacts.
Context {PQ : PriorityQueue}.
Variables (x y : Q) (k : Z).

Let entry_of (c : Node) : PQEntry := mkPQEntry c (min_dist (mbr c) x y).

Lemma push_children_contents cs q :
  pq_contents (foldl (fun q child => pq_push (entry_of child) q) q cs)
  ≡ₚ (entry_of <$> cs) ++ pq_contents q.
Proof.
  revert q. induction cs as [| c cs IH]; intros q; simpl; [reflexivity |].
  rewrite IH, pq_push_contents. now rewrite Permutation_middle.
Qed.

Lemma pending_children cs : pending (entry_of <$> cs) = cs ≫= leaves.
Proof.
  unfold pending. induction cs as [| c cs IH]; simpl; [reflexivity |].
  f_equal. exact IH.
Qed.

Lemma weight_children cs : weight (entry_of <$> cs) = sum_list_with tree_size cs.
Proof.
  unfold weight. induction cs as [| c cs IH]; simpl; [reflexivity |].
  f_equal. exact IH.
Qed.

Lemma kn_loop_correct (L : list Node) (fuel : nat) :
  forall (q : pq) (out : list Node),
    (weight (pq_contents q) < fuel)%nat ->
    out ++ pending (pq_contents q) ≡ₚ L ->
    Forall (fun e => distance e = min_dist (mbr (node e)) x y) (pq_contents q) ->
    Z.of_nat (length out) <= size_t_of_int k ->
    exists out' rest,
      kn_loop fuel x y k q (node_id <$> out) = Ok (node_id <$> out')
      /\ out' ++ rest ≡ₚ L
      /\ Z.of_nat (length out') = Z.min (size_t_of_int k) (Z.of_nat (length L))
      /\ (Forall (fun e => covered (node e)) (pq_contents q) ->
          Forall (fun l => mbr_valid (mbr l)) L ->
          nearest_first x y out (pending (pq_contents q)) ->
          nearest_first x y out' rest).
Proof.
  induction fuel as [| fuel IH]; intros q out Hw Hperm Hdist Hlen; [lia |].
  simpl. destruct (pq_pop q) as [[e q'] |] eqn:Hpop.
  - destruct (pq_pop_top _ _ _ Hpop) as [Hq Hmin].
    assert (HpermL : out ++ leaves (node e) ++ pending (pq_contents q') ≡ₚ L).
    { rewrite <- Hperm. unfold pending. now rewrite Hq. }
    assert (Hwq : weight (pq_contents q)
                  = (tree_size (node e) + weight (pq_contents q'))%nat).
    { unfold weight. now rewrite Hq. }
    rewrite Hq in Hdist. apply Forall_cons in Hdist as [He Hdist].
    rewrite length_fmap.
    destruct (Z.of_nat (length out) <? size_t_of_int k) eqn:Hk.
    + apply Z.ltb_lt in Hk.
      destruct (node e) as [i m | i m b cs] eqn:Hnode.
      * (* a leaf is reported *)
        destruct (IH q' (out ++ [Leaf i m])) as (out' & rest & Hrun & Hp & Hl & Hord).
        { simpl in Hwq. lia. }
        { rewrite <- HpermL. simpl. now rewrite <- (assoc_L (++)). }
        { assumption. }
        { rewrite length_app. simpl. lia. }
        exists out', rest. rewrite fmap_app in Hrun. simpl in Hrun.
        split; [exact Hrun |]. split; [exact Hp |]. split; [exact Hl |].
        intros Hcov Hvalid [Hsorted Hbound]. apply Hord; [| assumption |].
        { rewrite Hq in Hcov. now apply Forall_cons in Hcov as [_ ?]. }
        assert (Hleaf : Leaf i m ∈ pending (pq_contents q)).
        { unfold pending. rewrite Hq. simpl. rewrite Hnode. simpl. left. }
        split.
        -- apply StronglySorted_app_2; [| assumption | repeat constructor].
           intros l r Hl' Hr. apply list_elem_of_singleton in Hr as ->.
           now apply Hbound.
        -- intros l r Hl' Hr.
           assert (Hr' : r ∈ pending (pq_contents q)).
           { unfold pending. rewrite Hq. simpl. apply elem_of_app. now right. }
           apply elem_of_app in Hl' as [Hl' | Hl']; [now apply Hbound |].
           apply list_elem_of_singleton in Hl' as ->.
           apply list_elem_of_bind in Hr as (e' & Hr & He').
           rewrite Forall_forall in Hmin, Hdist, Hcov.
           rewrite Forall_forall in Hvalid.
           unfold closer. rewrite <- He.
           eapply root_le_trans.
           { apply PQEntry_gt_false, Hmin, He'. }
           rewrite (Hdist _ He'). apply closer_below; [| | assumption].
           { apply Hcov. rewrite Hq. now right. }
           { apply Hvalid. rewrite <- Hperm. apply elem_of_app. now right. }
      * (* an internal node is expanded *)
        set (q'' := foldl (fun q child => pq_push (entry_of child) q) q' cs).
        assert (Hq'' : pq_contents q'' ≡ₚ (entry_of <$> cs) ++ pq_contents q')
          by apply push_children_contents.
        destruct (IH q'' out) as (out' & rest & Hrun & Hp & Hl & Hord).
        { unfold weight in *. rewrite Hq'', sum_list_with_app.
          fold (weight (entry_of <$> cs)). rewrite weight_children.
          simpl in Hwq. unfold weight in Hwq. lia. }
        { rewrite <- HpermL. unfold pending at 1. rewrite Hq'', bind_app.
          fold (pending (entry_of <$> cs)). now rewrite pending_children. }
        { rewrite Hq''. apply Forall_app. split; [| assumption].
          apply Forall_fmap, Forall_forall. now intros c _. }
        { assumption. }
        exists out', rest. split; [exact Hrun |]. split; [exact Hp |].
        split; [exact Hl |].
        intros Hcov Hvalid [Hsorted Hbound]. apply Hord; [| assumption |].
        { rewrite Hq in Hcov. apply Forall_cons in Hcov as [Hce Hcov].
          rewrite Hq''. apply Forall_app. split; [| assumption].
          rewrite Hnode in Hce. apply covered_children in Hce.
          apply Forall_fmap. exact Hce. }
        split; [assumption |]. intros l r Hl' Hr. apply Hbound; [assumption |].
        unfold pending in *. rewrite Hq. rewrite Hq'', bind_app in Hr.
        fold (pending (entry_of <$> cs)) in Hr. rewrite pending_children in Hr.
        simpl. now rewrite Hnode.
    + (* k ids collected *)
      apply Z.ltb_ge in Hk.
      exists out, (pending (pq_contents q)).
      split; [reflexivity |]. split; [assumption |]. split; [| tauto].
      assert (length out <= length L)%nat.
      { rewrite <- Hperm, length_app. lia. }
      lia.
  - (* the queue is empty *)
    apply pq_pop_empty in Hpop. rewrite Hpop in *. simpl in Hperm.
    exists out, []. split; [reflexivity |]. split; [assumption |].
    split; [| tauto].
    rewrite app_nil_r in Hperm. rewrite <- Hperm. lia.
Qed.

End KNearestFacts.

(** Every query on a non-null root ends with a list of ids: those of some
    of the leaves, each leaf taken at most once; as many as
    [static_cast<size_t>(k)] allows. *)
Lemma kn_query_run {PQ : PriorityQueue} (root : Node) (x y : Q) (k : Z) :
  exists out rest,
    kn_query (Some root) x y k = Ok (node_id <$> out)
    /\ out ++ rest ≡ₚ leaves root
    /\ Z.of_nat (length out)
       = Z.min (size_t_of_int k) (Z.of_nat (length (leaves root)))
    /\ (covered root ->
        Forall (fun l => mbr_valid (mbr l)) (leaves root) ->
        nearest_first x y out rest).
Proof.
  set (e := mkPQEntry root (min_dist (mbr root) x y)).
  assert (Hq : pq_contents (pq_push e pq_new) ≡ₚ [e]).
  { now rewrite pq_push_contents, pq_new_contents. }
  destruct (kn_loop_correct x y k (leaves root) (S (tree_size root))
              (pq_push e pq_new) [])
    as (out & rest & Hrun & Hperm & Hlen & Hord).
  - unfold weight. rewrite Hq. simpl. lia.
  - unfold pending. rewrite Hq. simpl. now rewrite app_nil_r.
  - rewrite Hq. now repeat constructor.
  - simpl. unfold size_t_of_int. apply Z.mod_pos_bound. lia.
  - exists out, rest. split; [exact Hrun |]. split; [exact Hperm |].
    split; [exact Hlen |]. intros Hc Hv. apply Hord; [| assumption |].
    + rewrite Hq. now repeat constructor.
    + split; [constructor |]. intros l r Hl. now apply elem_of_nil in Hl.
Qed.


(** C10 (as amended). When the leaves of the tree carry pairwise distinct
    ids, the id list produced for one k-NN query contains no id more than
    once, whatever the query point and [k]: every leaf is dequeued, and its
    id appended, at most once. *)
Theorem kn_ids_distinct {PQ : PriorityQueue} (root : Node) (x y : Q) (k : Z) :
  NoDup (node_id <$> leaves root) ->
  exists ids,
    kn_query (Some root) x y k = Ok ids
    /\ ids ⊆+ (node_id <$> leaves root)
    /\ NoDup ids.
Proof.
  intros Hnd.
  destruct (kn_query_run root x y k) as (out & rest & Hrun & Hperm & _).
  exists (node_id <$> out). split; [exact Hrun |].
  assert (Hsub : node_id <$> out ⊆+ node_id <$> leaves root).
  { rewrite <- Hperm, fmap_app. apply submseteq_inserts_r. reflexivity. }
  split; [exact Hsub |].
  rewrite <- Hperm, fmap_app in Hnd. now apply NoDup_app in Hnd as [? _].
Qed.

(** ** Unions of rectangles *)

Lemma update_parent_mbr_l p c : mbr_contains (update_parent_mbr p c) p.
Proof.
  repeat split; simpl; auto using std_min_l, std_max_l.
Qed.

Lemma update_parent_mbr_r p c : mbr_contains (update_parent_mbr p c) c.
Proof.
  repeat split; simpl; auto using std_min_r, std_max_r.
Qed.

Lemma update_parent_mbr_least m p c :
  mbr_contains m p -> mbr_contains m c -> mbr_contains m (update_parent_mbr p c).
Proof.
  intros (?&?&?&?) (?&?&?&?).
  repeat split; simpl; auto using std_min_glb, std_max_lub.
Qed.

Lemma fold_update_covers cs m0 :
  let m := foldl (fun m c => update_parent_mbr m (mbr c)) m0 cs in
  mbr_contains m m0 /\ covers_all m cs.
Proof.
  revert m0. induction cs as [| c cs IH]; intros m0; simpl.
  - split; [apply mbr_contains_refl |]. intros c Hc. now apply elem_of_nil in Hc.
  - destruct (IH (update_parent_mbr m0 (mbr c))) as [H0 Hcs]. split.
    + eapply mbr_contains_trans; [exact H0 | apply update_parent_mbr_l].
    + intros c' [-> | Hc']%elem_of_cons; [| now apply Hcs].
      eapply mbr_contains_trans; [exact H0 | apply update_parent_mbr_r].
Qed.

Lemma fold_update_least cs m0 m' :
  mbr_contains m' m0 -> covers_all m' cs ->
  mbr_contains m' (foldl (fun m c => update_parent_mbr m (mbr c)) m0 cs).
Proof.
  revert m0. induction cs as [| c cs IH]; intros m0 H0 Hcs; simpl; [assumption |].
  apply IH.
  - apply update_parent_mbr_least; [assumption |]. apply Hcs. left.
  - intros c' Hc'. apply Hcs. now right.
Qed.

Lemma recompute_node_mbr_union cs m :
  recompute_node_mbr cs = Ok m -> is_union m cs.
Proof.
  destruct cs as [| c cs]; [discriminate |]. intros [= <-]. simpl. rewrite drop_0.
  destruct (fold_update_covers cs (mbr c)) as [H0 Hcs]. split.
  - intros c' [-> | Hc']%elem_of_cons; [assumption | now apply Hcs].
  - intros m' Hm'. apply fold_update_least.
    + apply Hm'. left.
    + intros c' Hc'. apply Hm'. now right.
Qed.

Lemma recompute_node_mbr_nonempty cs :
  cs <> [] -> exists m, recompute_node_mbr cs = Ok m.
Proof. destruct cs; [congruence | eauto]. Qed.

Lemma is_union_widen m cs c :
  is_union m cs -> is_union (update_parent_mbr m (mbr c)) (c :: cs).
Proof.
  intros [Hcov Hleast]. split.
  - intros c' [-> | Hc']%elem_of_cons; [apply update_parent_mbr_r |].
    eapply mbr_contains_trans; [apply update_parent_mbr_l | now apply Hcov].
  - intros m' Hm'. apply update_parent_mbr_least.
    + apply Hleast. intros c' Hc'. apply Hm'. now right.
    + apply Hm'. left.
Qed.

Lemma is_union_covered m cs : is_union m cs -> Forall (fun c => mbr_contains m (mbr c)) cs.
Proof. intros [Hcov _]. apply Forall_forall, Hcov. Qed.

(** A tight tree is covered: the hypothesis of the query theorems holds of
    what the loader and the reader build. *)
Lemma tight_covered n : tight n -> covered n.
Proof.
  induction n as [i m | i m b cs IH] using Node_forall_ind; intros Ht.
  - constructor.
  - inversion Ht as [| ? ? ? ? Hu Hcs]; subst. constructor.
    + now apply is_union_covered.
    + rewrite Forall_forall in *. auto.
Qed.

(** ** One level of the bulk loader *)

Lemma group_node_ok id flag g :
  g <> [] ->
  exists m, group_node id flag g = Ok (InternalNode id m flag g) /\ is_union m g.
Proof.
  intros Hg. destruct (recompute_node_mbr_nonempty g Hg) as [m Hm].
  exists m. split; [| now apply recompute_node_mbr_union].
  destruct g as [| c g]; [congruence |]. injection Hm as <-. reflexivity.
Qed.

Lemma full_groups_spec count :
  forall nodes id flag,
    (count * 20 <= length nodes)%nat ->
    exists ups,
      full_groups count nodes id flag = Ok (ups, id + Z.of_nat count)
      /\ length ups = count
      /\ node_id <$> ups = seqZ id (Z.of_nat count)
      /\ Forall (built flag) ups
      /\ Forall (fun u => length (children u) = 20%nat) ups
      /\ ups ≫= children = take (count * 20) nodes.
Proof.
  induction count as [| count IH]; intros nodes id flag Hlen.
  - exists []. simpl. rewrite Z.add_0_r. repeat split; constructor.
  - rewrite Nat.mul_succ_l in Hlen. unfold MAX_CHILDREN_PER_NODE.
    assert (Hg : take 20 nodes <> []).
    { destruct nodes; [cbn [length] in Hlen; lia | discriminate]. }
    destruct (group_node_ok id flag _ Hg) as (m & Hgroup & Hm).
    destruct (IH (drop 20 nodes) (id + 1) flag) as (ups & Hrun & Hl & Hids & Hb & Hc & Hch).
    { rewrite length_drop. lia. }
    exists (InternalNode id m flag (take 20 nodes) :: ups).
    cbn [full_groups]. unfold MAX_CHILDREN_PER_NODE.
    rewrite Hgroup, bind_Ok, Hrun, bind_Ok.
    split; [do 2 f_equal; lia |].
    split; [simpl; lia |]. split.
    { rewrite fmap_cons, Hids. simpl node_id.
      rewrite (seqZ_cons id) by lia. do 2 f_equal; lia. }
    split; [constructor; [now exists id, m, (take 20 nodes) | assumption] |].
    split; [constructor; [simpl; rewrite length_take; lia | assumption] |].
    rewrite bind_cons, Hch. simpl children.
    rewrite take_take_drop. f_equal.
Qed.

(** What the borrowing loop does when it ends: [moved] are the children
    taken from the back of the donor, the last one first. *)
Lemma borrow_loop_spec needed :
  forall drev i dm rm rcs drev' dm' rm' rcs',
    borrow_loop needed i drev dm rm rcs = Ok (drev', dm', rm', rcs') ->
    exists moved,
      drev = moved ++ drev'
      /\ rcs' = reverse moved ++ rcs
      /\ Z.of_nat (length moved) = Z.max 0 (needed - i)
      /\ (is_union rm rcs -> is_union rm' rcs')
      /\ (moved = [] -> dm' = dm)
      /\ (moved <> [] -> is_union dm' (reverse drev') /\ drev' <> []).
Proof.
  induction drev as [| child drev IH]; intros i dm rm rcs drev' dm' rm' rcs';
    cbn [borrow_loop]; destruct (i <? needed) eqn:Hi.
  - discriminate.
  - apply Z.ltb_ge in Hi. intros [= <- <- <- <-]. exists [].
    split; [reflexivity |]. split; [reflexivity |]. split; [simpl; lia |].
    split; [tauto |]. split; [reflexivity | congruence].
  - apply Z.ltb_lt in Hi. intros Hrun.
    apply bind_Ok_inv in Hrun as (dm1 & Hdm1 & Hrun).
    apply IH in Hrun as (moved & -> & -> & Hlen & Hrem & Hsame & Hdonor).
    exists (child :: moved). split; [reflexivity |]. split.
    { rewrite reverse_cons, <- (assoc_L (++)). reflexivity. }
    split; [simpl length; lia |].
    split; [intros Hu; now apply Hrem, is_union_widen |].
    split; [discriminate |]. intros _.
    destruct moved as [| c moved].
    + rewrite Hsame by reflexivity. simpl in Hdm1. split.
      * now apply recompute_node_mbr_union.
      * intros ->. discriminate.
    + apply Hdonor. discriminate.
  - apply Z.ltb_ge in Hi. intros [= <- <- <- <-]. exists [].
    split; [reflexivity |]. split; [reflexivity |]. split; [simpl; lia |].
    split; [tauto |]. split; [reflexivity | congruence].
Qed.

(** The loop fails when it is asked for as many children as the donor
    has, or more. *)
Lemma borrow_loop_undefined needed :
  forall drev i dm rm rcs,
    i < needed -> Z.of_nat (length drev) <= needed - i ->
    borrow_loop needed i drev dm rm rcs = Undefined.
Proof.
  induction drev as [| child drev IH]; intros i dm rm rcs Hi Hlen;
    cbn [borrow_loop]; apply Z.ltb_lt in Hi as Hi'; rewrite Hi'.
  - reflexivity.
  - destruct drev as [| c drev]; [reflexivity |].
    destruct (recompute_node_mbr_nonempty (reverse (c :: drev))) as [m Hm].
    { intros H. apply (f_equal length) in H. rewrite length_reverse in H.
      discriminate. }
    rewrite Hm, bind_Ok. apply IH; cbn [length] in *; lia.
Qed.

Lemma needed_children_small r :
  (r <= 8)%nat ->
  (MIN_CHILDREN_PER_NODE - Z.of_nat r) mod 2 ^ 64 = 8 - Z.of_nat r.
Proof.
  intros Hr. unfold MIN_CHILDREN_PER_NODE.
  change (2 ^ 64) with 18446744073709551616. apply Z.mod_small. lia.
Qed.

Lemma needed_children_wraps r :
  (8 < r < 20)%nat ->
  (MIN_CHILDREN_PER_NODE - Z.of_nat r) mod 2 ^ 64
  = 18446744073709551624 - Z.of_nat r.
Proof.
  intros Hr. unfold MIN_CHILDREN_PER_NODE.
  change (2 ^ 64) with 18446744073709551616.
  symmetry. apply (Z.mod_unique _ _ (-1)); lia.
Qed.

Lemma create_upper_level_spec nodes id ups id' :
  create_upper_level nodes id = Ok (ups, id') ->
  id' = id + Z.of_nat (length ups)
  /\ node_id <$> ups = seqZ id (Z.of_nat (length ups))
  /\ Forall (built (id =? 0)) ups
  /\ ups ≫= children = nodes
  /\ length ups = (length nodes / 20
                   + (if (length nodes mod 20 =? 0)%nat then 0 else 1))%nat
  /\ ((20 <= length nodes)%nat ->
      Forall (fun u => 8 <= length (children u) <= 20)%nat ups)
  /\ (1 <= length nodes / 20 -> length nodes mod 20 <= 8)%nat.
Proof.
  unfold create_upper_level, MAX_CHILDREN_PER_NODE.
  set (q := (length nodes / 20)%nat). set (r := (length nodes mod 20)%nat).
  set (flag := id =? 0).
  assert (Hqr : length nodes = (q * 20 + r)%nat /\ (r < 20)%nat).
  { unfold q, r. pose proof (Nat.div_mod_eq (length nodes) 20).
    pose proof (Nat.mod_upper_bound (length nodes) 20). lia. }
  destruct Hqr as [Hn Hr].
  destruct (full_groups_spec q nodes id flag)
    as (ups0 & Hfull & Hlen0 & Hids0 & Hb0 & Hc0 & Hch0); [lia |].
  rewrite Hfull, bind_Ok. destruct (r =? 0)%nat eqn:Hr0.
  { apply Nat.eqb_eq in Hr0. intros [= <- <-]. rewrite Hlen0.
    split; [reflexivity |]. split; [assumption |]. split; [assumption |].
    split; [rewrite Hch0; apply take_ge; lia |].
    split; [lia |]. split; [| lia].
    intros _. eapply Forall_impl; [exact Hc0 |]. simpl. lia. }
  apply Nat.eqb_neq in Hr0.
  assert (Hg : drop (q * 20) nodes <> []).
  { intros H. apply (f_equal length) in H. rewrite length_drop in H.
    cbn [length] in H. lia. }
  destruct (group_node_ok (id + Z.of_nat q) flag _ Hg) as (rm & Hgroup & Hrm).
  rewrite Hgroup, bind_Ok.
  set (needed := (MIN_CHILDREN_PER_NODE - Z.of_nat r) mod 2 ^ 64).
  assert (Hrest : (ups0 ≫= children) ++ drop (q * 20) nodes = nodes).
  { rewrite Hch0. apply take_drop. }
  destruct ((0 <? needed) && negb (bool_decide (ups0 = []))) eqn:Hcond.
  - (* children are borrowed from the last full node *)
    apply andb_true_iff in Hcond as [Hpos Hne]. apply Z.ltb_lt in Hpos.
    apply negb_true_iff, bool_decide_eq_false in Hne.
    destruct (last ups0) as [donor |] eqn:Hlast;
      [| apply last_None in Hlast; contradiction].
    apply last_Some in Hlast as [ups1 ->].
    rewrite removelast_last.
    apply Forall_app in Hb0 as [Hb1 Hbd]. apply Forall_app in Hc0 as [Hc1 Hcd].
    apply Forall_singleton in Hbd as (di & dm & dcs & -> & Hdm).
    rewrite Forall_singleton in Hcd. simpl in Hcd.
    intros Hrun. apply bind_Ok_inv in Hrun as ([[[drev' dm'] rm'] rcs'] & Hloop & Hrun).
    injection Hrun as <- <-.
    apply borrow_loop_spec in Hloop
      as (moved & Hdrev & -> & Hmoved & Hrem & _ & Hdonor).
    simpl in Hrem.
    assert (Hlen_rev : (length moved + length drev' = 20)%nat).
    { rewrite <- length_app, <- Hdrev, length_reverse. exact Hcd. }
    assert (Hmoved_ne : moved <> []).
    { intros ->. simpl in Hmoved. lia. }
    destruct (Hdonor Hmoved_ne) as [Hdm' Hdrev'].
    assert (0 < length drev')%nat by (destruct drev'; [congruence | simpl; lia]).
    assert (r < 8)%nat as Hr8.
    { destruct (decide (r <= 8)%nat) as [Hle | Hgt].
      - unfold needed in *. rewrite needed_children_small in * by assumption. lia.
      - unfold needed in *. rewrite needed_children_wraps in * by lia. lia. }
    unfold needed in Hmoved. rewrite needed_children_small in Hmoved by lia.
    assert (Hdcs : dcs = reverse drev' ++ reverse moved).
    { rewrite <- reverse_app, <- Hdrev. now rewrite reverse_involutive. }
    rewrite length_app in Hlen0. cbn [length] in Hlen0.
    rewrite !length_app. cbn [length children mbr].
    split; [lia |]. split.
    { rewrite fmap_app in Hids0 |- *. simpl in Hids0 |- *.
      replace (Z.of_nat (length ups1 + 2)) with (Z.of_nat (S q)) by lia.
      rewrite seqZ_S, <- Hids0, <- (assoc_L (++)). reflexivity. }
    split.
    { apply Forall_app. split; [assumption |].
      repeat constructor.
      - now exists di, dm', (reverse drev').
      - exists (id + Z.of_nat q), rm', (reverse moved ++ drop (q * 20) nodes).
        split; [reflexivity |]. now apply Hrem. }
    split.
    { etransitivity; [| exact Hrest].
      rewrite !bind_app, !bind_cons. simpl children.
      rewrite Hdcs. change ([] ≫= children) with (@nil Node).
      rewrite !app_nil_r, <- !(assoc_L (++)). reflexivity. }
    split; [lia |]. split; [| lia]. intros _.
    apply Forall_app. split.
    { eapply Forall_impl; [exact Hc1 |]. simpl. lia. }
    apply Forall_cons_2; [simpl; rewrite length_reverse; lia |].
    apply Forall_cons_2; [| apply Forall_nil_2].
    simpl. rewrite length_app, length_reverse, length_drop. lia.
  - (* no borrowing *)
    intros [= <- <-]. rewrite length_app. cbn [length].
    split; [lia |]. split.
    { replace (Z.of_nat (length ups0 + 1)) with (Z.of_nat (S q)) by lia.
      rewrite seqZ_S, fmap_app, Hids0. reflexivity. }
    split.
    { apply Forall_app. split; [assumption |]. repeat constructor.
      now exists (id + Z.of_nat q), rm, (drop (q * 20) nodes). }
    split; [rewrite bind_app, bind_cons; change ([] ≫= children) with (@nil Node);
            rewrite app_nil_r; exact Hrest |].
    split; [lia |].
    apply andb_false_iff in Hcond as [Hz | He].
    + (* needed_children = 0: the remainder has exactly 8 members *)
      apply Z.ltb_ge in Hz. unfold needed in Hz.
      assert (r = 8)%nat as Hr8.
      { destruct (decide (r <= 8)%nat) as [Hle | Hgt].
        - rewrite needed_children_small in Hz by assumption. lia.
        - rewrite needed_children_wraps in Hz by lia. lia. }
      split; [| lia]. intros _. apply Forall_app. split.
      { eapply Forall_impl; [exact Hc0 |]. simpl. lia. }
      apply Forall_cons_2; [| apply Forall_nil_2].
      simpl. rewrite length_drop. lia.
    + (* no full node: the remainder is the only group *)
      apply negb_false_iff, bool_decide_eq_true in He. subst ups0.
      simpl in Hlen0. split; lia.
Qed.

(** C3 (the code departs from the claim). With a full sibling before it, a
    final group of more than [MIN_CHILDREN_PER_NODE] members should be left
    alone. [needed_children] is unsigned, so [8 - remaining_nodes] wraps to
    a huge positive number: the loop is entered, takes every child of the
    sibling and runs into undefined behaviour. *)
Theorem create_upper_level_large_remainder (nodes : list Node) (id : Z) :
  (20 <= length nodes)%nat ->
  (8 < length nodes mod 20)%nat ->
  create_upper_level nodes id = Undefined.
Proof.
  intros Hn20 Hr8. unfold create_upper_level, MAX_CHILDREN_PER_NODE.
  set (q := (length nodes / 20)%nat). set (r := (length nodes mod 20)%nat).
  assert (Hqr : length nodes = (q * 20 + r)%nat /\ (r < 20)%nat).
  { unfold q, r. pose proof (Nat.div_mod_eq (length nodes) 20).
    pose proof (Nat.mod_upper_bound (length nodes) 20). lia. }
  destruct Hqr as [Hn Hr]. fold r in Hr8.
  destruct (full_groups_spec q nodes id (id =? 0))
    as (ups0 & Hfull & Hlen0 & _ & Hb0 & Hc0 & _); [lia |].
  rewrite Hfull, bind_Ok.
  destruct (r =? 0)%nat eqn:Hr0; [apply Nat.eqb_eq in Hr0; lia |].
  assert (Hg : drop (q * 20) nodes <> []).
  { intros H. apply (f_equal length) in H. rewrite length_drop in H.
    cbn [length] in H. lia. }
  destruct (group_node_ok (id + Z.of_nat q) (id =? 0) _ Hg) as (rm & -> & _).
  rewrite bind_Ok, needed_children_wraps by lia.
  destruct (last ups0) as [donor |] eqn:Hlast.
  2:{ apply last_None in Hlast. subst ups0. simpl in Hlen0. lia. }
  apply last_Some in Hlast as [ups1 ->].
  apply Forall_app in Hb0 as [_ Hbd]. apply Forall_app in Hc0 as [_ Hcd].
  apply Forall_singleton in Hbd as (di & dm & dcs & -> & _).
  rewrite Forall_singleton in Hcd. simpl in Hcd.
  replace (0 <? 18446744073709551624 - Z.of_nat r) with true
    by (symmetry; apply Z.ltb_lt; lia).
  replace (bool_decide (ups1 ++ [InternalNode di dm (id =? 0) dcs] = []))
    with false by (symmetry; apply bool_decide_eq_false; now destruct ups1).
  cbn [andb negb]. rewrite borrow_loop_undefined; [reflexivity | lia |].
  rewrite length_reverse. lia.
Qed.

(** Where the claim and the code agree: with a full sibling and a final
    group of fewer than 8 members, [8 - r] children leave the sibling, in
    their order, for the head of the final group; the [MBR]s of both nodes
    are the unions of their new children. *)
Lemma create_upper_level_borrows nodes id ups id' :
  (20 <= length nodes)%nat ->
  (0 < length nodes mod 20 < 8)%nat ->
  create_upper_level nodes id = Ok (ups, id') ->
  exists ups1 donor recipient,
    ups = ups1 ++ [donor; recipient]
    /\ Forall (fun u => length (children u) = 20%nat) ups1
    /\ length (children donor) = (12 + length nodes mod 20)%nat
    /\ length (children recipient) = 8%nat
    /\ ups ≫= children = nodes
    /\ is_union (mbr donor) (children donor)
    /\ is_union (mbr recipient) (children recipient).
Proof.
  intros Hn20 Hr Hrun.
  destruct (create_upper_level_spec _ _ _ _ Hrun)
    as (_ & _ & Hb & Hch & Hlen & _ & _).
  revert Hrun. unfold create_upper_level, MAX_CHILDREN_PER_NODE.
  set (q := (length nodes / 20)%nat). set (r := (length nodes mod 20)%nat).
  assert (Hqr : length nodes = (q * 20 + r)%nat).
  { unfold q, r. pose proof (Nat.div_mod_eq (length nodes) 20). lia. }
  fold r in Hr.
  destruct (full_groups_spec q nodes id (id =? 0))
    as (ups0 & Hfull & Hlen0 & _ & Hb0 & Hc0 & _); [lia |].
  rewrite Hfull, bind_Ok.
  destruct (r =? 0)%nat eqn:Hr0; [apply Nat.eqb_eq in Hr0; lia |].
  assert (Hg : drop (q * 20) nodes <> []).
  { intros H. apply (f_equal length) in H. rewrite length_drop in H.
    cbn [length] in H. lia. }
  destruct (group_node_ok (id + Z.of_nat q) (id =? 0) _ Hg) as (rm & -> & Hrm).
  rewrite bind_Ok, needed_children_small by lia.
  destruct (last ups0) as [donor |] eqn:Hlast.
  2:{ apply last_None in Hlast. subst ups0. simpl in Hlen0. lia. }
  apply last_Some in Hlast as [ups1 ->].
  apply Forall_app in Hb0 as [_ Hbd]. apply Forall_app in Hc0 as [Hc1 Hcd].
  apply Forall_singleton in Hbd as (di & dm & dcs & -> & _).
  rewrite Forall_singleton in Hcd. simpl in Hcd.
  replace (0 <? 8 - Z.of_nat r) with true by (symmetry; apply Z.ltb_lt; lia).
  replace (bool_decide (ups1 ++ [InternalNode di dm (id =? 0) dcs] = []))
    with false by (symmetry; apply bool_decide_eq_false; now destruct ups1).
  cbn [andb negb]. rewrite removelast_last. intros Hrun.
  apply bind_Ok_inv in Hrun as ([[[drev' dm'] rm'] rcs'] & Hloop & Hrun).
  injection Hrun as <- <-.
  apply borrow_loop_spec in Hloop
    as (moved & Hdrev & -> & Hmoved & Hrem & _ & Hdonor).
  cbn [children mbr] in *.
  assert (Hlen_rev : (length moved + length drev' = 20)%nat).
  { rewrite <- length_app, <- Hdrev, length_reverse. exact Hcd. }
  assert (Hmoved_ne : moved <> []) by (intros ->; simpl in Hmoved; lia).
  destruct (Hdonor Hmoved_ne) as [Hdm' _].
  eexists ups1, _, _. split; [reflexivity |]. split; [assumption |].
  cbn [children mbr]. rewrite length_app, !length_reverse, length_drop.
  split; [lia |]. split; [lia |]. split; [assumption |].
  split; [assumption | now apply Hrem].
Qed.

(** ** The levels of the bulk loader (C4, C5) *)

Lemma built_over nodes ups flag (P : Node -> Prop) :
  Forall (built flag) ups -> ups ≫= children = nodes -> Forall P nodes ->
  Forall (fun u => is_internal u = true /\ is_union (mbr u) (children u)
                   /\ Forall P (children u)) ups.
Proof.
  intros Hb Hch HP. rewrite Forall_forall in *. intros u Hu.
  destruct (Hb u Hu) as (i & m & cs & -> & Hm). simpl.
  split; [reflexivity |]. split; [assumption |].
  apply Forall_forall. intros c Hc. apply HP. rewrite <- Hch.
  apply list_elem_of_bind. exists (InternalNode i m flag cs). now split.
Qed.

Lemma create_upper_level_tight nodes id ups id' :
  Forall tight nodes ->
  create_upper_level nodes id = Ok (ups, id') ->
  Forall tight ups.
Proof.
  intros Ht Hrun.
  destruct (create_upper_level_spec _ _ _ _ Hrun) as (_ & _ & Hb & Hch & _).
  eapply Forall_impl; [exact (built_over _ _ _ _ Hb Hch Ht) |].
  intros [i m | i m b cs] (Hi & Hm & Hcs); [discriminate |].
  now constructor.
Qed.

Lemma create_upper_level_fanout nodes id ups id' :
  (1 < length nodes)%nat ->
  Forall fanout_ok nodes ->
  create_upper_level nodes id = Ok (ups, id') ->
  level_ok ups.
Proof.
  intros Hn Hf Hrun.
  destruct (create_upper_level_spec _ _ _ _ Hrun)
    as (_ & _ & Hb & Hch & Hlen & H20 & _).
  pose proof (built_over _ _ _ _ Hb Hch Hf) as Hups.
  destruct (decide (20 <= length nodes)%nat) as [Hge | Hlt].
  - left. specialize (H20 Hge). rewrite Forall_forall in *.
    intros u Hu. destruct (Hups u Hu) as (Hi & _ & Hcs).
    destruct u as [i m | i m b cs]; [discriminate |].
    constructor; [exact (H20 _ Hu) | exact Hcs].
  - right. rewrite Nat.div_small, Nat.mod_small in Hlen by lia.
    destruct (length nodes =? 0)%nat eqn:H0; [apply Nat.eqb_eq in H0; lia |].
    destruct ups as [| root [| ? ?]]; try discriminate.
    exists root. split; [reflexivity |].
    apply Forall_singleton in Hups as (Hi & _ & Hcs).
    change ([root] ≫= children) with (children root ++ []) in Hch.
    rewrite app_nil_r in Hch. unfold fanout_invariant. rewrite Hch.
    split; [assumption |]. split; [lia | assumption].
Qed.

Lemma create_upper_level_shorter nodes id ups id' :
  (1 < length nodes)%nat ->
  create_upper_level nodes id = Ok (ups, id') ->
  (length ups < length nodes)%nat.
Proof.
  intros Hn Hrun.
  destruct (create_upper_level_spec _ _ _ _ Hrun) as (_ & _ & _ & _ & Hlen & _).
  rewrite Hlen. pose proof (Nat.div_mod_eq (length nodes) 20).
  destruct (length nodes mod 20 =? 0)%nat eqn:H0.
  - apply Nat.eqb_eq in H0. lia.
  - lia.
Qed.

Lemma build_levels_inv fuel :
  forall nodes id out nodes' out',
    build_levels fuel nodes id out = Ok (nodes', out') ->
    (Forall tight nodes -> Forall tight nodes')
    /\ (level_ok nodes -> level_ok nodes')
    /\ (length nodes' <= 1)%nat
    /\ (nodes <> [] -> nodes' <> []).
Proof.
  induction fuel as [| fuel IH]; intros nodes id out nodes' out';
    cbn [build_levels]; destruct (1 <? length nodes)%nat eqn:Hn;
    try discriminate.
  - apply Nat.ltb_ge in Hn. intros [= <- <-]. tauto.
  - apply Nat.ltb_lt in Hn. intros Hrun.
    apply bind_Ok_inv in Hrun as ([ups id'] & Hup & Hrun).
    apply IH in Hrun as (Ht & Hf & Hlen & Hne).
    destruct (create_upper_level_spec _ _ _ _ Hup) as (_ & _ & _ & _ & Hl & _).
    split; [eauto using create_upper_level_tight |]. split.
    + intros [Hok | (root & -> & _)]; [| simpl in Hn; lia].
      eauto using create_upper_level_fanout.
    + split; [assumption |]. intros _. apply Hne. intros ->. cbn [length] in Hl.
      pose proof (Nat.div_mod_eq (length nodes) 20).
      destruct (length nodes mod 20 =? 0)%nat eqn:H0; [| lia].
      apply Nat.eqb_eq in H0. lia.
  - apply Nat.ltb_ge in Hn. intros [= <- <-]. tauto.
Qed.

Lemma borrow_loop_total needed :
  forall drev i dm rm rcs,
    borrow_loop needed i drev dm rm rcs = Undefined
    \/ exists r, borrow_loop needed i drev dm rm rcs = Ok r.
Proof.
  induction drev as [| child drev IH]; intros i dm rm rcs;
    cbn [borrow_loop]; destruct (i <? needed); eauto.
  destruct (reverse drev) as [| c cs]; [now left |].
  unfold recompute_node_mbr. cbn [vec_at lookup list_lookup].
  rewrite !bind_Ok. apply IH.
Qed.

(** A call of [create_upper_level] returns the upper level or is
    undefined; it neither exits nor throws. *)
Lemma create_upper_level_total nodes id :
  create_upper_level nodes id = Undefined
  \/ exists r, create_upper_level nodes id = Ok r.
Proof.
  unfold create_upper_level, MAX_CHILDREN_PER_NODE.
  set (q := (length nodes / 20)%nat). set (r := (length nodes mod 20)%nat).
  assert (Hqr : length nodes = (q * 20 + r)%nat).
  { unfold q, r. pose proof (Nat.div_mod_eq (length nodes) 20). lia. }
  destruct (full_groups_spec q nodes id (id =? 0))
    as (ups0 & Hfull & _ & _ & Hb0 & _); [lia |].
  rewrite Hfull, bind_Ok. destruct (r =? 0)%nat eqn:Hr0; [eauto |].
  apply Nat.eqb_neq in Hr0.
  assert (Hg : drop (q * 20) nodes <> []).
  { intros H. apply (f_equal length) in H. rewrite length_drop in H.
    cbn [length] in H. lia. }
  destruct (group_node_ok (id + Z.of_nat q) (id =? 0) _ Hg) as (rm & -> & _).
  rewrite bind_Ok.
  destruct (_ && _); [| eauto].
  destruct (last ups0) as [[| di dm df dcs] |]; eauto.
  match goal with
  | |- context [borrow_loop ?n ?i ?d ?a ?b ?c] =>
      destruct (borrow_loop_total n d i a b c) as [-> | [[[[? ?] ?] ?] ->]]
  end; [now left | rewrite bind_Ok; eauto].
Qed.

(** The loop of [build_tree] ends before its fuel does. *)
Lemma build_levels_fuel fuel :
  forall nodes id out,
    (length nodes <= fuel)%nat -> build_levels fuel nodes id out <> OutOfFuel.
Proof.
  induction fuel as [| fuel IH]; intros nodes id out Hlen;
    cbn [build_levels]; destruct (1 <? length nodes)%nat eqn:Hn;
    try discriminate.
  - apply Nat.ltb_lt in Hn. lia.
  - apply Nat.ltb_lt in Hn.
    destruct (create_upper_level_total nodes id) as [-> | [[ups id'] Hup]];
      [discriminate |].
    rewrite Hup, bind_Ok. apply IH.
    pose proof (create_upper_level_shorter _ _ _ _ Hn Hup). lia.
Qed.

Lemma build_tree_fuel nodes : build_tree nodes <> OutOfFuel.
Proof.
  unfold build_tree.
  destruct (build_levels (length nodes) nodes 0 []) as [[ns out] | | | |] eqn:Hl;
    try discriminate.
  - rewrite bind_Ok. destruct ns; discriminate.
  - now apply build_levels_fuel in Hl.
Qed.

(** C4. In every tree the bulk loader produces, the root is an internal
    node with at least one child and every internal node below the root has
    between 8 and 20 children. (A final group that is the only group of its
    level, and may be smaller, is the root.) *)
Theorem bulk_loader_fanout (entries : list Entry.t) (root : Node)
    (lines : list text) :
  build_tree (build_leaf_nodes entries) = Ok (Some root, lines) ->
  fanout_invariant root.
Proof.
  unfold build_tree. intros Hrun.
  apply bind_Ok_inv in Hrun as ([nodes out] & Hlevels & Hrun).
  apply bind_Ok_inv in Hrun as (front & Hfront & Hrun).
  injection Hrun as Hroot <-.
  unfold as_internal in Hroot.
  destruct (is_internal front) eqn:Hi; [| discriminate]. injection Hroot as ->.
  apply build_levels_inv in Hlevels as (_ & Hf & _ & _).
  destruct Hf as [Hok | (r & -> & Hr)].
  - left. apply Forall_forall. intros n Hn.
    apply list_elem_of_fmap in Hn as (e & -> & _). constructor.
  - destruct nodes as [| n ns]; [discriminate |]. injection Hfront as ->.
    apply Forall_cons in Hok as [Hok _].
    destruct root as [| i m b cs]; [discriminate |].
    inversion Hok; subst. repeat split; simpl; [lia | assumption].
  - injection Hfront as ->. exact Hr.
Qed.

(** ** Reading the tree back (C5, C8) *)

Lemma read_children_cons prog is_leaf id_to_node s coords :
  read_children prog is_leaf id_to_node (s :: coords)
  = (child_id ← stoi s;
     m ← read_mbr prog coords;
     child ← resolve_child is_leaf id_to_node child_id m;
     match coords with
     | _ :: _ :: _ :: _ :: numbers =>
         cs ← read_children prog is_leaf id_to_node numbers;
         Ok (child :: cs)
     | _ => Undefined
     end).
Proof. reflexivity. Qed.

Lemma read_children_cons_inv prog is_leaf id_to_node s coords cs :
  read_children prog is_leaf id_to_node (s :: coords) = Ok cs ->
  exists child_id m child a b c d numbers cs',
    stoi s = Ok child_id
    /\ read_mbr prog coords = Ok m
    /\ resolve_child is_leaf id_to_node child_id m = Ok child
    /\ coords = a :: b :: c :: d :: numbers
    /\ read_children prog is_leaf id_to_node numbers = Ok cs'
    /\ cs = child :: cs'.
Proof.
  rewrite read_children_cons. intros Hrun.
  apply bind_Ok_inv in Hrun as (child_id & Hid & Hrun).
  apply bind_Ok_inv in Hrun as (m & Hm & Hrun).
  apply bind_Ok_inv in Hrun as (child & Hch & Hrun).
  destruct coords as [| a [| b [| c [| d numbers]]]]; try discriminate.
  apply bind_Ok_inv in Hrun as (cs' & Hrest & [= <-]).
  exists child_id, m, child, a, b, c, d, numbers, cs'. auto 10.
Qed.

(** Induction on the numbers of a line, one child (five numbers) at a
    time. *)
Lemma read_children_ind prog is_leaf id_to_node (P : list Node -> Prop) :
  P [] ->
  (forall child_id m child cs,
      resolve_child is_leaf id_to_node child_id m = Ok child ->
      P cs -> P (child :: cs)) ->
  forall numbers cs,
    read_children prog is_leaf id_to_node numbers = Ok cs -> P cs.
Proof.
  intros Hnil Hcons numbers.
  induction numbers as [numbers IH] using (induction_ltof1 _ length).
  unfold ltof in IH. destruct numbers as [| s coords]; intros cs Hrun.
  - injection Hrun as <-. exact Hnil.
  - apply read_children_cons_inv in Hrun
      as (child_id & m & child & a & b & c & d & rest & cs' & _ & _ & Hch & -> & Hrest & ->).
    eapply Hcons; [exact Hch |]. eapply IH; [| exact Hrest]. simpl. lia.
Qed.

Lemma read_node_inv prog id_to_node line n :
  read_node prog id_to_node line = Ok n ->
  exists flag s i cs m,
    extract_numbers line !! 0%nat = Some flag
    /\ extract_numbers line !! 1%nat = Some s
    /\ stoi s = Ok i
    /\ read_children prog (bool_decide (flag = chars "0")) id_to_node
                     (drop 2 (extract_numbers line)) = Ok cs
    /\ recompute_node_mbr cs = Ok m
    /\ n = InternalNode i m (bool_decide (flag = chars "0")) cs.
Proof.
  unfold read_node. intros Hrun.
  apply bind_Ok_inv in Hrun as (flag & Hflag & Hrun).
  apply bind_Ok_inv in Hrun as (s & Hs & Hrun).
  apply bind_Ok_inv in Hrun as (i & Hi & Hrun).
  apply bind_Ok_inv in Hrun as (cs & Hcs & Hrun).
  apply bind_Ok_inv in Hrun as (m & Hm & [= <-]).
  unfold vec_at in Hflag, Hs.
  destruct (extract_numbers line !! 0%nat) eqn:H0; [| discriminate].
  destruct (extract_numbers line !! 1%nat) eqn:H1; [| discriminate].
  injection Hflag as ->. injection Hs as ->.
  exists flag, s, i, cs, m. auto 10.
Qed.

Lemma read_node_tight prog (id_to_node : gmap Z Node) line n :
  (forall i c, id_to_node !! i = Some c -> tight c) ->
  read_node prog id_to_node line = Ok n -> tight n.
Proof.
  intros Hmap Hrun.
  apply read_node_inv in Hrun as (flag & s & i & cs & m & _ & _ & _ & Hcs & Hm & ->).
  constructor; [now apply recompute_node_mbr_union |].
  revert Hcs. apply read_children_ind; [constructor |].
  intros child_id m' child cs' Hch Hcs'. constructor; [| assumption].
  unfold resolve_child in Hch. destruct (bool_decide _).
  - injection Hch as <-. constructor.
  - destruct (id_to_node !! child_id) eqn:Hl; [| discriminate].
    injection Hch as <-. eauto.
Qed.

Lemma read_lines_tight prog lines :
  forall (id_to_node : gmap Z Node) root0 root,
    (forall i c, id_to_node !! i = Some c -> tight c) ->
    (forall r, root0 = Some r -> tight r) ->
    read_lines prog lines id_to_node root0 = Ok (Some root) -> tight root.
Proof.
  induction lines as [| line lines IH]; intros id_to_node root0 root Hmap Hroot0;
    cbn [read_lines].
  - intros [= ->]. now apply Hroot0.
  - intros Hrun. apply bind_Ok_inv in Hrun as (n & Hn & Hrun).
    pose proof (read_node_tight _ _ _ _ Hmap Hn) as Htn.
    eapply IH; [| | exact Hrun].
    + intros i c. rewrite lookup_insert. case_decide; [| apply Hmap].
      now intros [= <-].
    + now intros r [= <-].
Qed.

(** C5. In every tree produced by the bulk loader, and in every tree
    rebuilt by a reader, the MBR of every internal node is the union of its
    children's MBRs: it covers them, and is covered by every rectangle that
    covers them. One level built over nodes with that property has it too,
    the donor and the recipient of a borrowing included. *)
Theorem produced_tree_tight :
  (forall root, produced root -> tight root)
  /\ (forall nodes id ups id',
        Forall tight nodes ->
        create_upper_level nodes id = Ok (ups, id') ->
        Forall tight ups).
Proof.
  split; [| exact create_upper_level_tight].
  intros root [entries r lines Hrun | prog file r Hrun].
  - unfold build_tree in Hrun.
    apply bind_Ok_inv in Hrun as ([nodes out] & Hlevels & Hrun).
    apply bind_Ok_inv in Hrun as (front & Hfront & Hrun).
    injection Hrun as Hroot <-. unfold as_internal in Hroot.
    destruct (is_internal front); [| discriminate]. injection Hroot as ->.
    apply build_levels_inv in Hlevels as (Ht & _).
    destruct nodes as [| n ns]; [discriminate |]. injection Hfront as ->.
    assert (Hall : Forall tight (r :: ns)).
    { apply Ht, Forall_forall. intros n Hn.
      apply list_elem_of_fmap in Hn as (e & -> & _). constructor. }
    now apply Forall_cons in Hall as [? _].
  - destruct file as [lines |]; [| discriminate]. simpl in Hrun.
    eapply read_lines_tight; [| | exact Hrun].
    + intros i c. now rewrite lookup_empty.
    + discriminate.
Qed.

(** C8 (as amended). On a line whose flag marks non-leaf children, every
    child id is looked up in the map and the result is used unchecked. When
    every id of the line is in the map, the children are the nodes the map
    holds for them, in order. When some id is not in the map, the behaviour
    is undefined: the reader neither raises an error nor prints a message. *)
Theorem dangling_reference_unchecked (prog : program)
    (id_to_node : gmap Z Node) (numbers : list text)
    (records : list (Z * MBR)) :
  child_records prog numbers records ->
  (Forall (fun r => is_Some (id_to_node !! r.1)) records ->
   exists cs, read_children prog false id_to_node numbers = Ok cs
              /\ Forall2 (fun c r => id_to_node !! r.1 = Some c) cs records)
  /\ (Exists (fun r => id_to_node !! r.1 = None) records ->
      read_children prog false id_to_node numbers = Undefined
      /\ ~ fatal (read_children prog false id_to_node numbers)).
Proof.
  intros Hrec. split.
  - induction Hrec as [| s a b c d numbers child_id m records Hs Hm Hrec IH].
    + intros _. exists []. split; [reflexivity | constructor].
    + intros [[n Hn] Hall]%Forall_cons. simpl in Hn.
      destruct (IH Hall) as (cs & Hcs & Hcs2).
      exists (n :: cs). rewrite read_children_cons, Hs, bind_Ok, Hm, bind_Ok.
      unfold resolve_child. rewrite Hn, bind_Ok, Hcs, bind_Ok.
      split; [reflexivity | now constructor].
  - intros Hex.
    assert (Hu : read_children prog false id_to_node numbers = Undefined).
    { induction Hrec as [| s a b c d numbers child_id m records Hs Hm Hrec IH].
      - now apply Exists_nil in Hex.
      - rewrite read_children_cons, Hs, bind_Ok, Hm, bind_Ok.
        unfold resolve_child. simpl.
        destruct (id_to_node !! child_id) as [n |] eqn:Hn; [| reflexivity].
        rewrite bind_Ok. apply Exists_cons in Hex as [Hex | Hex].
        + simpl in Hex. congruence.
        + now rewrite (IH Hex). }
    split; [exact Hu |]. rewrite Hu. intros [msg Hmsg]. discriminate.
Qed.

(** ** From polygons to a tree the queries can be asked of *)

Lemma computeMBR_loop_valid fuel :
  forall coords i endOffset m m',
    mbr_valid m ->
    computeMBR_loop fuel coords i endOffset m = Ok m' ->
    mbr_valid m'.
Proof.
  induction fuel as [| fuel IH]; intros coords i endOffset m m' Hm;
    cbn [computeMBR_loop]; destruct (i <=? endOffset); try discriminate;
    try (now intros [= <-]).
  intros Hrun. apply bind_Ok_inv in Hrun as (p & _ & Hrun).
  destruct (i =? INT_MAX); [discriminate |].
  apply IH in Hrun; [assumption |].
  destruct Hm as [Hx Hy]. split; cbn.
  - eapply Qle_trans; [apply std_min_l |].
    eapply Qle_trans; [exact Hx | apply std_max_l].
  - eapply Qle_trans; [apply std_min_l |].
    eapply Qle_trans; [exact Hy | apply std_max_l].
Qed.

Lemma vec_at_int_fuel {A} (v : list A) i : vec_at_int v i <> OutOfFuel.
Proof.
  unfold vec_at_int, vec_at. destruct (i <? 0); [discriminate |].
  destruct (v !! Z.to_nat i); discriminate.
Qed.

Lemma computeMBR_loop_fuel fuel :
  forall coords i endOffset m,
    endOffset - i < Z.of_nat fuel ->
    computeMBR_loop fuel coords i endOffset m <> OutOfFuel.
Proof.
  induction fuel as [| fuel IH]; intros coords i endOffset m Hf;
    cbn [computeMBR_loop]; destruct (i <=? endOffset) eqn:Hi;
    try discriminate.
  - apply Z.leb_le in Hi. lia.
  - pose proof (vec_at_int_fuel coords i) as Hv.
    destruct (vec_at_int coords i);
      try (cbv [mbind result_bind]; discriminate); [| congruence].
    rewrite bind_Ok.
    destruct (i =? INT_MAX); [discriminate |]. apply IH. lia.
Qed.

(** The rectangle of every entry is well formed. *)
Lemma computeMBRs_valid coords offsets :
  forall entries,
    computeMBRs coords offsets = Ok entries ->
    Forall (fun e => mbr_valid (Entry.mbr e)) entries.
Proof.
  induction offsets as [| r offsets IH]; intros entries; cbn [computeMBRs].
  - intros [= <-]. constructor.
  - intros Hrun. apply bind_Ok_inv in Hrun as (e & He & Hrun).
    apply bind_Ok_inv in Hrun as (es & Hes & [= <-]).
    apply Forall_cons_2; [| now apply IH].
    unfold computeMBR in He. apply bind_Ok_inv in He as (p & _ & He).
    destruct (OffsetRecord.startOffset r =? INT_MAX); [discriminate |].
    apply bind_Ok_inv in He as (m & Hm & [= <-]). cbn.
    eapply computeMBR_loop_valid; [| exact Hm]. split; apply Qle_refl.
Qed.

Lemma computeMBRs_fuel coords offsets : computeMBRs coords offsets <> OutOfFuel.
Proof.
  induction offsets as [| r offsets IH]; cbn [computeMBRs]; [discriminate |].
  assert (He : computeMBR coords r <> OutOfFuel).
  { unfold computeMBR.
    pose proof (vec_at_int_fuel coords (OffsetRecord.startOffset r)) as Hv.
    destruct (vec_at_int coords (OffsetRecord.startOffset r));
      try (cbv [mbind result_bind]; discriminate); [| congruence].
    rewrite bind_Ok.
    destruct (OffsetRecord.startOffset r =? INT_MAX); [discriminate |].
    pose proof (computeMBR_loop_fuel
                  (Z.to_nat (OffsetRecord.endOffset r - OffsetRecord.startOffset r))
                  coords (OffsetRecord.startOffset r + 1)
                  (OffsetRecord.endOffset r)
                  (mkMBR (Point.x a) (Point.y a) (Point.x a) (Point.y a))) as Hf.
    destruct (computeMBR_loop _ _ _ _ _);
      try (cbv [mbind result_bind]; discriminate).
    intros _. apply Hf; [lia | reflexivity]. }
  destruct (computeMBR coords r);
    try (cbv [mbind result_bind]; discriminate); [| congruence].
  rewrite bind_Ok. destruct (computeMBRs coords offsets);
    try (cbv [mbind result_bind]; discriminate).
  congruence.
Qed.

Lemma update_z_value_mbr entries :
  forall lines,
    Entry.mbr <$> update_z_value_to_entries entries lines = Entry.mbr <$> entries.
Proof.
  induction entries as [| e entries IH]; intros [| line lines];
    try reflexivity.
  cbn [update_z_value_to_entries fmap list_fmap]. f_equal. apply IH.
Qed.

Lemma build_leaf_nodes_leaves entries :
  build_leaf_nodes entries ≫= leaves = build_leaf_nodes entries.
Proof.
  unfold build_leaf_nodes. induction entries as [| e entries IH]; [reflexivity |].
  rewrite fmap_cons, bind_cons, IH. reflexivity.
Qed.

Lemma create_upper_level_leaves nodes id ups id' :
  create_upper_level nodes id = Ok (ups, id') ->
  ups ≫= leaves = nodes ≫= leaves.
Proof.
  intros Hrun.
  destruct (create_upper_level_spec _ _ _ _ Hrun) as (_ & _ & Hb & Hch & _).
  rewrite <- Hch. clear Hch Hrun.
  induction Hb as [| u ups (i & m & cs & -> & _) _ IH]; [reflexivity |].
  rewrite !bind_cons, bind_app, IH. reflexivity.
Qed.

Lemma build_levels_leaves fuel :
  forall nodes id out nodes' out',
    build_levels fuel nodes id out = Ok (nodes', out') ->
    nodes' ≫= leaves = nodes ≫= leaves.
Proof.
  induction fuel as [| fuel IH]; intros nodes id out nodes' out';
    cbn [build_levels]; destruct (1 <? length nodes)%nat;
    try discriminate; try (now intros [= <- <-]).
  intros Hrun. apply bind_Ok_inv in Hrun as ([ups id'] & Hup & Hrun).
  rewrite (IH _ _ _ _ _ Hrun). eapply create_upper_level_leaves, Hup.
Qed.

(** The leaves of the tree are the leaf nodes of the entries, in order. *)
Lemma build_tree_leaves entries root lines :
  build_tree (build_leaf_nodes entries) = Ok (Some root, lines) ->
  leaves root = build_leaf_nodes entries.
Proof.
  unfold build_tree. intros Hrun.
  apply bind_Ok_inv in Hrun as ([nodes out] & Hl & Hrun).
  apply bind_Ok_inv in Hrun as (front & Hfront & [= Hroot <-]).
  destruct (build_levels_inv _ _ _ _ _ _ Hl) as (_ & _ & Hlen & _).
  apply build_levels_leaves in Hl. rewrite build_leaf_nodes_leaves in Hl.
  destruct nodes as [| n [| n' nodes]]; [discriminate | | simpl in Hlen; lia].
  injection Hfront as Hn. subst front. unfold as_internal in Hroot.
  destruct (is_internal n); [| discriminate]. injection Hroot as Hn. subst n.
  rewrite <- Hl. cbn. now rewrite app_nil_r.
Qed.

(** What the query theorems ask of a tree holds of the trees the loader
    builds from polygons: every internal node covers its children, and the
    rectangles of the leaves are well formed, whatever z-values the entries
    are given and however [std::sort] orders them. *)
Lemma loader_tree_fit_for_queries `{StdSort} coords offsets z_values
    entries root lines :
  computeMBRs coords offsets = Ok entries ->
  build_tree (build_leaf_nodes
                (sortEntriesByZValue
                   (update_z_value_to_entries entries z_values)))
    = Ok (Some root, lines) ->
  covered root /\ Forall (fun l => mbr_valid (mbr l)) (leaves root).
Proof.
  intros Hentries Hrun. split.
  - apply tight_covered. unfold build_tree in Hrun.
    apply bind_Ok_inv in Hrun as ([nodes out] & Hl & Hrun).
    apply bind_Ok_inv in Hrun as (front & Hfront & [= Hroot _]).
    destruct (build_levels_inv _ _ _ _ _ _ Hl) as (Ht & _).
    assert (Hleaves : Forall tight nodes).
    { apply Ht. unfold build_leaf_nodes. apply Forall_fmap, Forall_forall.
      intros e _. constructor. }
    unfold vec_at in Hfront. destruct nodes as [| n nodes]; [discriminate |].
    injection Hfront as Hn. subst front. unfold as_internal in Hroot.
    destruct (is_internal n); [| discriminate]. injection Hroot as Hn. subst n.
    now apply Forall_cons in Hleaves as [? _].
  - rewrite (build_tree_leaves _ _ _ Hrun). unfold build_leaf_nodes.
    apply Forall_fmap. unfold sortEntriesByZValue. rewrite std_sort_perm.
    apply computeMBRs_valid in Hentries.
    apply (Forall_fmap (fun e => Entry.mbr e) mbr_valid).
    rewrite update_z_value_mbr. now apply Forall_fmap.
Qed.

(** ** Numbers as text *)

Lemma digit_cases d :
  0 <= d < 10 ->
  d = 0 \/ d = 1 \/ d = 2 \/ d = 3 \/ d = 4 \/ d = 5 \/ d = 6 \/ d = 7
  \/ d = 8 \/ d = 9.
Proof. lia. Qed.

Lemma isdigit_digit_char d : 0 <= d < 10 -> isdigit (digit_char d) = true.
Proof.
  intros H. destruct (digit_cases d H) as [-> | [-> | [-> | [-> | [-> | [-> |
    [-> | [-> | [-> | ->]]]]]]]]]; reflexivity.
Qed.

Lemma digit_val_digit_char d : 0 <= d < 10 -> digit_val (digit_char d) = d.
Proof.
  intros H. destruct (digit_cases d H) as [-> | [-> | [-> | [-> | [-> | [-> |
    [-> | [-> | [-> | ->]]]]]]]]]; reflexivity.
Qed.

Lemma digits_val_snoc ds c : digits_val (ds ++ [c]) = 10 * digits_val ds + digit_val c.
Proof. unfold digits_val. now rewrite foldl_snoc. Qed.

Lemma pad_digits_isdigit k : forall n, Forall (fun c => isdigit c = true) (pad_digits k n).
Proof.
  induction k as [| k IH]; intros n; simpl; [constructor |].
  apply Forall_app. split; [apply IH |].
  apply Forall_singleton, isdigit_digit_char, Z.mod_pos_bound. lia.
Qed.



Lemma dec_digits_isdigit fuel :
  forall n, Forall (fun c => isdigit c = true) (dec_digits fuel n).
Proof.
  induction fuel as [| fuel IH]; intros n; simpl; [constructor |].
  apply Forall_app. split.
  - destruct (n <? 10); [constructor | apply IH].
  - apply Forall_singleton, isdigit_digit_char, Z.mod_pos_bound. lia.
Qed.

Lemma dec_digits_val fuel :
  forall n, 0 <= n < 2 ^ Z.of_nat fuel -> digits_val (dec_digits fuel n) = n.
Proof.
  induction fuel as [| fuel IH]; intros n Hn.
  - simpl in Hn. assert (n = 0) as -> by lia. reflexivity.
  - cbn [dec_digits]. rewrite digits_val_snoc.
    rewrite digit_val_digit_char by (apply Z.mod_pos_bound; lia).
    rewrite Nat2Z.inj_succ, Z.pow_succ_r in Hn by lia.
    destruct (n <? 10) eqn:H10.
    + apply Z.ltb_lt in H10. change (digits_val []) with 0.
      rewrite Z.mod_small by lia. lia.
    + rewrite IH.
      * pose proof (Z.div_mod n 10). lia.
      * split; [apply Z.div_pos; lia |].
        apply Z.div_lt_upper_bound; lia.
Qed.

Lemma show_nat_isdigit n : Forall (fun c => isdigit c = true) (show_nat n).
Proof. apply dec_digits_isdigit. Qed.

Lemma show_nat_nonempty n : show_nat n <> [].
Proof.
  unfold show_nat. cbn [dec_digits]. intros H.
  apply (f_equal length) in H. rewrite length_app in H. simpl in H. lia.
Qed.

Lemma show_nat_val n : 0 <= n -> digits_val (show_nat n) = n.
Proof.
  intros Hn. apply dec_digits_val. split; [assumption |].
  destruct (decide (n = 0)) as [-> | Hne]; [reflexivity |].
  rewrite Nat2Z.inj_succ, Z2Nat.id by apply Z.log2_nonneg.
  apply Z.log2_spec. lia.
Qed.

(** ** [stoi] and [stod] read back what was written *)

Lemma span_digits_all ds rest :
  Forall (fun c => isdigit c = true) ds ->
  match rest with [] => True | c :: _ => isdigit c = false end ->
  span_digits (ds ++ rest) = (ds, rest).
Proof.
  intros Hds Hrest. induction Hds as [| c ds Hc Hds IH]; simpl.
  - destruct rest as [| c rest]; [reflexivity |]. simpl. now rewrite Hrest.
  - now rewrite Hc, IH.
Qed.

Lemma show_nat_head n :
  exists c ds, show_nat n = c :: ds /\ isdigit c = true.
Proof.
  pose proof (show_nat_isdigit n) as H. pose proof (show_nat_nonempty n) as Hne.
  destruct (show_nat n) as [| c ds]; [congruence |].
  apply Forall_cons in H as [Hc _]. eauto.
Qed.


Lemma strip_sign_digit c s : isdigit c = true -> strip_sign (c :: s) = (false, c :: s).
Proof.
  intros Hc. unfold strip_sign.
  destruct c as [[] [] [] [] [] [] [] []]; try reflexivity; discriminate.
Qed.




(** ** Rounding to millionths *)






















(** ** A coordinate read back *)


(** ** [extract_numbers] on the lines the loader writes *)

Lemma extract_loop_digits ds :
  Forall (fun c => isdigit c = true) ds ->
  forall prev rest curr numbers,
    extract_loop prev (ds ++ rest) curr numbers
    = extract_loop (match last ds with Some c => Some c | None => prev end)
                   rest (curr ++ ds) numbers.
Proof.
  induction 1 as [| c ds Hc Hds IH]; intros prev rest curr numbers.
  - simpl. now rewrite app_nil_r.
  - cbn [app extract_loop]. rewrite Hc. cbn [orb]. rewrite IH.
    rewrite <- (assoc_L (++)). cbn [app].
    destruct ds as [| d ds]; [reflexivity |].
    change (last (c :: d :: ds)) with (last (d :: ds)).
    destruct (last (d :: ds)) eqn:Hl; [reflexivity |].
    apply last_None in Hl. discriminate.
Qed.

Lemma extract_loop_minus prev rest curr numbers :
  match prev with None => True | Some p => isdigit p = false end ->
  extract_loop prev ("-"%char :: rest) curr numbers
  = extract_loop (Some "-"%char) rest (curr ++ ["-"%char]) numbers.
Proof.
  intros Hp. cbn [extract_loop].
  destruct prev as [p |]; [rewrite Hp |]; reflexivity.
Qed.

Lemma extract_loop_dot prev rest curr numbers b :
  last curr = Some b -> isdigit b = true ->
  extract_loop prev ("."%char :: rest) curr numbers
  = extract_loop (Some "."%char) rest (curr ++ ["."%char]) numbers.
Proof.
  intros Hl Hb. cbn [extract_loop]. rewrite Hl, Hb. reflexivity.
Qed.

Lemma extract_loop_sep c prev rest curr numbers :
  is_sep c = true ->
  extract_loop prev (c :: rest) curr numbers
  = extract_loop (Some c) rest []
      (if bool_decide (curr = []) then numbers else numbers ++ [curr]).
Proof.
  unfold is_sep. intros H.
  apply andb_true_iff in H as [H Hdot]. apply andb_true_iff in H as [Hd Hm].
  apply negb_true_iff in Hd, Hm, Hdot.
  cbn [extract_loop]. now rewrite Hd, Hm, Hdot.
Qed.

Lemma extract_loop_skip c prev rest numbers :
  is_sep c = true ->
  extract_loop prev (c :: rest) [] numbers = extract_loop (Some c) rest [] numbers.
Proof. intros H. now rewrite extract_loop_sep. Qed.

Lemma extract_loop_seps rest :
  Forall (fun c => is_sep c = true) rest ->
  forall prev numbers, extract_loop prev rest [] numbers = numbers.
Proof.
  induction 1 as [| c rest Hc Hrest IH]; intros prev numbers; [reflexivity |].
  rewrite extract_loop_skip by assumption. apply IH.
Qed.

Lemma last_digits ds :
  ds <> [] -> Forall (fun c => isdigit c = true) ds ->
  exists b, last ds = Some b /\ isdigit b = true.
Proof.
  intros Hne Hds. destruct (last ds) as [b |] eqn:Hl.
  - exists b. split; [reflexivity |].
    apply last_Some in Hl as [ds' ->]. apply Forall_app in Hds as [_ Hb].
    now rewrite Forall_singleton in Hb.
  - now apply last_None in Hl.
Qed.

(** A number between two separators is extracted whole. *)
Lemma extract_loop_number t p c rest numbers :
  number_text t -> isdigit p = false -> is_sep c = true ->
  extract_loop (Some p) (t ++ c :: rest) [] numbers
  = extract_loop (Some c) rest [] (numbers ++ [t]).
Proof.
  intros (neg & ds & fs & -> & Hne & Hds & Hfs) Hp Hc.
  destruct (last_digits ds Hne Hds) as (b & Hlast & Hb).
  assert (Hsign : forall tail,
    extract_loop (Some p) ((if neg then ["-"%char] else []) ++ ds ++ tail) [] numbers
    = extract_loop (Some b) tail ((if neg then ["-"%char] else []) ++ ds) numbers).
  { intros tail. destruct neg; cbn [app].
    - rewrite extract_loop_minus by exact Hp.
      rewrite extract_loop_digits by assumption. now rewrite Hlast.
    - rewrite extract_loop_digits by assumption. now rewrite Hlast. }
  assert (Hcurr : forall s : text, ds ++ s <> [] /\
            (if neg then ["-"%char] else []) ++ ds ++ s <> []).
  { intros s. destruct ds; [congruence |]. destruct neg; split; discriminate. }
  rewrite <- !(assoc_L (++)). rewrite Hsign.
  destruct Hfs as [-> | (fs' & -> & Hfs')].
  - cbn [app]. rewrite extract_loop_sep by assumption.
    rewrite app_nil_r. destruct (Hcurr []) as [_ Hn]. rewrite app_nil_r in Hn.
    now rewrite bool_decide_eq_false_2.
  - cbn [app].
    erewrite extract_loop_dot;
      [| rewrite last_app, Hlast; reflexivity | exact Hb].
    rewrite extract_loop_digits by assumption.
    rewrite extract_loop_sep by assumption.
    rewrite <- !(assoc_L (++)). cbn [app].
    destruct (Hcurr ("."%char :: fs')) as [_ Hn].
    now rewrite bool_decide_eq_false_2.
Qed.

Lemma number_text_show_int n : number_text (show_int n).
Proof.
  exists (n <? 0), (show_nat (Z.abs n)), [].
  split; [| split; [apply show_nat_nonempty | split; [apply show_nat_isdigit | now left]]].
  rewrite app_nil_r. unfold show_int. destruct (n <? 0) eqn:Hneg.
  - apply Z.ltb_lt in Hneg. now rewrite Z.abs_neq by lia.
  - apply Z.ltb_ge in Hneg. now rewrite Z.abs_eq by lia.
Qed.

Lemma number_text_show_fixed6 x : number_text (show_fixed6 x).
Proof.
  exists (dlt x 0), (show_nat (Z.abs (millionths x) / 1000000)),
    ("."%char :: pad_digits 6 (Z.abs (millionths x) mod 1000000)).
  split; [reflexivity |]. split; [apply show_nat_nonempty |].
  split; [apply show_nat_isdigit |]. right. eexists. split; [reflexivity |].
  apply pad_digits_isdigit.
Qed.

Lemma number_text_flag b : number_text (flag_text b).
Proof.
  exists false, (flag_text b), []. rewrite app_nil_r.
  split; [reflexivity |]. destruct b; (split; [discriminate |]);
    (split; [now repeat constructor | now left]).
Qed.

Lemma extract_loop_mbr m prev rest numbers :
  extract_loop prev (MBR_toString m ++ rest) [] numbers
  = extract_loop (Some "]"%char) rest []
      (numbers ++ [show_fixed6 (x_low m); show_fixed6 (x_high m);
                   show_fixed6 (y_low m); show_fixed6 (y_high m)]).
Proof.
  unfold MBR_toString, chars. cbn [String.list_ascii_of_string].
  rewrite <- !(assoc_L (++)). cbn [app].
  rewrite extract_loop_skip by reflexivity.
  rewrite (extract_loop_number (show_fixed6 (x_low m)) "["%char ","%char)
    by (auto using number_text_show_fixed6).
  rewrite extract_loop_skip by reflexivity.
  rewrite (extract_loop_number (show_fixed6 (x_high m)) " "%char ","%char)
    by (auto using number_text_show_fixed6).
  rewrite extract_loop_skip by reflexivity.
  rewrite (extract_loop_number (show_fixed6 (y_low m)) " "%char ","%char)
    by (auto using number_text_show_fixed6).
  rewrite extract_loop_skip by reflexivity.
  rewrite (extract_loop_number (show_fixed6 (y_high m)) " "%char "]"%char)
    by (auto using number_text_show_fixed6).
  rewrite <- !(assoc_L (++)). reflexivity.
Qed.

Lemma extract_loop_children cs :
  forall prev rest numbers,
    Forall (fun c => is_sep c = true) rest ->
    extract_loop prev (children_toString cs ++ rest) [] numbers
    = numbers ++ (cs ≫= child_numbers).
Proof.
  induction cs as [| c cs IH]; intros prev rest numbers Hrest.
  - cbn [children_toString app]. rewrite extract_loop_seps by assumption.
    now rewrite app_nil_r.
  - cbn [children_toString]. unfold chars. cbn [String.list_ascii_of_string].
    rewrite <- !(assoc_L (++)). cbn [app].
    rewrite extract_loop_skip by reflexivity.
    rewrite (extract_loop_number (show_int (node_id c)) "["%char ","%char)
      by (auto using number_text_show_int).
    rewrite extract_loop_skip by reflexivity.
    rewrite extract_loop_mbr.
    rewrite extract_loop_skip by reflexivity.
    rewrite bind_cons.
    assert (Hnum : ((numbers ++ [show_int (node_id c)])
                    ++ [show_fixed6 (x_low (mbr c)); show_fixed6 (x_high (mbr c));
                        show_fixed6 (y_low (mbr c)); show_fixed6 (y_high (mbr c))])
                   = numbers ++ child_numbers c).
    { now rewrite <- (assoc_L (++)). }
    destruct cs as [| c' cs].
    + cbn [app children_toString]. rewrite extract_loop_seps by assumption.
      rewrite Hnum. change ([] ≫= child_numbers) with (@nil text).
      now rewrite app_nil_r.
    + cbn [app].
      rewrite !extract_loop_skip by reflexivity.
      rewrite IH by assumption. now rewrite Hnum, <- (assoc_L (++)).
Qed.

(** The numbers of the line of an internal node: its flag, its id, and
    for every child its id and its four coordinates. *)
Lemma extract_numbers_toString i m flag cs :
  extract_numbers (toString (InternalNode i m flag cs))
  = flag_text flag :: show_int i :: (cs ≫= child_numbers).
Proof.
  unfold extract_numbers. cbn [toString].
  change (if flag then chars "0" else chars "1") with (flag_text flag).
  unfold chars. cbn [String.list_ascii_of_string].
  rewrite <- ?(assoc_L (++)). cbn [app].
  rewrite extract_loop_skip by reflexivity.
  rewrite (extract_loop_number (flag_text flag) "["%char ","%char)
    by (auto using number_text_flag).
  rewrite extract_loop_skip by reflexivity.
  rewrite (extract_loop_number (show_int i) " "%char ","%char)
    by (auto using number_text_show_int).
  rewrite !extract_loop_skip by reflexivity.
  rewrite extract_loop_children by (now repeat constructor).
  reflexivity.
Qed.

(** ** Reading back a written line (C6) *)
















(** ** Sorting the entries (C7) *)









Lemma strict_weak_transitive {A} (comp : A -> A -> bool) :
  StrictWeakOrder comp -> Transitive (not_after comp).
Proof. intros H a b c Hab Hbc. exact (swo_incomparable comp H c b a Hbc Hab). Qed.

Lemma strict_weak_total {A} (comp : A -> A -> bool) :
  StrictWeakOrder comp -> Total (not_after comp).
Proof.
  intros H a b. unfold not_after. destruct (comp b a) eqn:Hba; [| now left].
  right. destruct (comp a b) eqn:Hab; [| reflexivity].
  pose proof (swo_trans comp H _ _ _ Hab Hba) as Haa.
  now rewrite (swo_irrefl comp H) in Haa.
Qed.

Lemma merge_sort_sorted {A} (comp : A -> A -> bool) (l : list A) :
  StrictWeakOrder comp ->
  StronglySorted (fun a b => comp b a = false) (merge_sort (not_after comp) l).
Proof.
  intros H.
  pose proof (strict_weak_transitive comp H).
  pose proof (strict_weak_total comp H).
  apply (StronglySorted_merge_sort (not_after comp)).
Qed.

(** Two implementations that meet the contract of [std::sort]: a merge
    sort, and the same merge sort run on the reversed input. *)
#[global, refine] Instance merge_std_sort : StdSort := {|
  std_sort A comp l := merge_sort (not_after comp) l
|}.
Proof.
  - intros A comp l. apply merge_sort_Permutation.
  - intros A comp l. apply merge_sort_sorted.
Defined.



(** ** Further properties of the queries *)

Lemma filter_all {A} (P : A -> Prop) `{!forall x, Decision (P x)} (l : list A) :
  Forall P l -> filter P l = l.
Proof.
  induction 1 as [| a l Ha _ IH]; [reflexivity |].
  rewrite filter_cons_True by assumption. now rewrite IH.
Qed.

Lemma range_query_node_app q n :
  forall results,
    range_query_node n q results = results ++ range_query_node n q [].
Proof.
  induction n as [i m | i m b cs IH] using Node_forall_ind; intros results.
  - simpl. now rewrite app_nil_r.
  - cbn [range_query_node]. revert results.
    induction cs as [| c cs IHcs]; intros results.
    + simpl. now rewrite app_nil_r.
    + apply Forall_cons in IH as [IHc IH]. cbn [foldl].
      rewrite (IHcs IH), (IHcs IH (if negb _ then _ else _)).
      rewrite app_assoc. f_equal.
      destruct (mbr_intersects (mbr c) q); cbn [negb].
      * destruct (is_internal c); [apply IHc | reflexivity].
      * now rewrite app_nil_r.
Qed.

Lemma range_query_node_sublist q n :
  exists out,
    range_query_node n q [] = node_id <$> out
    /\ out `sublist_of` filter (hits q) (leaves_below n).
Proof.
  induction n as [i m | i m b cs IH] using Node_forall_ind.
  - exists []. split; [reflexivity | constructor].
  - unfold leaves_below. cbn [range_query_node children].
    induction cs as [| c cs IHcs].
    + exists []. split; [reflexivity | constructor].
    + apply Forall_cons in IH as [(oc & Hc & Hsub) IH].
      destruct (IHcs IH) as (ocs & Hcs & Hsubs). cbn [foldl].
      pose proof (range_query_node_app q (InternalNode i m b cs)) as Happ.
      cbn [range_query_node] in Happ.
      rewrite bind_cons, filter_app.
      destruct (mbr_intersects (mbr c) q) eqn:Hhit; cbn [negb].
      * destruct c as [ci cm | ci cm cb ccs]; cbn [is_internal].
        -- exists (Leaf ci cm :: ocs). split.
           ++ rewrite Happ. cbn [app].
              rewrite fmap_cons. cbn [node_id]. now rewrite <- Hcs.
           ++ cbn [leaves]. rewrite filter_cons_True by exact Hhit.
              rewrite filter_nil. cbn [app]. now constructor.
        -- exists (oc ++ ocs). split.
           ++ rewrite Happ, Hc.
              rewrite fmap_app. now rewrite <- Hcs.
           ++ apply sublist_app; assumption.
      * exists ocs. split; [exact Hcs |]. now apply sublist_inserts_l.
Qed.

(** X1. [range_query] only appends to [results]: what the vector held
    before the call stays in front, followed by what the same query finds
    when started on an empty vector. *)
Theorem range_query_appends (root : option Node) (q : MBR) (results : list Z) :
  range_query root q results = results ++ range_query root q [].
Proof.
  destruct root as [n |]; simpl.
  - apply range_query_node_app.
  - now rewrite app_nil_r.
Qed.

(** X2. On every tree, covered or not, [range_query] reports only ids of
    leaves whose rectangle intersects the query, each leaf at most once and
    in the order of the leaves: pruning can lose a leaf under a node whose
    MBR is too small, it cannot add one. *)
Theorem range_query_no_false_hit (root : Node) (q : MBR) :
  exists out,
    range_query (Some root) q [] = node_id <$> out
    /\ out `sublist_of` filter (fun l => mbr_intersects (mbr l) q = true)
                               (leaves_below root).
Proof. exact (range_query_node_sublist q root). Qed.

(** X3. On a covered tree with well-formed leaves, a query rectangle that
    contains the root's MBR returns the ids of all leaves, and a query
    rectangle that does not intersect the root's MBR returns nothing. *)
Theorem range_query_extent (root : Node) (q : MBR) :
  covered root ->
  Forall (fun l => mbr_valid (mbr l)) (leaves_below root) ->
  (mbr_contains q (mbr root) ->
   range_query (Some root) q [] = node_id <$> leaves_below root)
  /\ (mbr_intersects (mbr root) q = false ->
      range_query (Some root) q [] = []).
Proof.
  intros Hc Hv. cbn [range_query].
  rewrite (range_query_node_spec q root Hc []). cbn [app]. split.
  - intros Hq. f_equal. apply filter_all.
    rewrite Forall_forall in Hv |- *. intros l Hl.
    assert (Hin : mbr_contains (mbr root) (mbr l)).
    { destruct root as [i m | i m b cs]; [now apply elem_of_nil in Hl |].
      now apply covered_leaves. }
    destruct (Hv l Hl) as [Hx Hy]. apply mbr_intersects_closed.
    destruct Hq as (q1 & q2 & q3 & q4). destruct Hin as (r1 & r2 & r3 & r4).
    unfold intersects_closed. repeat split; lra.
  - intros Hq. destruct root as [i m | i m b cs]; [reflexivity |].
    change (leaves_below (InternalNode i m b cs))
      with (leaves (InternalNode i m b cs)).
    now rewrite (pruned_subtree_has_no_hit q _ Hc Hq).
Qed.

(** X4. [mbr_intersects] does not depend on the order of its arguments,
    and a rectangle intersects itself exactly when it is well formed
    ([x_low <= x_high] and [y_low <= y_high]). *)
Theorem mbr_intersects_symmetric (a b : MBR) :
  mbr_intersects a b = mbr_intersects b a
  /\ (mbr_intersects a a = true <-> mbr_valid a).
Proof.
  split.
  - unfold mbr_intersects.
    destruct (dlt (x_high a) (x_low b)), (dlt (x_high b) (x_low a)),
             (dlt (y_high a) (y_low b)), (dlt (y_high b) (y_low a));
      reflexivity.
  - rewrite mbr_intersects_closed. unfold intersects_closed, mbr_valid. tauto.
Qed.



(** X7. The number of neighbours asked for is converted to [size_t]: with
    [k = 0] a query returns no id, and with a negative [k] it returns the
    ids of all the leaves of the tree (fewer than [2^63]). *)
Theorem kn_query_nonpositive_k {PQ : PriorityQueue} (root : Node) (x y : Q)
    (k : Z) :
  - 2 ^ 31 <= k <= 0 ->
  Z.of_nat (length (leaves root)) < 2 ^ 63 ->
  exists out,
    kn_query (Some root) x y k = Ok (node_id <$> out)
    /\ (k = 0 -> out = [])
    /\ (k < 0 -> out ≡ₚ leaves root).
Proof.
  intros Hk Hn.
  destruct (kn_query_run root x y k) as (out & rest & Hrun & Hperm & Hlen & _).
  exists out. split; [exact Hrun |]. split.
  - intros ->. change (size_t_of_int 0) with 0 in Hlen.
    destruct out; [reflexivity |]. cbn [length] in Hlen. lia.
  - intros Hneg.
    assert (Hbig : size_t_of_int k = k + 2 ^ 64).
    { unfold size_t_of_int. symmetry. apply (Z.mod_unique _ _ (-1)); lia. }
    rewrite Hbig in Hlen.
    assert (Hrest : rest = []).
    { pose proof (Permutation_length Hperm) as Hl.
      rewrite length_app in Hl. destruct rest; [reflexivity |].
      cbn [length] in Hl. lia. }
    subst rest. now rewrite app_nil_r in Hperm.
Qed.

(** A second priority queue within the contract: new entries go to the
    back of the list, so that entries at the same distance leave the queue
    in another order than with [list_pq]. *)
#[global, refine] Instance back_pq : PriorityQueue := {|
  pq := list PQEntry;
  pq_new := [];
  pq_push e q := q ++ [e];
  pq_pop := list_pop;
  pq_contents q := q
|}.
Proof.
  - reflexivity.
  - intros e q. symmetry. apply Permutation_cons_append.
  - apply list_pop_None.
  - apply list_pop_Some.
Defined.




(** ** Further properties of the rectangles of a node *)

(** X9. [update_parent_mbr] returns the least rectangle that covers both
    the parent's and the child's: it covers both, every rectangle covering
    both covers it, and a parent that already covers the child is left
    unchanged. *)
Theorem update_parent_mbr_join (p c : MBR) :
  mbr_contains (update_parent_mbr p c) p
  /\ mbr_contains (update_parent_mbr p c) c
  /\ (forall m, mbr_contains m p -> mbr_contains m c ->
                mbr_contains m (update_parent_mbr p c))
  /\ (mbr_contains p c -> update_parent_mbr p c = p).
Proof.
  split; [apply update_parent_mbr_l |]. split; [apply update_parent_mbr_r |].
  split; [intros m; apply update_parent_mbr_least |].
  intros (H1 & H2 & H3 & H4). destruct p as [a b c' d].
  unfold update_parent_mbr, std_min, std_max. cbn in *.
  apply dlt_false in H1, H2, H3, H4. now rewrite H1, H2, H3, H4.
Qed.

(** X10. The MBR [recompute_node_mbr] gives a node does not depend on the
    order of its children: on a permutation of the children it returns a
    rectangle with the same four bounds (each rectangle covers the
    other). *)
Theorem recompute_node_mbr_order (cs cs' : list Node) (m : MBR) :
  cs ≡ₚ cs' ->
  recompute_node_mbr cs = Ok m ->
  exists m',
    recompute_node_mbr cs' = Ok m'
    /\ mbr_contains m m' /\ mbr_contains m' m.
Proof.
  intros Hperm Hm.
  assert (Hne : cs' <> []).
  { intros ->. apply Permutation_nil_r in Hperm as ->. discriminate. }
  destruct (recompute_node_mbr_nonempty cs' Hne) as [m' Hm']. exists m'.
  split; [exact Hm' |].
  apply recompute_node_mbr_union in Hm as [Hc Hl].
  apply recompute_node_mbr_union in Hm' as [Hc' Hl']. split.
  - apply Hl'. intros c Hin. apply Hc. now rewrite Hperm.
  - apply Hl. intros c Hin. apply Hc'. now rewrite <- Hperm.
Qed.

(** ** Further properties of the bulk loader *)

Lemma borrow_loop_enough needed :
  forall drev i dm rm rcs,
    needed - i < Z.of_nat (length drev) ->
    exists r, borrow_loop needed i drev dm rm rcs = Ok r.
Proof.
  induction drev as [| child drev IH]; intros i dm rm rcs Hlen;
    cbn [borrow_loop]; destruct (i <? needed) eqn:Hi; eauto.
  - apply Z.ltb_lt in Hi. cbn [length] in Hlen. lia.
  - apply Z.ltb_lt in Hi. cbn [length] in Hlen.
    destruct (recompute_node_mbr_nonempty (reverse drev)) as [m Hm].
    { intros H. apply (f_equal length) in H. rewrite length_reverse in H.
      cbn [length] in H. lia. }
    rewrite Hm, bind_Ok. apply IH. lia.
Qed.

Lemma create_upper_level_defined nodes id :
  (length nodes < 20 \/ length nodes mod 20 <= 8)%nat ->
  exists r, create_upper_level nodes id = Ok r.
Proof.
  intros Hsize. unfold create_upper_level, MAX_CHILDREN_PER_NODE.
  set (q := (length nodes / 20)%nat). set (r := (length nodes mod 20)%nat).
  assert (Hqr : length nodes = (q * 20 + r)%nat /\ (r < 20)%nat).
  { unfold q, r. pose proof (Nat.div_mod_eq (length nodes) 20).
    pose proof (Nat.mod_upper_bound (length nodes) 20). lia. }
  destruct Hqr as [Hn Hr]. fold r in Hsize.
  destruct (full_groups_spec q nodes id (id =? 0))
    as (ups0 & Hfull & Hlen0 & _ & Hb0 & Hc0 & _); [lia |].
  rewrite Hfull, bind_Ok. destruct (r =? 0)%nat eqn:Hr0; [eauto |].
  apply Nat.eqb_neq in Hr0.
  assert (Hg : drop (q * 20) nodes <> []).
  { intros H. apply (f_equal length) in H. rewrite length_drop in H.
    cbn [length] in H. lia. }
  destruct (group_node_ok (id + Z.of_nat q) (id =? 0) _ Hg) as (rm & Hgroup & _).
  rewrite Hgroup, bind_Ok.
  destruct ((0 <? _) && negb (bool_decide (ups0 = []))) eqn:Hcond; [| eauto].
  apply andb_true_iff in Hcond as [_ Hne].
  apply negb_true_iff, bool_decide_eq_false in Hne.
  assert (Hr8 : (r <= 8)%nat).
  { destruct Hsize as [Hsmall | Hle]; [| exact Hle].
    destruct ups0; [congruence |]. cbn [length] in Hlen0. lia. }
  destruct (last ups0) as [donor |] eqn:Hlast;
    [| apply last_None in Hlast; contradiction].
  apply last_Some in Hlast as [ups1 ->].
  apply Forall_app in Hb0 as [_ Hbd]. apply Forall_app in Hc0 as [_ Hcd].
  apply Forall_singleton in Hbd as (di & dm & dcs & -> & _).
  rewrite Forall_singleton in Hcd. cbn [children] in Hcd.
  rewrite needed_children_small by exact Hr8.
  destruct (borrow_loop_enough (8 - Z.of_nat r) (reverse dcs) 0 dm
              (mbr (InternalNode (id + Z.of_nat q) rm (id =? 0) (drop (q * 20) nodes)))
              (children (InternalNode (id + Z.of_nat q) rm (id =? 0) (drop (q * 20) nodes))))
    as ([[[drev' dm'] rm'] rcs'] & Hloop).
  { rewrite length_reverse. lia. }
  rewrite Hloop, bind_Ok. eauto.
Qed.

(** X11. A level built by [create_upper_level] groups the nodes in their
    order: the children of the new nodes, taken one node after the other,
    are the given nodes; the new nodes are internal nodes numbered from the
    counter on, which is advanced by their number, and there is one node
    for every 20 given nodes, plus one for a remainder. *)
Theorem create_upper_level_grouping (nodes ups : list Node) (id id' : Z) :
  create_upper_level nodes id = Ok (ups, id') ->
  ups ≫= children = nodes
  /\ node_id <$> ups = seqZ id (Z.of_nat (length ups))
  /\ id' = id + Z.of_nat (length ups)
  /\ length ups = (length nodes / 20
                   + (if (length nodes mod 20 =? 0)%nat then 0 else 1))%nat
  /\ Forall (fun u => is_internal u = true /\ leaf_flag u = (id =? 0)) ups.
Proof.
  intros Hrun.
  destruct (create_upper_level_spec _ _ _ _ Hrun)
    as (Hid & Hids & Hb & Hch & Hlen & _).
  repeat (split; [assumption |]).
  eapply Forall_impl; [exact Hb |].
  intros u (i & m & cs & -> & _). split; reflexivity.
Qed.

(** X12. When at least one group is full and the last group has 1 to 7
    members, the last two nodes of the level share the last [20 + r] given
    nodes: the full sibling keeps the first [12 + r] of them and the last
    node takes the 8 that follow, in their order; both MBRs are the unions
    of the children the nodes end with. *)
Theorem create_upper_level_borrowing (nodes ups : list Node) (id id' : Z) :
  (20 <= length nodes)%nat ->
  (0 < length nodes mod 20 < 8)%nat ->
  create_upper_level nodes id = Ok (ups, id') ->
  exists ups1 donor recipient,
    ups = ups1 ++ [donor; recipient]
    /\ children donor
       = take (12 + length nodes mod 20)
              (drop (length nodes - 20 - length nodes mod 20) nodes)
    /\ children recipient = drop (length nodes - 8) nodes
    /\ is_union (mbr donor) (children donor)
    /\ is_union (mbr recipient) (children recipient).
Proof.
  intros Hn Hr Hrun.
  destruct (create_upper_level_borrows _ _ _ _ Hn Hr Hrun)
    as (ups1 & donor & recipient & -> & H20 & Hd & Hrc & Hch & Hud & Hur).
  exists ups1, donor, recipient. split; [reflexivity |].
  rewrite bind_app, !bind_cons in Hch.
  change ([] ≫= children) with (@nil Node) in Hch. rewrite app_nil_r in Hch.
  assert (Hsum : length nodes
                 = (length (ups1 ≫= children) + (12 + length nodes mod 20) + 8)%nat).
  { apply (f_equal length) in Hch. rewrite !length_app in Hch. lia. }
  remember (length nodes) as n eqn:Hlen.
  assert (Hl1 : length (ups1 ≫= children) = (n - 20 - n mod 20)%nat) by lia.
  assert (Hl2 : length ((ups1 ≫= children) ++ children donor) = (n - 8)%nat).
  { rewrite length_app. lia. }
  split; [| split; [| split; assumption]].
  - rewrite <- Hch, <- Hl1, drop_app_length, <- Hd. now rewrite take_app_length.
  - rewrite <- Hch, app_assoc, <- Hl2. now rewrite drop_app_length.
Qed.

(** X13. A call of [create_upper_level] returns a level exactly when the
    nodes are fewer than 20 or leave a remainder of at most 8 modulo 20;
    otherwise (a full group and a remainder of 9 to 19) its behaviour is
    undefined. It never exits and never throws. *)
Theorem create_upper_level_defined_iff (nodes : list Node) (id : Z) :
  ((exists r, create_upper_level nodes id = Ok r)
   <-> (length nodes < 20 \/ length nodes mod 20 <= 8)%nat)
  /\ ((exists r, create_upper_level nodes id = Ok r)
      \/ create_upper_level nodes id = Undefined).
Proof.
  split; [split |].
  - intros [[ups id'] Hrun].
    destruct (create_upper_level_spec _ _ _ _ Hrun) as (_ & _ & _ & _ & _ & _ & H).
    destruct (decide (length nodes < 20)%nat) as [Hs | Hs]; [now left | right].
    apply H. apply Nat.div_le_lower_bound; lia.
  - apply create_upper_level_defined.
  - destruct (create_upper_level_total nodes id); eauto.
Qed.

Lemma build_levels_defined fuel :
  forall nodes id out,
    (length nodes <= fuel)%nat ->
    (exists r, build_levels fuel nodes id out = Ok r)
    <-> sizes_ok fuel (length nodes) = true.
Proof.
  induction fuel as [| fuel IH]; intros nodes id out Hfuel;
    cbn [build_levels sizes_ok]; destruct (1 <? length nodes)%nat eqn:Hn;
    try (split; [reflexivity | eauto]).
  - apply Nat.ltb_lt in Hn. lia.
  - apply Nat.ltb_lt in Hn. rewrite andb_true_iff, orb_true_iff.
    rewrite Nat.ltb_lt, Nat.leb_le. split.
    + intros [r Hrun]. apply bind_Ok_inv in Hrun as ([ups id'] & Hup & Hrun).
      pose proof (create_upper_level_shorter _ _ _ _ Hn Hup) as Hshort.
      destruct (create_upper_level_spec _ _ _ _ Hup)
        as (_ & _ & _ & _ & Hlen & _ & Hrem).
      split.
      * destruct (decide (length nodes < 20)%nat) as [Hs | Hs]; [now left |].
        right. apply Hrem. apply Nat.div_le_lower_bound; lia.
      * unfold upper_size. rewrite <- Hlen.
        apply (IH ups id' (out ++ (toString <$> ups))); [lia | eauto].
    + intros [Hsize Hrest].
      destruct (create_upper_level_defined nodes id Hsize) as [[ups id'] Hup].
      pose proof (create_upper_level_shorter _ _ _ _ Hn Hup) as Hshort.
      destruct (create_upper_level_spec _ _ _ _ Hup) as (_ & _ & _ & _ & Hlen & _).
      rewrite Hup, bind_Ok. apply IH; [lia |].
      unfold upper_size in Hrest. now rewrite Hlen.
Qed.

(** X14. Whether [build_tree] returns depends only on the number of leaves:
    with at least one leaf it returns exactly when every level up to the
    root has a size [create_upper_level] can group (fewer than 20 nodes, or
    a remainder of at most 8 modulo 20); with no leaf at all its behaviour
    is undefined. *)
Theorem build_tree_defined_iff (entries : list Entry.t) :
  (entries <> [] ->
   ((exists r, build_tree (build_leaf_nodes entries) = Ok r)
    <-> sizes_ok (length entries) (length entries) = true))
  /\ (entries = [] -> build_tree (build_leaf_nodes entries) = Undefined).
Proof.
  split; [| now intros ->].
  intros Hne. unfold build_tree.
  set (nodes := build_leaf_nodes entries).
  assert (Hlen : length nodes = length entries).
  { unfold nodes, build_leaf_nodes. apply length_fmap. }
  rewrite <- Hlen.
  rewrite <- (build_levels_defined (length nodes) nodes 0 []) by lia.
  split.
  - intros [r Hrun]. apply bind_Ok_inv in Hrun as (r' & Hl & _). eauto.
  - intros [[nodes' out'] Hl]. rewrite Hl, bind_Ok.
    destruct (build_levels_inv _ _ _ _ _ _ Hl) as (_ & _ & _ & Hne').
    destruct nodes' as [| front nodes'].
    + exfalso. apply Hne'; [| reflexivity]. intros H.
      apply (f_equal length) in H. rewrite Hlen in H.
      destruct entries; [congruence | discriminate].
    + cbn. eauto.
Qed.

(** X15. On a small input [build_tree] makes no level or one level: a
    single leaf gives a null root and an empty file; 2 to 20 leaves give a
    root with the id 0 and the flag for leaves whose children are the leaves
    in their order, and a file of one line, the root's. *)
Theorem build_tree_small (entries : list Entry.t) :
  (length entries = 1%nat ->
   build_tree (build_leaf_nodes entries) = Ok (None, []))
  /\ ((2 <= length entries <= 20)%nat ->
      exists m,
        build_tree (build_leaf_nodes entries)
        = Ok (Some (InternalNode 0 m true (build_leaf_nodes entries)),
              [toString (InternalNode 0 m true (build_leaf_nodes entries))])
        /\ is_union m (build_leaf_nodes entries)).
Proof.
  split.
  - destruct entries as [| e [| e' entries]]; try discriminate. reflexivity.
  - intros Hlen. unfold build_tree.
    set (nodes := build_leaf_nodes entries).
    assert (Hn : length nodes = length entries).
    { unfold nodes, build_leaf_nodes. apply length_fmap. }
    destruct (create_upper_level_defined nodes 0) as [[ups id'] Hup].
    { rewrite Hn. destruct (decide (length entries = 20%nat)) as [-> | ?];
        [right; cbn; lia | left; lia]. }
    destruct (create_upper_level_spec _ _ _ _ Hup)
      as (_ & Hids & Hb & Hch & Hl & _).
    assert (Hone : length ups = 1%nat).
    { rewrite Hl, Hn. destruct (decide (length entries = 20%nat)) as [-> | ?];
        [reflexivity |].
      rewrite Nat.div_small, Nat.mod_small by lia.
      destruct (length entries =? 0)%nat eqn:E; [apply Nat.eqb_eq in E; lia |].
      reflexivity. }
    destruct ups as [| u [| u' ups]]; try discriminate.
    apply Forall_singleton in Hb as (i & m & cs & -> & Hu).
    cbn in Hids. injection Hids as ->.
    rewrite bind_cons in Hch. change ([] ≫= children) with (@nil Node) in Hch.
    rewrite app_nil_r in Hch. cbn [children] in Hch. subst cs.
    exists m. split; [| exact Hu].
    destruct (length nodes) as [| k] eqn:Hk; [lia |].
    cbn [build_levels]. rewrite Hk.
    replace (1 <? S k)%nat with true by (symmetry; apply Nat.ltb_lt; lia).
    rewrite Hup, bind_Ok.
    destruct k; cbn [build_levels length Nat.ltb Nat.leb]; reflexivity.
Qed.

(** X16. Every polygon ends up as exactly one leaf of the tree: the leaves
    of the root are the leaf nodes of the sorted entries, in that order, so
    that their ids are a permutation of the ids of the offset records. *)
Theorem loader_keeps_every_polygon `{StdSort} (coords : list Point.t)
    (offsets : list OffsetRecord.t) (z_values : list string)
    (entries : list Entry.t) (root : Node) (lines : list text) :
  computeMBRs coords offsets = Ok entries ->
  build_tree (build_leaf_nodes
                (sortEntriesByZValue
                   (update_z_value_to_entries entries z_values)))
    = Ok (Some root, lines) ->
  leaves root
  = build_leaf_nodes
      (sortEntriesByZValue (update_z_value_to_entries entries z_values))
  /\ node_id <$> leaves root ≡ₚ OffsetRecord.id <$> offsets.
Proof.
  intros Hentries Hrun. pose proof (build_tree_leaves _ _ _ Hrun) as Hl.
  split; [exact Hl |]. rewrite Hl. unfold build_leaf_nodes.
  rewrite <- list_fmap_compose.
  change (node_id ∘ (fun entry => Leaf (Entry.id entry) (Entry.mbr entry)))
    with Entry.id.
  unfold sortEntriesByZValue. rewrite std_sort_perm.
  assert (Hid : forall es zs,
             Entry.id <$> update_z_value_to_entries es zs = Entry.id <$> es).
  { induction es as [| e es IH]; intros [| z zs]; try reflexivity.
    cbn [update_z_value_to_entries fmap list_fmap]. f_equal. apply IH. }
  rewrite Hid. clear Hrun Hl.
  revert entries Hentries.
  induction offsets as [| r offsets IH]; intros entries; cbn [computeMBRs].
  - now intros [= <-].
  - intros Hrun. apply bind_Ok_inv in Hrun as (e & He & Hrun).
    apply bind_Ok_inv in Hrun as (es & Hes & [= <-]).
    rewrite !fmap_cons. rewrite (IH es Hes).
    unfold computeMBR in He. apply bind_Ok_inv in He as (p & _ & He).
    destruct (OffsetRecord.startOffset r =? INT_MAX); [discriminate |].
    apply bind_Ok_inv in He as (m & _ & [= <-]). reflexivity.
Qed.

Lemma bottom_up_level written nodes ups id id' :
  bottom_up written ->
  Z.of_nat (length written) = id ->
  (written = [] /\ Forall (fun c => is_internal c = false) nodes)
  \/ (exists pre, written = pre ++ nodes) ->
  nodes <> [] ->
  create_upper_level nodes id = Ok (ups, id') ->
  bottom_up (written ++ ups) /\ Z.of_nat (length (written ++ ups)) = id'.
Proof.
  intros Hbu Hlen Hav Hne Hup.
  destruct (create_upper_level_spec _ _ _ _ Hup) as (Hid & Hids & Hb & Hch & _).
  split; [| rewrite length_app; lia].
  intros i u Hlook. apply lookup_app_Some in Hlook as [Hold | [Hi Hnew]].
  - destruct (Hbu i u Hold) as (Hint & Hnid & Hcs).
    split; [exact Hint |]. split; [exact Hnid |].
    eapply Forall_impl; [exact Hcs |]. intros c Hc. cbn in Hc |- *.
    destruct (leaf_flag u); [exact Hc |].
    destruct Hc as (j & Hj & Hcj). exists j. split; [exact Hj |].
    now apply lookup_app_l_Some.
  - set (k := (i - length written)%nat) in *.
    assert (Hu : u ∈ ups) by (eapply list_elem_of_lookup_2; exact Hnew).
    assert (Hnid : node_id u = Z.of_nat i).
    { assert (Hk : (node_id <$> ups) !! k = Some (node_id u)).
      { rewrite list_lookup_fmap, Hnew. reflexivity. }
      rewrite Hids in Hk. apply lookup_seqZ in Hk as [-> _]. lia. }
    rewrite Forall_forall in Hb. destruct (Hb u Hu) as (i0 & m & cs & -> & _).
    split; [reflexivity |]. split; [exact Hnid |].
    cbn [children leaf_flag]. apply Forall_forall. intros c Hc.
    assert (Hcn : c ∈ nodes).
    { rewrite <- Hch. apply list_elem_of_bind.
      exists (InternalNode i0 m (id =? 0) cs). split; [exact Hc | exact Hu]. }
    destruct (id =? 0) eqn:Hflag.
    + apply Z.eqb_eq in Hflag.
      destruct Hav as [[_ Hleaves] | [pre ->]].
      * rewrite Forall_forall in Hleaves. now apply Hleaves.
      * rewrite length_app in Hlen. destruct nodes; [congruence |].
        cbn [length] in Hlen. lia.
    + apply Z.eqb_neq in Hflag.
      destruct Hav as [[-> _] | [pre ->]]; [cbn in Hlen; lia |].
      apply list_elem_of_lookup_1 in Hcn as [j Hj].
      exists (length pre + j)%nat. split.
      * apply lookup_lt_Some in Hj. rewrite length_app in Hi. lia.
      * rewrite <- (assoc_L (++)). rewrite lookup_app_r by lia.
        rewrite lookup_app_l by (apply lookup_lt_Some in Hj; lia).
        now replace (length pre + j - length pre)%nat with j by lia.
Qed.

Lemma build_levels_written fuel :
  forall nodes id out nodes' out' written,
    build_levels fuel nodes id out = Ok (nodes', out') ->
    out = toString <$> written ->
    bottom_up written ->
    Z.of_nat (length written) = id ->
    (written = [] /\ Forall (fun c => is_internal c = false) nodes)
    \/ (exists pre, written = pre ++ nodes) ->
    exists written',
      out' = toString <$> written'
      /\ bottom_up written'
      /\ ((written' = written /\ nodes' = nodes)
          \/ (exists pre, written' = pre ++ nodes')).
Proof.
  induction fuel as [| fuel IH]; intros nodes id out nodes' out' written;
    cbn [build_levels]; destruct (1 <? length nodes)%nat eqn:Hn;
    try discriminate;
    try (intros [= <- <-] -> Hbu _ _; exists written; now eauto).
  intros Hrun -> Hbu Hlen Hav.
  apply bind_Ok_inv in Hrun as ([ups id'] & Hup & Hrun).
  assert (Hne : nodes <> []).
  { intros ->. discriminate. }
  destruct (bottom_up_level _ _ _ _ _ Hbu Hlen Hav Hne Hup) as [Hbu' Hlen'].
  destruct (IH _ _ _ _ _ (written ++ ups) Hrun) as (written' & Hout & Hb' & Hw);
    [now rewrite fmap_app | assumption | assumption | right; eauto |].
  exists written'. split; [exact Hout |]. split; [exact Hb' |]. right.
  destruct Hw as [[-> ->] | Hpre]; eauto.
Qed.

(** X17. The file [build_tree] writes can be read from top to bottom: its
    lines are those of internal nodes whose ids count the lines from 0;
    the children of a node with the flag for leaves are leaves, every other
    child is the node of an earlier line; and the root returned is the
    node of the last line (null when nothing is written). *)
Theorem written_lines_bottom_up (entries : list Entry.t) (root : option Node)
    (lines : list text) :
  build_tree (build_leaf_nodes entries) = Ok (root, lines) ->
  exists written,
    lines = toString <$> written
    /\ bottom_up written
    /\ root = last written.
Proof.
  unfold build_tree. intros Hrun.
  apply bind_Ok_inv in Hrun as ([nodes out] & Hl & Hrun).
  apply bind_Ok_inv in Hrun as (front & Hfront & [= <- <-]).
  destruct (build_levels_inv _ _ _ _ _ _ Hl) as (_ & _ & Hone & _).
  destruct (build_levels_written _ _ _ _ _ _ [] Hl) as (written & Hout & Hbu & Hw).
  - reflexivity.
  - intros i u Hi. discriminate.
  - reflexivity.
  - left. split; [reflexivity |]. unfold build_leaf_nodes.
    apply Forall_fmap, Forall_forall. now intros e _.
  - exists written. split; [exact Hout |]. split; [exact Hbu |].
    destruct nodes as [| n [| n' nodes]]; [discriminate | | cbn in Hone; lia].
    injection Hfront as Hn. subst front.
    destruct Hw as [[-> Hnodes] | [pre ->]].
    + destruct entries as [| e [| e' entries]]; try discriminate.
      injection Hnodes as ->. reflexivity.
    + rewrite last_snoc.
      destruct (Hbu (length pre) n) as (Hint & _).
      { now rewrite lookup_app_r, Nat.sub_diag by lia. }
      unfold as_internal. now rewrite Hint.
Qed.

Lemma create_upper_level_level nodes id ups id' h :
  Forall (level h) nodes ->
  (id =? 0) = (h =? 0)%nat ->
  create_upper_level nodes id = Ok (ups, id') ->
  Forall (level (S h)) ups.
Proof.
  intros Hnodes Hflag Hup.
  destruct (create_upper_level_spec _ _ _ _ Hup) as (_ & _ & Hb & Hch & _).
  rewrite Forall_forall in Hb |- *. intros u Hu.
  destruct (Hb u Hu) as (i & m & cs & -> & _). rewrite Hflag. constructor.
  rewrite Forall_forall in Hnodes |- *. intros c Hc. apply Hnodes.
  rewrite <- Hch. apply list_elem_of_bind.
  exists (InternalNode i m (id =? 0) cs). split; [exact Hc | exact Hu].
Qed.

Lemma build_levels_level fuel :
  forall nodes id out nodes' out' h,
    build_levels fuel nodes id out = Ok (nodes', out') ->
    Forall (level h) nodes ->
    (id =? 0) = (h =? 0)%nat ->
    0 <= id ->
    exists h', Forall (level h') nodes'.
Proof.
  induction fuel as [| fuel IH]; intros nodes id out nodes' out' h;
    cbn [build_levels]; destruct (1 <? length nodes)%nat eqn:Hn;
    try discriminate; try (intros [= <- <-]; now eauto).
  intros Hrun Hnodes Hflag Hid.
  apply bind_Ok_inv in Hrun as ([ups id'] & Hup & Hrun).
  pose proof (create_upper_level_level _ _ _ _ _ Hnodes Hflag Hup) as Hups.
  destruct (create_upper_level_spec _ _ _ _ Hup) as (Hid' & _ & _ & _ & Hlen & _).
  apply Nat.ltb_lt in Hn.
  assert (0 < length ups)%nat.
  { rewrite Hlen. destruct (length nodes mod 20 =? 0)%nat eqn:E; [| lia].
    apply Nat.eqb_eq in E. pose proof (Nat.div_mod_eq (length nodes) 20). lia. }
  eapply (IH _ _ _ _ _ (S h)); [exact Hrun | exact Hups | | lia].
  cbn [Nat.eqb]. apply Z.eqb_neq. lia.
Qed.

(** X18. A tree built by the loader is balanced: all its leaves are at the
    same depth below the root, and the flag of every internal node tells
    whether its children are leaves. *)
Theorem loader_tree_balanced (entries : list Entry.t) (root : Node)
    (lines : list text) :
  build_tree (build_leaf_nodes entries) = Ok (Some root, lines) ->
  exists h, level (S h) root.
Proof.
  unfold build_tree. intros Hrun.
  apply bind_Ok_inv in Hrun as ([nodes out] & Hl & Hrun).
  apply bind_Ok_inv in Hrun as (front & Hfront & [= Hroot _]).
  destruct (build_levels_level _ _ _ _ _ _ 0%nat Hl) as [h Hh].
  - unfold build_leaf_nodes. apply Forall_fmap, Forall_forall.
    intros e _. constructor.
  - reflexivity.
  - lia.
  - unfold vec_at in Hfront. destruct nodes as [| n nodes]; [discriminate |].
    injection Hfront as Hn. subst front.
    apply Forall_cons in Hh as [Hh _]. unfold as_internal in Hroot.
    destruct n as [i m | i m b cs]; [discriminate |].
    injection Hroot as <-. inversion Hh; subst. eauto.
Qed.

(** ** Further properties of the entries of the loader *)

Lemma vec_at_int_Ok {A} (v : list A) i a :
  vec_at_int v i = Ok a <-> 0 <= i /\ v !! Z.to_nat i = Some a.
Proof.
  unfold vec_at_int, vec_at. destruct (i <? 0) eqn:Hi.
  - apply Z.ltb_lt in Hi. split; [discriminate | lia].
  - apply Z.ltb_ge in Hi. destruct (v !! Z.to_nat i); split;
      try discriminate; intros; try split; try congruence; try lia.
    all: destruct H; congruence.
Qed.

Lemma vec_at_int_defined {A} (v : list A) i :
  (exists a, vec_at_int v i = Ok a) <-> 0 <= i < Z.of_nat (length v).
Proof.
  split.
  - intros [a [Hi Ha]%vec_at_int_Ok]. apply lookup_lt_Some in Ha. lia.
  - intros Hi. destruct (lookup_lt_is_Some_2 v (Z.to_nat i)) as [a Ha]; [lia |].
    exists a. apply vec_at_int_Ok. split; [lia | exact Ha].
Qed.

Lemma vec_at_int_cases {A} (v : list A) i :
  (exists a, vec_at_int v i = Ok a) \/ vec_at_int v i = Undefined.
Proof.
  unfold vec_at_int, vec_at. destruct (i <? 0); [now right |].
  destruct (v !! Z.to_nat i); eauto.
Qed.

Lemma computeMBR_loop_box fuel :
  forall coords i e m m',
    computeMBR_loop fuel coords i e m = Ok m' ->
    mbr_contains m' m
    /\ (forall j p, i <= j <= e -> coords !! Z.to_nat j = Some p ->
                    mbr_contains m' (point_mbr p))
    /\ (forall b, mbr_contains b m ->
                  (forall j p, i <= j <= e -> coords !! Z.to_nat j = Some p ->
                               mbr_contains b (point_mbr p)) ->
                  mbr_contains b m').
Proof.
  induction fuel as [| fuel IH]; intros coords i e m m';
    cbn [computeMBR_loop]; destruct (i <=? e) eqn:Hie; try discriminate.
  1, 3: apply Z.leb_gt in Hie; intros [= <-];
    (split; [apply mbr_contains_refl |]); (split; [intros; lia | now intros]).
  apply Z.leb_le in Hie. intros Hrun.
  apply bind_Ok_inv in Hrun as (p & [Hi Hp]%vec_at_int_Ok & Hrun).
  destruct (i =? INT_MAX); [discriminate |].
  change (mkMBR _ _ _ _) with (update_parent_mbr m (point_mbr p)) in Hrun.
  apply IH in Hrun as (Hm & Hpts & Hleast). split; [| split].
  - eapply mbr_contains_trans; [exact Hm | apply update_parent_mbr_l].
  - intros j p' Hj Hp'. destruct (decide (j = i)) as [-> | Hne].
    + assert (p' = p) as -> by congruence.
      eapply mbr_contains_trans; [exact Hm | apply update_parent_mbr_r].
    + apply (Hpts j); [lia | exact Hp'].
  - intros b Hb Hall. apply Hleast.
    + apply update_parent_mbr_least; [exact Hb |]. apply (Hall i); [lia | exact Hp].
    + intros j p' Hj. apply Hall. lia.
Qed.

Lemma computeMBR_loop_defined fuel :
  forall coords i e m,
    0 <= i -> e - i < Z.of_nat fuel ->
    Z.of_nat (length coords) <= INT_MAX ->
    ((exists m', computeMBR_loop fuel coords i e m = Ok m')
     <-> (e < i \/ e < Z.of_nat (length coords)))
    /\ ((exists m', computeMBR_loop fuel coords i e m = Ok m')
        \/ computeMBR_loop fuel coords i e m = Undefined).
Proof.
  induction fuel as [| fuel IH]; intros coords i e m Hi Hf Hmax;
    cbn [computeMBR_loop]; destruct (i <=? e) eqn:Hie.
  - apply Z.leb_le in Hie. lia.
  - apply Z.leb_gt in Hie. split; [split; [lia | eauto] | eauto].
  - apply Z.leb_le in Hie.
    destruct (decide (i < Z.of_nat (length coords))) as [Hin | Hout].
    + destruct (proj2 (vec_at_int_defined coords i)) as [p Hp]; [lia |].
      rewrite Hp, bind_Ok.
      replace (i =? INT_MAX) with false by (symmetry; apply Z.eqb_neq; lia).
      destruct (IH coords (i + 1) e
                  (mkMBR (std_min (x_low m) (Point.x p))
                         (std_min (y_low m) (Point.y p))
                         (std_max (x_high m) (Point.x p))
                         (std_max (y_high m) (Point.y p))))
        as [Hiff Hcases]; [lia | lia | exact Hmax |].
      split; [| exact Hcases]. rewrite Hiff. lia.
    + destruct (vec_at_int_cases coords i) as [[p Hp] | Hu].
      * exfalso. apply Hout. apply vec_at_int_defined. eauto.
      * rewrite Hu. split; [| now right].
        split; [intros [m' Hm']; discriminate | lia].
  - apply Z.leb_gt in Hie. split; [split; [lia | eauto] | eauto].
Qed.

Lemma computeMBR_defined coords r :
  Z.of_nat (length coords) <= INT_MAX ->
  ((exists e, computeMBR coords r = Ok e)
   <-> offsets_in_range (Z.of_nat (length coords)) r)
  /\ ((exists e, computeMBR coords r = Ok e)
      \/ computeMBR coords r = Undefined).
Proof.
  intros Hmax. unfold computeMBR, offsets_in_range.
  set (s := OffsetRecord.startOffset r). set (e := OffsetRecord.endOffset r).
  destruct (vec_at_int_cases coords s) as [[p Hp] | Hu].
  - assert (Hs : 0 <= s < Z.of_nat (length coords)).
    { apply vec_at_int_defined. eauto. }
    rewrite Hp, bind_Ok.
    replace (s =? INT_MAX) with false by (symmetry; apply Z.eqb_neq; lia).
    destruct (computeMBR_loop_defined (Z.to_nat (e - s)) coords (s + 1) e
                (mkMBR (Point.x p) (Point.y p) (Point.x p) (Point.y p)))
      as [Hiff [[m Hm] | Hund]]; [lia | lia | exact Hmax | |].
    + rewrite Hm, bind_Ok. split; [| eauto].
      split; [| eauto]. intros _. split; [exact Hs |].
      destruct (proj1 Hiff) as [? | ?]; eauto; lia.
    + rewrite Hund. split; [| now right]. split; [intros [? ?]; discriminate |].
      intros [_ He]. exfalso.
      destruct (proj2 Hiff) as [m Hm]; [lia |]. congruence.
  - rewrite Hu. split; [| now right]. split; [intros [? ?]; discriminate |].
    intros [Hs _]. exfalso.
    destruct (proj2 (vec_at_int_defined coords s) Hs) as [p Hp]. congruence.
Qed.

(** X19. The rectangle [computeMBRs] gives a record is the bounding box of
    its polygon: it covers every point read for the record and is covered
    by every rectangle that covers these points, so it is well formed. The
    entries come in the order of the records and carry their ids, with an
    empty z-value. *)
Theorem computeMBRs_bounding_boxes (coords : list Point.t)
    (offsets : list OffsetRecord.t) (entries : list Entry.t) :
  computeMBRs coords offsets = Ok entries ->
  Forall2 (fun r e =>
             Entry.id e = OffsetRecord.id r
             /\ Entry.z_value e = EmptyString
             /\ bounding_box coords r (Entry.mbr e)
             /\ mbr_valid (Entry.mbr e))
          offsets entries.
Proof.
  revert entries. induction offsets as [| r offsets IH]; intros entries;
    cbn [computeMBRs].
  - intros [= <-]. constructor.
  - intros Hrun. apply bind_Ok_inv in Hrun as (e & He & Hrun).
    apply bind_Ok_inv in Hrun as (es & Hes & [= <-]).
    constructor; [| now apply IH].
    unfold computeMBR in He.
    apply bind_Ok_inv in He as (p & [Hs Hp]%vec_at_int_Ok & He).
    destruct (OffsetRecord.startOffset r =? INT_MAX); [discriminate |].
    apply bind_Ok_inv in He as (m & Hm & [= <-]). cbn.
    split; [reflexivity |]. split; [reflexivity |]. split.
    + change (mkMBR _ _ _ _) with (point_mbr p) in Hm.
      apply computeMBR_loop_box in Hm as (H0 & Hpts & Hleast). split.
      * intros j p' [-> | Hj] Hp'.
        -- now assert (p' = p) as -> by congruence.
        -- apply (Hpts j); [lia | exact Hp'].
      * intros b Hb. apply Hleast.
        -- apply (Hb (OffsetRecord.startOffset r)); [now left | exact Hp].
        -- intros j p' Hj. apply Hb. right. lia.
    + eapply computeMBR_loop_valid; [| exact Hm]. split; apply Qle_refl.
Qed.

(** X20. [computeMBRs] checks no offset. With at most [INT_MAX]
    coordinates, it returns the entries exactly when every record has a
    start offset within the coordinates and an end offset before their
    end; otherwise a coordinate is read out of range, which is undefined
    behaviour. An end offset before the start offset is accepted: the
    polygon is then the one point at the start offset. *)
Theorem computeMBRs_defined_iff (coords : list Point.t)
    (offsets : list OffsetRecord.t) :
  Z.of_nat (length coords) <= INT_MAX ->
  ((exists entries, computeMBRs coords offsets = Ok entries)
   <-> Forall (offsets_in_range (Z.of_nat (length coords))) offsets)
  /\ ((exists entries, computeMBRs coords offsets = Ok entries)
      \/ computeMBRs coords offsets = Undefined).
Proof.
  intros Hmax. induction offsets as [| r offsets [IHiff IHcases]];
    cbn [computeMBRs].
  - split; [split; [constructor | eauto] | eauto].
  - destruct (computeMBR_defined coords r Hmax) as [Hiff [[e He] | Hu]].
    + rewrite He, bind_Ok. destruct IHcases as [[es Hes] | Hund].
      * rewrite Hes, bind_Ok. split; [| eauto]. split; [| eauto].
        intros _. constructor; [apply Hiff; eauto | apply IHiff; eauto].
      * rewrite Hund. split; [| now right].
        split; [intros [? ?]; discriminate |].
        intros [_ Hall]%Forall_cons. apply IHiff in Hall as [es Hes]. congruence.
    + rewrite Hu. split; [| now right]. split; [intros [? ?]; discriminate |].
      intros [Hr _]%Forall_cons. apply Hiff in Hr as [e He]. congruence.
Qed.

(** X21. [update_z_value_to_entries] keeps the number, the order, the ids
    and the rectangles of the entries. Entry [i] takes line [i] as its
    z-value when the file has such a line and keeps its z-value
    otherwise; lines beyond the number of entries are ignored. *)
Theorem update_z_value_to_entries_lookup (entries : list Entry.t)
    (lines : list string) :
  length (update_z_value_to_entries entries lines) = length entries
  /\ forall i e,
       entries !! i = Some e ->
       update_z_value_to_entries entries lines !! i
       = Some (Entry.mk (Entry.id e) (Entry.mbr e)
                        (default (Entry.z_value e) (lines !! i))).
Proof.
  revert lines. induction entries as [| e0 entries IH]; intros lines.
  - split; [now destruct lines |]. intros i e Hi. discriminate.
  - destruct lines as [| line lines].
    + split; [reflexivity |]. intros i e Hi. cbn [update_z_value_to_entries].
      rewrite Hi. now destruct e.
    + destruct (IH lines) as [Hlen Hlook]. split.
      * cbn [update_z_value_to_entries length]. now rewrite Hlen.
      * intros [| i] e Hi; cbn in Hi |- *.
        -- now injection Hi as ->.
        -- now apply Hlook.
Qed.

(** ** Further properties of the readers *)

Lemma token_from_snoc t :
  forall prev c,
    token_from prev t = true ->
    token_from (match last t with Some b => Some b | None => prev end) [c] = true ->
    token_from prev (t ++ [c]) = true.
Proof.
  induction t as [| a t IH]; intros prev c Ht Hc; [exact Hc |].
  cbn [app token_from] in *. apply andb_true_iff in Ht as [Ha Ht].
  apply andb_true_iff. split; [exact Ha |]. apply IH; [exact Ht |].
  destruct t as [| b t]; [exact Hc |].
  change (last (a :: b :: t)) with (last (b :: t)) in Hc.
  destruct (last (b :: t)) eqn:Hl; [exact Hc |].
  apply last_None in Hl. discriminate.
Qed.

Lemma extract_loop_tokens line :
  forall prev curr numbers,
    (curr = [] \/ (token_from None curr = true /\ last curr = prev)) ->
    Forall token_shape numbers ->
    Forall token_shape (extract_loop prev line curr numbers).
Proof.
  induction line as [| c line IH]; intros prev curr numbers Hcurr Hnum;
    cbn [extract_loop].
  - destruct (decide (curr = [])) as [-> | Hc];
      [exact Hnum | rewrite bool_decide_eq_false_2 by exact Hc].
    apply Forall_app. split; [exact Hnum |]. apply Forall_singleton.
    destruct Hcurr as [-> | [Ht _]]; [congruence | now split].
  - destruct (isdigit c || _ || _) eqn:Hacc.
    + apply IH; [| exact Hnum]. right. split; [| apply last_snoc].
      destruct Hcurr as [-> | [Ht Hl]].
      * cbn [app token_from last] in *. rewrite andb_true_r.
        apply orb_true_iff in Hacc as [Hacc | Hacc];
          [apply orb_true_iff in Hacc as [Hd | Hm] |].
        -- now rewrite Hd.
        -- apply andb_true_iff in Hm as [Hm _]. rewrite Hm. cbn.
           now rewrite orb_true_r.
        -- apply andb_true_iff in Hacc as [_ Hf]. discriminate.
      * apply token_from_snoc; [exact Ht |]. rewrite Hl.
        cbn [token_from]. rewrite andb_true_r.
        destruct prev as [p |].
        -- rewrite Hl in Hacc. exact Hacc.
        -- destruct curr as [| a curr]; [| now apply last_None in Hl].
           cbn [last] in Hacc. exact Hacc.
    + apply IH; [now left |].
      destruct (decide (curr = [])) as [-> | Hc];
        [exact Hnum | rewrite bool_decide_eq_false_2 by exact Hc].
      apply Forall_app. split; [exact Hnum |]. apply Forall_singleton.
      destruct Hcurr as [-> | [Ht _]]; [congruence | now split].
Qed.

Lemma extract_loop_kept line :
  forall prev curr numbers,
    exists rest,
      concat (extract_loop prev line curr numbers)
      = concat numbers ++ curr ++ rest
      /\ rest `sublist_of` line
      /\ filter (fun c => isdigit c = true) rest
         = filter (fun c => isdigit c = true) line.
Proof.
  induction line as [| c line IH]; intros prev curr numbers;
    cbn [extract_loop].
  - exists []. split; [| split; [constructor | reflexivity]].
    rewrite app_nil_r. destruct (decide (curr = [])) as [-> | Hc].
    + now rewrite app_nil_r.
    + rewrite bool_decide_eq_false_2 by exact Hc.
      rewrite concat_app. cbn. now rewrite app_nil_r.
  - destruct (isdigit c || _ || _) eqn:Hacc.
    + destruct (IH (Some c) (curr ++ [c]) numbers) as (rest & Hcat & Hsub & Hdig).
      exists (c :: rest). split; [| split].
      * rewrite Hcat, <- !(assoc_L (++)). reflexivity.
      * now constructor.
      * rewrite !filter_cons, Hdig. reflexivity.
    + apply orb_false_iff in Hacc as [Hacc _].
      apply orb_false_iff in Hacc as [Hd _].
      destruct (IH (Some c) [] (if bool_decide (curr = []) then numbers
                                 else numbers ++ [curr]))
        as (rest & Hcat & Hsub & Hdig).
      exists rest. split; [| split].
      * rewrite Hcat. cbn [app]. destruct (decide (curr = [])) as [-> | Hc].
        -- reflexivity.
        -- rewrite bool_decide_eq_false_2 by exact Hc.
           rewrite concat_app. cbn. now rewrite app_nil_r, <- (assoc_L (++)).
      * now constructor.
      * rewrite Hdig. rewrite filter_cons_False; [reflexivity |]. congruence.
Qed.

(** X22. Every number [extract_numbers] returns is non-empty and made of
    digits, of [-] signs that do not follow a digit and of points that
    follow a digit. The numbers, one after the other, are characters of the
    line in their order, and every digit of the line is in one of them. *)
Theorem extract_numbers_tokens (line : text) :
  Forall token_shape (extract_numbers line)
  /\ concat (extract_numbers line) `sublist_of` line
  /\ filter (fun c => isdigit c = true) (concat (extract_numbers line))
     = filter (fun c => isdigit c = true) line.
Proof.
  unfold extract_numbers. split.
  - apply extract_loop_tokens; [now left | constructor].
  - destruct (extract_loop_kept line None [] []) as (rest & -> & Hsub & Hdig).
    now split.
Qed.

(** X23. The numbers of the line [toString] writes for an internal node
    are the flag ([0] for a node over leaves, [1] otherwise), the id of the
    node and, for every child in order, its id followed by [x_low],
    [x_high], [y_low], [y_high] with six decimals: two numbers and five per
    child. *)
Theorem written_line_numbers (i : Z) (m : MBR) (flag : bool) (cs : list Node) :
  extract_numbers (toString (InternalNode i m flag cs))
  = (if flag then chars "0" else chars "1")
    :: show_int i
    :: (cs ≫= (fun c => [show_int (node_id c);
                          show_fixed6 (x_low (mbr c)); show_fixed6 (x_high (mbr c));
                          show_fixed6 (y_low (mbr c)); show_fixed6 (y_high (mbr c))]))
  /\ length (extract_numbers (toString (InternalNode i m flag cs)))
     = (2 + 5 * length cs)%nat.
Proof.
  rewrite extract_numbers_toString. split; [reflexivity |].
  assert (Hlen : length (cs ≫= child_numbers) = (5 * length cs)%nat).
  { induction cs as [| c cs IH]; [reflexivity |].
    rewrite bind_cons, length_app, IH. cbn [child_numbers length]. lia. }
  cbn [length]. rewrite Hlen. lia.
Qed.

Lemma read_children_length prog is_leaf id_to_node :
  forall numbers cs,
    read_children prog is_leaf id_to_node numbers = Ok cs ->
    length numbers = (5 * length cs)%nat.
Proof.
  intros numbers.
  induction numbers as [numbers IH] using (induction_ltof1 _ length).
  unfold ltof in IH. destruct numbers as [| s coords]; intros cs Hrun.
  - now injection Hrun as <-.
  - apply read_children_cons_inv in Hrun
      as (child_id & m & child & a & b & c & d & rest & cs' & _ & _ & _ & -> & Hrest & ->).
    apply IH in Hrest; [| cbn [length]; lia]. cbn [length]. lia.
Qed.

(** X24. A line is read as a node only if it holds two numbers and five
    more for each child, with at least one child: the node is internal, its
    id is the second number and fits an [int], its flag tells whether the
    first number is exactly [0], and its children are new leaves under that
    flag and nodes taken from the map otherwise. *)
Theorem read_node_shape (prog : program) (id_to_node : gmap Z Node)
    (line : text) (n : Node) :
  read_node prog id_to_node line = Ok n ->
  is_internal n = true
  /\ children n <> []
  /\ length (extract_numbers line) = (2 + 5 * length (children n))%nat
  /\ (exists s, extract_numbers line !! 1%nat = Some s /\ stoi s = Ok (node_id n))
  /\ - 2 ^ 31 <= node_id n < 2 ^ 31
  /\ leaf_flag n = bool_decide (extract_numbers line !! 0%nat = Some (chars "0"))
  /\ Forall (fun c => if leaf_flag n then is_internal c = false
                      else exists i, id_to_node !! i = Some c)
            (children n).
Proof.
  intros Hrun.
  apply read_node_inv in Hrun
    as (flag & s & i & cs & m & Hflag & Hs & Hi & Hcs & Hm & ->).
  cbn [is_internal children node_id leaf_flag].
  split; [reflexivity |]. split; [intros ->; discriminate |].
  split.
  { apply read_children_length in Hcs. rewrite length_drop in Hcs.
    apply lookup_lt_Some in Hs. lia. }
  split; [eauto |]. split.
  { unfold stoi in Hi. destruct (strip_sign s) as [neg s'].
    destruct (span_digits s') as [ds r]. destruct ds; [discriminate |].
    destruct (_ && _) eqn:Hrange; [| discriminate]. injection Hi as <-.
    apply andb_true_iff in Hrange as [H1 H2].
    apply Z.leb_le in H1. apply Z.ltb_lt in H2. lia. }
  split.
  { rewrite Hflag. apply bool_decide_ext. split; congruence. }
  revert Hcs. apply read_children_ind; [constructor |].
  intros child_id m' child cs' Hch Hcs'. constructor; [| exact Hcs'].
  unfold resolve_child in Hch. destruct (bool_decide (flag = chars "0")).
  - now injection Hch as <-.
  - destruct (id_to_node !! child_id) eqn:Hl; [| discriminate].
    injection Hch as <-. eauto.
Qed.

Lemma read_mbr_agree coords m :
  read_mbr RangeQueries coords = Ok m <-> read_mbr KNearestNeighbors coords = Ok m.
Proof.
  unfold read_mbr.
  destruct (vec_at coords 0 ≫= stod) as [a | | | |];
    try (cbv [mbind result_bind]; split; discriminate).
  rewrite !bind_Ok.
  destruct (vec_at coords 1 ≫= stod) as [b | | | |];
  destruct (vec_at coords 2 ≫= stod) as [c | | | |];
    try (cbv [mbind result_bind]; split; discriminate).
  reflexivity.
Qed.

Lemma read_children_agree is_leaf id_to_node :
  forall numbers cs,
    read_children RangeQueries is_leaf id_to_node numbers = Ok cs
    <-> read_children KNearestNeighbors is_leaf id_to_node numbers = Ok cs.
Proof.
  intros numbers.
  induction numbers as [numbers IH] using (induction_ltof1 _ length).
  unfold ltof in IH. destruct numbers as [| s coords]; intros cs; [reflexivity |].
  rewrite !read_children_cons.
  destruct (stoi s) as [child_id | | | |]; try reflexivity.
  rewrite !bind_Ok.
  destruct (read_mbr RangeQueries coords) as [m | | | |] eqn:Hrq.
  - apply read_mbr_agree in Hrq. rewrite Hrq, !bind_Ok.
    destruct (resolve_child is_leaf id_to_node child_id m); try reflexivity.
    rewrite !bind_Ok.
    destruct coords as [| n1 [| n2 [| n3 [| n4 rest]]]]; try reflexivity.
    split; intros Hrun; apply bind_Ok_inv in Hrun as (cs' & Hcs' & Hrun);
      apply IH in Hcs'; try (cbn [length]; lia);
      now rewrite Hcs', bind_Ok.
  - split; [discriminate |]. intros Hrun.
    apply bind_Ok_inv in Hrun as (m & Hm & _).
    apply read_mbr_agree in Hm. congruence.
  - split; [discriminate |]. intros Hrun.
    apply bind_Ok_inv in Hrun as (m & Hm & _).
    apply read_mbr_agree in Hm. congruence.
  - split; [discriminate |]. intros Hrun.
    apply bind_Ok_inv in Hrun as (m & Hm & _).
    apply read_mbr_agree in Hm. congruence.
  - split; [discriminate |]. intros Hrun.
    apply bind_Ok_inv in Hrun as (m & Hm & _).
    apply read_mbr_agree in Hm. congruence.
Qed.

Lemma read_node_agree id_to_node line n :
  read_node RangeQueries id_to_node line = Ok n
  <-> read_node KNearestNeighbors id_to_node line = Ok n.
Proof.
  unfold read_node.
  destruct (vec_at (extract_numbers line) 0) as [flag | | | |]; try reflexivity.
  rewrite !bind_Ok.
  destruct (vec_at (extract_numbers line) 1) as [s | | | |]; try reflexivity.
  rewrite !bind_Ok. destruct (stoi s) as [i | | | |]; try reflexivity.
  rewrite !bind_Ok.
  split; intros Hrun; apply bind_Ok_inv in Hrun as (cs & Hcs & Hrun);
    apply read_children_agree in Hcs; now rewrite Hcs, bind_Ok.
Qed.

Lemma read_lines_agree lines :
  forall id_to_node root r,
    read_lines RangeQueries lines id_to_node root = Ok r
    <-> read_lines KNearestNeighbors lines id_to_node root = Ok r.
Proof.
  induction lines as [| line lines IH]; intros id_to_node root r;
    cbn [read_lines]; [reflexivity |].
  split; intros Hrun; apply bind_Ok_inv in Hrun as (n & Hn & Hrun);
    apply read_node_agree in Hn; apply IH in Hrun;
    now rewrite Hn, bind_Ok.
Qed.

(** X25. The two copies of [build_tree_from_file], which convert the four
    coordinates of a child in different orders, return the same tree: on
    every file, one copy returns a root exactly when the other returns the
    same root. (On a file that neither can read they may fail in different
    ways.) *)
Theorem readers_agree (file : option (list text)) (r : option Node) :
  build_tree_from_file RangeQueries file = Ok r
  <-> build_tree_from_file KNearestNeighbors file = Ok r.
Proof.
  destruct file as [lines |]; cbn [build_tree_from_file]; [| reflexivity].
  apply read_lines_agree.
Qed.

Lemma read_lines_null prog lines :
  forall id_to_node root,
    read_lines prog lines id_to_node root = Ok None ->
    lines = [] /\ root = None.
Proof.
  induction lines as [| line lines IH]; intros id_to_node root;
    cbn [read_lines].
  - now intros [= ->].
  - intros Hrun. apply bind_Ok_inv in Hrun as (n & _ & Hrun).
    apply IH in Hrun as [_ Hroot]. discriminate.
Qed.

(** X26. A reader returns a null root exactly on an empty file. On such a
    file the range-query program answers a query with no result, whereas
    the k-NN program takes the MBR of the null root, which is undefined
    behaviour. *)
Theorem empty_tree_file `{PriorityQueue} (prog : program) (lines : list text)
    (q : MBR) (x y : Q) (k : Z) :
  (build_tree_from_file prog (Some lines) = Ok None <-> lines = [])
  /\ (root ← build_tree_from_file RangeQueries (Some []);
      Ok (range_query root q [])) = Ok []
  /\ (root ← build_tree_from_file KNearestNeighbors (Some []);
      kn_query root x y k) = Undefined.
Proof.
  split; [| split; reflexivity]. cbn [build_tree_from_file]. split.
  - intros Hrun. now apply read_lines_null in Hrun as [-> _].
  - now intros ->.
Qed.

(** ** The offsets file *)

Lemma skip_spaces_head c s : isspace c = false -> skip_spaces (c :: s) = c :: s.
Proof. intros H. cbn [skip_spaces]. now rewrite H. Qed.

Lemma isdigit_not_space c : isdigit c = true -> isspace c = false.
Proof. destruct c as [[] [] [] [] [] [] [] []]; try reflexivity; discriminate. Qed.

Lemma isdigit_not_comma c : isdigit c = true -> c <> ","%char.
Proof. intros H ->. discriminate. Qed.

(** The reader of the tree applies [std::stoi] to numbers of a line only:
    on these, the conversion with a sign [-] alone is the general one. *)
Lemma stoi_std_stoi t : token_shape t -> stoi t = std_stoi t.
Proof.
  intros [Hne Ht]. destruct t as [| c t]; [congruence |].
  unfold stoi, std_stoi. cbn [token_from] in Ht.
  apply andb_true_iff in Ht as [Hc _].
  apply orb_true_iff in Hc as [Hc | Hc]; [apply orb_true_iff in Hc as [Hc | Hc] |].
  - rewrite skip_spaces_head by now apply isdigit_not_space.
    rewrite strip_sign_digit by exact Hc.
    destruct c as [[] [] [] [] [] [] [] []]; try discriminate; reflexivity.
  - apply andb_true_iff in Hc as [Hc _]. apply bool_decide_eq_true in Hc as ->.
    reflexivity.
  - apply andb_true_iff in Hc as [_ Hc]. discriminate.
Qed.

Lemma std_stoi_show_int n rest :
  - 2 ^ 31 <= n < 2 ^ 31 ->
  match rest with [] => True | c :: _ => isdigit c = false end ->
  std_stoi (show_int n ++ rest) = Ok n.
Proof.
  intros Hn Hrest. unfold std_stoi.
  assert (Hshow : show_int n
                  = (if n <? 0 then ["-"%char] else []) ++ show_nat (Z.abs n)).
  { unfold show_int. destruct (n <? 0) eqn:Hneg.
    - apply Z.ltb_lt in Hneg. now rewrite Z.abs_neq by lia.
    - apply Z.ltb_ge in Hneg. now rewrite Z.abs_eq by lia. }
  destruct (show_nat_head (Z.abs n)) as (c & ds & Heq & Hc).
  assert (Hstrip : strip_any_sign (skip_spaces (show_int n ++ rest))
                   = (n <? 0, show_nat (Z.abs n) ++ rest)).
  { rewrite Hshow. destruct (n <? 0); cbn [app].
    - reflexivity.
    - rewrite Heq. cbn [app]. rewrite skip_spaces_head
        by now apply isdigit_not_space.
      destruct c as [[] [] [] [] [] [] [] []]; try discriminate; reflexivity. }
  rewrite Hstrip.
  rewrite span_digits_all by (apply show_nat_isdigit || exact Hrest).
  rewrite Heq at 1. rewrite show_nat_val by lia.
  assert (Hv : (if n <? 0 then - Z.abs n else Z.abs n) = n).
  { destruct (n <? 0) eqn:Hneg; [apply Z.ltb_lt in Hneg | apply Z.ltb_ge in Hneg]; lia. }
  cbv zeta. rewrite Hv.
  replace ((- 2 ^ 31 <=? n) && (n <? 2 ^ 31)) with true; [reflexivity |].
  symmetry. apply andb_true_iff. split; [apply Z.leb_le | apply Z.ltb_lt]; lia.
Qed.

Lemma std_stoi_cases s :
  (exists n, std_stoi s = Ok n /\ - 2 ^ 31 <= n < 2 ^ 31)
  \/ (exists e, std_stoi s = Throw e).
Proof.
  unfold std_stoi. destruct (strip_any_sign (skip_spaces s)) as [neg s'].
  destruct (span_digits s') as [ds r]. destruct ds as [| d ds]; [eauto |].
  destruct (_ && _) eqn:Hr; [| eauto]. left. eexists. split; [reflexivity |].
  apply andb_true_iff in Hr as [H1 H2].
  apply Z.leb_le in H1. apply Z.ltb_lt in H2. lia.
Qed.

Lemma split_at_spec delim s :
  match split_at delim s with
  | (token, Some rest) => s = token ++ delim :: rest /\ delim ∉ token
  | (token, None) => s = token /\ delim ∉ token
  end.
Proof.
  induction s as [| c s IH]; cbn [split_at].
  - split; [reflexivity | apply not_elem_of_nil].
  - case_bool_decide as Hc.
    + subst c. split; [reflexivity | apply not_elem_of_nil].
    + destruct (split_at delim s) as [token [rest |]]; destruct IH as [-> Hin];
        (split; [reflexivity |]); apply not_elem_of_cons; split; congruence.
Qed.

Lemma split_at_app delim a s :
  delim ∉ a ->
  split_at delim (a ++ s)
  = (a ++ (split_at delim s).1, (split_at delim s).2).
Proof.
  induction a as [| c a IH]; intros Hin; cbn [app split_at].
  - now destruct (split_at delim s).
  - apply not_elem_of_cons in Hin as [Hc Hin].
    rewrite bool_decide_eq_false_2 by congruence.
    rewrite (IH Hin). reflexivity.
Qed.

Lemma split_at_found delim a rest :
  delim ∉ a -> split_at delim (a ++ delim :: rest) = (a, Some rest).
Proof.
  intros Hin. rewrite split_at_app by exact Hin. cbn [split_at].
  rewrite bool_decide_eq_true_2 by reflexivity. cbn. now rewrite app_nil_r.
Qed.

Lemma split_at_head delim s :
  match (split_at delim s).1 with
  | [] => True
  | c :: _ => head s = Some c
  end.
Proof.
  destruct s as [| c s]; cbn [split_at]; [exact I |].
  case_bool_decide; [exact I |]. now destruct (split_at delim s).
Qed.

Lemma getline_nonempty s delim :
  s <> [] -> getline (Some s) delim = Some (split_at delim s).
Proof. destruct s; [congruence | reflexivity]. Qed.

Lemma readOffsets_line_three line a b c :
  three_fields line a b c ->
  readOffsets_line line
  = (id ← std_stoi a;
     startOffset ← std_stoi b;
     endOffset ← std_stoi (split_at newline c).1;
     Ok (OffsetRecord.mk id startOffset endOffset)).
Proof.
  intros (-> & Ha & Hb & Hc). unfold readOffsets_line.
  rewrite getline_nonempty by (destruct a; discriminate).
  rewrite split_at_found by exact Ha.
  rewrite getline_nonempty by (destruct b; discriminate).
  rewrite split_at_found by exact Hb.
  rewrite getline_nonempty by exact Hc.
  now destruct (split_at newline c).
Qed.

Lemma show_int_no_comma n : ","%char ∉ show_int n.
Proof.
  assert (H : Forall (fun c => c <> ","%char) (show_int n)).
  { unfold show_int. destruct (n <? 0).
    - constructor; [discriminate |].
      eapply Forall_impl; [apply show_nat_isdigit |]. apply isdigit_not_comma.
    - eapply Forall_impl; [apply show_nat_isdigit |]. apply isdigit_not_comma. }
  rewrite Forall_forall in H. intros Hin. now apply (H _ Hin).
Qed.

Lemma show_int_nonempty n : show_int n <> [].
Proof.
  unfold show_int. destruct (n <? 0); [discriminate | apply show_nat_nonempty].
Qed.

(** X27. [readOffsets] returns the records of a file whose lines give, for
    each record, the id, the start offset and the end offset in decimal
    (within the range of [int]) separated by commas; characters that follow
    the end offset on a line are ignored, provided they do not start with a
    digit. *)
Theorem readOffsets_numbers (lines : list text)
    (records : list OffsetRecord.t) :
  Forall2 (fun line r =>
             offsets_in_int r
             /\ exists rest,
                  line = offset_line r ++ rest
                  /\ match rest with [] => True | c :: _ => isdigit c = false end)
          lines records ->
  readOffsets (Some lines) = Ok records.
Proof.
  cbn [readOffsets].
  induction 1 as [| line r lines records (Hint & rest & -> & Hrest) _ IH];
    cbn [readOffsets_lines]; [reflexivity |].
  destruct Hint as (Hi & Hs & He). destruct r as [i s e]. cbn in Hi, Hs, He.
  rewrite (readOffsets_line_three _ (show_int i) (show_int s) (show_int e ++ rest)).
  - rewrite <- (app_nil_r (show_int i)), <- (app_nil_r (show_int s)).
    rewrite !std_stoi_show_int by (assumption || exact I). rewrite !bind_Ok.
    rewrite split_at_app; cbn [fst].
    + rewrite std_stoi_show_int; [| exact He |].
      * rewrite !bind_Ok, IH, bind_Ok. reflexivity.
      * pose proof (split_at_head newline rest) as Hh.
        destruct ((split_at newline rest).1) as [| c t]; [exact I |].
        destruct rest as [| c' rest]; [discriminate |].
        injection Hh as ->. exact Hrest.
    + assert (H : Forall (fun c => c <> newline) (show_int e)).
      { unfold show_int. destruct (e <? 0).
        - constructor; [discriminate |].
          eapply Forall_impl; [apply show_nat_isdigit |].
          intros c Hc ->. discriminate.
        - eapply Forall_impl; [apply show_nat_isdigit |].
          intros c Hc ->. discriminate. }
      rewrite Forall_forall in H. intros Hin. now apply (H _ Hin).
  - unfold three_fields, offset_line. cbn.
    split; [repeat (rewrite <- app_assoc || rewrite <- app_comm_cons);
            reflexivity |].
    split; [apply show_int_no_comma |]. split; [apply show_int_no_comma |].
    intros H. apply app_eq_nil in H as [H _]. now apply show_int_nonempty in H.
Qed.

(** X28. A line of the offsets file makes [readOffsets] exit with the
    message for a read error exactly when it does not have three fields,
    that is two commas and at least one character after the second. A
    line with three fields is converted field by field from left to right,
    the third field ending at the end of the line: it gives a record or
    throws the exception of the first field [std::stoi] rejects. *)
Theorem readOffsets_line_exit (line : text) :
  (readOffsets_line line = Exit "Error reading offsets file"
   <-> ~ exists a b c, three_fields line a b c)
  /\ (forall a b c,
        three_fields line a b c ->
        readOffsets_line line
        = (id ← std_stoi a;
           startOffset ← std_stoi b;
           endOffset ← std_stoi (split_at newline c).1;
           Ok (OffsetRecord.mk id startOffset endOffset))).
Proof.
  split; [| apply readOffsets_line_three]. split.
  - intros Hexit (a & b & c & H3).
    rewrite (readOffsets_line_three _ _ _ _ H3) in Hexit.
    destruct (std_stoi_cases a) as [(i & Hi & _) | (e & He)];
      rewrite ?Hi, ?He in Hexit; [rewrite bind_Ok in Hexit | discriminate].
    destruct (std_stoi_cases b) as [(s & Hs & _) | (e & He)];
      rewrite ?Hs, ?He in Hexit; [rewrite bind_Ok in Hexit | discriminate].
    destruct (std_stoi_cases (split_at newline c).1) as [(n & Hn & _) | (e & He)];
      rewrite ?Hn, ?He in Hexit; discriminate.
  - intros Hno. unfold readOffsets_line.
    destruct line as [| c0 line]; [reflexivity |].
    rewrite getline_nonempty by discriminate.
    pose proof (split_at_spec ","%char (c0 :: line)) as H1.
    destruct (split_at ","%char (c0 :: line)) as [a [s1 |]];
      [| reflexivity].
    destruct H1 as [Hline Ha].
    destruct s1 as [| c1 s1]; [reflexivity |].
    rewrite getline_nonempty by discriminate.
    pose proof (split_at_spec ","%char (c1 :: s1)) as H2.
    destruct (split_at ","%char (c1 :: s1)) as [b [s2 |]]; [| reflexivity].
    destruct H2 as [Hs1 Hb].
    destruct s2 as [| c2 s2]; [reflexivity |].
    exfalso. apply Hno. exists a, b, (c2 :: s2).
    split; [now rewrite Hline, Hs1 |]. split; [exact Ha |].
    split; [exact Hb | discriminate].
Qed.

(** ** From the loader to the queries, through the file *)







(** * The claims at concrete inputs *)

Lemma three_leaves_covered : covered three_leaves.
Proof.
  unfold three_leaves. constructor.
  - repeat (apply Forall_cons_2 || apply Forall_nil_2);
      unfold mbr_contains; simpl; lra.
  - repeat (apply Forall_cons_2 || apply Forall_nil_2); constructor.
Qed.

Lemma three_leaves_valid :
  Forall (fun l => mbr_valid (mbr l)) (leaves three_leaves).
Proof.
  repeat (apply Forall_cons_2 || apply Forall_nil_2);
    unfold mbr_valid; simpl; lra.
Qed.

(** The scenario of the specification: the two entries nearest to the
    origin are 1 and 3, in that order. *)
Example kn_query_three_leaves :
  kn_query (PQ := list_pq) (Some three_leaves) 0 0 2 = Ok [1; 3].
Proof. reflexivity. Qed.

(** Under the closed-interval rule the query rectangle [1, 1, 4, 4] meets
    entry 1, which it touches at a corner, and entry 3. *)
Example range_query_three_leaves :
  range_query (Some three_leaves) (mkMBR 1 1 4 4) [] = [1; 3].
Proof. reflexivity. Qed.


Lemma range_query_exact_witness :
  range_query (Some three_leaves) (mkMBR 1 1 4 4) []
    = node_id <$> filter (fun l => intersects_closed (mbr l) (mkMBR 1 1 4 4))
                         (leaves_below three_leaves)
  /\ (NoDup (node_id <$> leaves_below three_leaves) ->
      NoDup (range_query (Some three_leaves) (mkMBR 1 1 4 4) []))
  /\ range_query None (mkMBR 1 1 4 4) [] = [].
Proof.
  apply (range_query_exact three_leaves (mkMBR 1 1 4 4)).
  exact three_leaves_covered.
Defined.

(** 29 nodes: one full group and a final group of 9. *)
Lemma create_upper_level_large_remainder_witness :
  create_upper_level (build_leaf_nodes (diagonal_entries 29)) 0 = Undefined.
Proof.
  apply (create_upper_level_large_remainder
           (build_leaf_nodes (diagonal_entries 29)) 0).
  - vm_compute. lia.
  - vm_compute. lia.
Defined.

Lemma loaded_25_run :
  build_tree (build_leaf_nodes (diagonal_entries 25))
  = Ok (Some root_25, loaded_25.2).
Proof. vm_compute. reflexivity. Qed.

Example root_25_shape :
  (fun n => length (children n)) <$> children root_25 = [17%nat; 8%nat].
Proof. vm_compute. reflexivity. Qed.

Lemma bulk_loader_fanout_witness : fanout_invariant root_25.
Proof.
  apply (bulk_loader_fanout (diagonal_entries 25) root_25 loaded_25.2).
  exact loaded_25_run.
Defined.

Lemma produced_tree_tight_witness : tight root_25.
Proof.
  apply (proj1 produced_tree_tight root_25).
  apply (produced_by_loader (diagonal_entries 25) root_25 loaded_25.2).
  exact loaded_25_run.
Defined.


Lemma dangling_reference_unchecked_witness :
  read_children RangeQueries false ∅
    (chars <$> ["7"; "0.000000"; "1.000000"; "0.000000"; "1.000000"]%string)
  = Undefined.
Proof.
  apply (dangling_reference_unchecked RangeQueries ∅
           (chars <$> ["7"; "0.000000"; "1.000000"; "0.000000"; "1.000000"]%string)
           [(7, mkMBR (0 # 1000000) (0 # 1000000) (1000000 # 1000000) (1000000 # 1000000))]).
  - apply child_records_cons; [reflexivity | reflexivity | constructor].
  - apply Exists_cons_hd. reflexivity.
Defined.

(** C8, counterexample: a line refers to a node the file does not
    describe. Neither reader reports an error: the behaviour is undefined. *)
Lemma dangling_reference_not_reported :
  build_tree_from_file RangeQueries dangling_file = Undefined
  /\ build_tree_from_file KNearestNeighbors dangling_file = Undefined
  /\ ~ fatal (build_tree_from_file RangeQueries dangling_file)
  /\ ~ fatal (build_tree_from_file KNearestNeighbors dangling_file).
Proof.
  assert (H1 : build_tree_from_file RangeQueries dangling_file = Undefined)
    by reflexivity.
  assert (H2 : build_tree_from_file KNearestNeighbors dangling_file = Undefined)
    by reflexivity.
  rewrite H1, H2. repeat split; intros [msg Hmsg]; discriminate.
Qed.


Lemma kn_ids_distinct_witness :
  exists ids,
    kn_query (PQ := list_pq) (Some three_leaves) 0 0 2 = Ok ids
    /\ ids ⊆+ (node_id <$> leaves three_leaves)
    /\ NoDup ids.
Proof.
  apply (kn_ids_distinct three_leaves 0 0 2).
  apply (bool_decide_eq_true_1 _). vm_compute. reflexivity.
Defined.

(** C10, counterexample: the two leaves are distinct nodes under one
    parent, and the query returns the id they share twice. *)
Lemma kn_ids_repeated :
  kn_query (PQ := list_pq) (Some twin_leaves) 0 0 2 = Ok [7; 7]
  /\ ~ NoDup [7; 7].
Proof.
  split; [reflexivity |]. intros H. apply NoDup_cons in H as [H _].
  apply H. left.
Qed.


(** The lines of a tree over three entries, and the third line of the
    tree over 25: the root, over the two nodes of the level below. *)
Example three_entries_line :
  (match build_tree (build_leaf_nodes (diagonal_entries 3)) with
   | Ok (_, lines) => String.string_of_list_ascii <$> lines
   | _ => []
   end)
  = ["[0, 0, [[0, [0.000000, 1.000000, 0.000000, 1.000000]], [1, [1.000000, 2.000000, 1.000000, 2.000000]], [2, [2.000000, 3.000000, 2.000000, 3.000000]]]]"%string].
Proof. vm_compute. reflexivity. Qed.

Example root_25_line :
  String.string_of_list_ascii <$> last loaded_25.2
  = Some "[1, 2, [[0, [0.000000, 17.000000, 0.000000, 17.000000]], [1, [17.000000, 25.000000, 17.000000, 25.000000]]]]"%string.
Proof. vm_compute. reflexivity. Qed.

(** A triangle and a segment: their entries. *)
Example computeMBRs_two_polygons :
  computeMBRs [Point.mk 0 0; Point.mk 2 1; Point.mk 1 3; Point.mk 5 5; Point.mk 4 6]
              [OffsetRecord.mk 7 0 2; OffsetRecord.mk 8 3 4]
  = Ok [Entry.mk 7 (mkMBR 0 0 2 3) ""; Entry.mk 8 (mkMBR 4 5 5 6) ""].
Proof. reflexivity. Qed.

(** An offset past the end of the coordinates is read unchecked. *)
Example computeMBRs_offset_out_of_range :
  computeMBRs [Point.mk 0 0; Point.mk 2 1] [OffsetRecord.mk 7 0 2] = Undefined.
Proof. reflexivity. Qed.

(** * The further properties at concrete inputs *)

Lemma range_query_extent_witness :
  range_query (Some three_leaves) (mkMBR 0 0 6 6) []
  = node_id <$> leaves_below three_leaves.
Proof.
  apply (proj1 (range_query_extent three_leaves (mkMBR 0 0 6 6)
                  three_leaves_covered three_leaves_valid)).
  unfold mbr_contains. simpl. lra.
Defined.

(** A query rectangle beside the extent of the tree finds nothing. *)
Example range_query_outside : range_query (Some three_leaves) (mkMBR 7 7 9 9) [] = [].
Proof. reflexivity. Qed.


Lemma kn_query_nonpositive_k_witness :
  exists out,
    kn_query (PQ := list_pq) (Some three_leaves) 0 0 (-1) = Ok (node_id <$> out)
    /\ (-1 = 0 -> out = [])
    /\ (-1 < 0 -> out ≡ₚ leaves three_leaves).
Proof.
  apply (kn_query_nonpositive_k three_leaves 0 0 (-1)).
  - lia.
  - vm_compute. reflexivity.
Defined.

(** With [k = -1] all three leaves are returned, nearest first. *)
Example kn_query_minus_one :
  kn_query (PQ := list_pq) (Some three_leaves) 0 0 (-1) = Ok [1; 3; 2].
Proof. vm_compute. reflexivity. Qed.

Lemma recompute_node_mbr_order_witness :
  exists m',
    recompute_node_mbr (reverse (children three_leaves)) = Ok m'
    /\ mbr_contains (mkMBR 0 0 6 6) m' /\ mbr_contains m' (mkMBR 0 0 6 6).
Proof.
  apply (recompute_node_mbr_order (children three_leaves)
           (reverse (children three_leaves)) (mkMBR 0 0 6 6)).
  - symmetry. apply reverse_Permutation.
  - reflexivity.
Defined.

Lemma create_upper_level_grouping_witness :
  children root_25 ≫= children = build_leaf_nodes (diagonal_entries 25)
  /\ node_id <$> children root_25 = seqZ 0 (Z.of_nat (length (children root_25))).
Proof.
  pose proof (create_upper_level_grouping
                (build_leaf_nodes (diagonal_entries 25)) (children root_25) 0 2)
    as H.
  split; apply H; vm_compute; reflexivity.
Defined.

Lemma create_upper_level_borrowing_witness :
  exists ups1 donor recipient,
    children root_25 = ups1 ++ [donor; recipient]
    /\ children donor
       = take (12 + length (build_leaf_nodes (diagonal_entries 25)) mod 20)
              (drop (length (build_leaf_nodes (diagonal_entries 25)) - 20
                     - length (build_leaf_nodes (diagonal_entries 25)) mod 20)
                    (build_leaf_nodes (diagonal_entries 25)))
    /\ children recipient
       = drop (length (build_leaf_nodes (diagonal_entries 25)) - 8)
              (build_leaf_nodes (diagonal_entries 25))
    /\ is_union (mbr donor) (children donor)
    /\ is_union (mbr recipient) (children recipient).
Proof.
  apply (create_upper_level_borrowing
           (build_leaf_nodes (diagonal_entries 25)) (children root_25) 0 2).
  - vm_compute. lia.
  - vm_compute. lia.
  - vm_compute. reflexivity.
Defined.

Lemma loader_keeps_every_polygon_witness :
  node_id <$> leaves (InternalNode 0 (mkMBR 0 0 5 6) true
                        [Leaf 8 (mkMBR 4 5 5 6); Leaf 7 (mkMBR 0 0 2 3)])
  ≡ₚ OffsetRecord.id <$> two_offsets.
Proof.
  refine (proj2 (@loader_keeps_every_polygon merge_std_sort
                   two_polygons two_offsets ["B"; "A"]%string two_entries
                   (InternalNode 0 (mkMBR 0 0 5 6) true
                      [Leaf 8 (mkMBR 4 5 5 6); Leaf 7 (mkMBR 0 0 2 3)])
                   _ _ _)).
  - reflexivity.
  - vm_compute. reflexivity.
Defined.

Lemma written_lines_bottom_up_witness :
  exists written,
    loaded_25.2 = toString <$> written
    /\ bottom_up written
    /\ Some root_25 = last written.
Proof.
  apply (written_lines_bottom_up (diagonal_entries 25) (Some root_25) loaded_25.2).
  exact loaded_25_run.
Defined.

Lemma loader_tree_balanced_witness : exists h, level (S h) root_25.
Proof.
  apply (loader_tree_balanced (diagonal_entries 25) root_25 loaded_25.2).
  exact loaded_25_run.
Defined.

(** The sizes for which the loader returns a tree: 25 and 400 entries are
    fine; with 29 the first level cannot be built, with 580 the second. *)
Example sizes_ok_examples :
  sizes_ok 25 25 = true /\ sizes_ok 400 400 = true
  /\ sizes_ok 29 29 = false /\ sizes_ok 580 580 = false.
Proof. vm_compute. repeat split; reflexivity. Qed.

Lemma computeMBRs_bounding_boxes_witness :
  Forall2 (fun r e =>
             Entry.id e = OffsetRecord.id r
             /\ Entry.z_value e = EmptyString
             /\ bounding_box two_polygons r (Entry.mbr e)
             /\ mbr_valid (Entry.mbr e))
          two_offsets two_entries.
Proof.
  apply (computeMBRs_bounding_boxes two_polygons two_offsets two_entries).
  reflexivity.
Defined.

Lemma computeMBRs_defined_iff_witness :
  (exists entries, computeMBRs two_polygons two_offsets = Ok entries)
  <-> Forall (offsets_in_range (Z.of_nat (length two_polygons))) two_offsets.
Proof.
  apply (computeMBRs_defined_iff two_polygons two_offsets).
  vm_compute. discriminate.
Defined.

(** An end offset before the start offset: the entry is the point at the
    start offset. *)
Example computeMBRs_end_before_start :
  computeMBRs two_polygons [OffsetRecord.mk 9 3 1]
  = Ok [Entry.mk 9 (mkMBR 5 5 5 5) ""].
Proof. reflexivity. Qed.

Lemma read_node_shape_witness :
  exists n,
    read_node RangeQueries ∅
      (chars "[0, 4, [[1, [0.000000, 1.000000, 0.000000, 1.000000]]]]") = Ok n
    /\ is_internal n = true
    /\ children n <> [].
Proof.
  eexists. split; [vm_compute; reflexivity |].
  pose proof (read_node_shape RangeQueries ∅
                (chars "[0, 4, [[1, [0.000000, 1.000000, 0.000000, 1.000000]]]]")
                _ ltac:(vm_compute; reflexivity)) as H.
  split; apply H.
Defined.

(** Numbers as [extract_numbers] finds them: a sign only counts after a
    character that is not a digit, a point only after a digit; a lone sign
    is returned as a number. *)
Example extract_numbers_examples :
  String.string_of_list_ascii <$> extract_numbers (chars "5-3, -2.5.1, .7 - x")
  = ["5"; "3"; "-2.5.1"; "7"; "-"]%string.
Proof. vm_compute. reflexivity. Qed.

Lemma readOffsets_numbers_witness :
  readOffsets (Some [chars "7,0,2"; chars "8,3,4 # second polygon"])
  = Ok two_offsets.
Proof.
  apply (readOffsets_numbers [chars "7,0,2"; chars "8,3,4 # second polygon"]
           two_offsets).
  constructor; [| constructor; [| constructor]].
  - split; [unfold offsets_in_int, in_int; cbn; lia |].
    exists []. split; [vm_compute; reflexivity | exact I].
  - split; [unfold offsets_in_int, in_int; cbn; lia |].
    exists (chars " # second polygon"). split; vm_compute; reflexivity.
Defined.

(** Lines of the offsets file that are not read: a missing field exits, a
    field that is not a number or does not fit an [int] throws. *)
Example readOffsets_bad_lines :
  readOffsets (Some [chars "7,0"]) = Exit "Error reading offsets file"
  /\ readOffsets (Some [chars "7,0,"]) = Exit "Error reading offsets file"
  /\ readOffsets (Some [chars "7,,2"]) = Throw "std::invalid_argument"
  /\ readOffsets (Some [chars "7,0,4294967296"]) = Throw "std::out_of_range"
  /\ readOffsets (Some [chars " +7, 0,2,9"])
     = Ok [OffsetRecord.mk 7 0 2].
Proof. vm_compute. repeat split; reflexivity. Qed.


(** Two leaves at the same distance: which one is the nearest neighbour
    depends on the priority queue. *)
Example kn_query_tie :
  @kn_query list_pq (Some tied_leaves) (3 # 2) 0 1 = Ok [2]
  /\ @kn_query back_pq (Some tied_leaves) (3 # 2) 0 1 = Ok [1].
Proof. vm_compute. split; reflexivity. Qed.



(** The query rectangle [3, 3, 5, 5] on the 25 entries of the diagonal:
    entries 2 to 5, those it touches included. *)
Example range_query_on_written_file_25 :
  (read ← build_tree_from_file RangeQueries (Some loaded_25.2);
   Ok (range_query read (mkMBR 3 3 5 5) []))
  = Ok [2; 3; 4; 5].
Proof. vm_compute. reflexivity. Qed.

